(** * Secrets Store: the encryption envelope and the handlers that use it

    A shallow embedding of [backend/src/services/encryptionService.ts], of
    the handlers of [backend/src/controllers/secretsController.ts], of the
    authentication middleware of [backend/src/middleware/auth.ts], of the
    start-up check of [backend/src/server.ts], and of the pieces of the
    frontend that meet them: the header the API client sends and the checks
    of the form of a secret.

    The service is a thin wrapper around the Node.js [crypto] and [Buffer]
    runtime, so the runtime pieces it calls are embedded as well, as total
    executable functions:
    - [Buffer.from(s, 'hex')] / [buf.toString('hex')]          (module [Hex]),
    - the UTF-8 encoder and the WHATWG streaming decoder        (module [Utf8]),
    - the AES-256 block cipher of FIPS 197                      (module [AES]),
    - GCM of NIST SP 800-38D, with IVs of any length            (module [GCM]),
    - [createCipheriv] / [createDecipheriv] objects            (module [NodeCrypto]).
    The process (environment, console, entropy source) is a record that the
    service and the handlers thread through a state-and-exception monad.

    The database and Supabase Auth are outside the program: a handler takes
    what an awaited query resolved to, or the query itself as a function of
    the row it is given.

    The file has three parts: the definitions; known answers that pin the
    embedded cipher to the published test vectors; the properties, which end
    with the statements about the service, the handlers, the middleware and
    the start of the server. *)

From Stdlib Require Import String Ascii.
From Stdlib Require Import ZArith NArith List Lia Bool Arith Btauto.
From Stdlib Require Import Strings.Byte.
Import ListNotations.

Local Open Scope N_scope.

(** ** Bytes *)

(** A [Buffer] is a list of octets.  [byte_of_N] is the store of a number
    into a [Uint8Array] cell: it keeps the low eight bits. *)
Definition byte_of_N (n : N) : byte :=
  match Byte.of_N (n mod 256) with
  | Some b => b
  | None => x00
  end.

Definition Buffer := list byte.

Definition bxor (a b : byte) : byte :=
  byte_of_N (N.lxor (Byte.to_N a) (Byte.to_N b)).

(** Pointwise xor of two buffers, as long as the shorter one. *)
Fixpoint xor_bytes (xs ys : Buffer) : Buffer :=
  match xs, ys with
  | x :: xs', y :: ys' => bxor x y :: xor_bytes xs' ys'
  | _, _ => []
  end.

(** ** JavaScript strings

    A JavaScript string is a sequence of UTF-16 code units. *)
Definition jsstring := list N.

Definition js (s : string) : jsstring :=
  map (fun c => N_of_ascii c) (list_ascii_of_string s).

(** [a === b] on strings. *)
Fixpoint js_eqb (a b : jsstring) : bool :=
  match a, b with
  | [], [] => true
  | x :: a', y :: b' => (x =? y) && js_eqb a' b'
  | _, _ => false
  end.

(** A string is well formed Unicode text when every unit is a 16-bit value
    and every surrogate is part of a high/low pair. *)
Definition is_high_surrogate (c : N) : bool := (0xD800 <=? c) && (c <=? 0xDBFF).
Definition is_low_surrogate (c : N) : bool := (0xDC00 <=? c) && (c <=? 0xDFFF).

Fixpoint well_formed (s : jsstring) : bool :=
  match s with
  | [] => true
  | c :: r =>
      if is_high_surrogate c then
        match r with
        | d :: r' => is_low_surrogate d && well_formed r'
        | [] => false
        end
      else if is_low_surrogate c then false
      else (c <? 0x10000) && well_formed r
  end.

(** ** Hexadecimal transport encoding *)
Module Hex.

(** [buf.toString('hex')]: two lowercase digits per octet. *)
Definition digit (n : N) : N := if n <? 10 then 48 + n else 87 + n.

Definition encode_byte (b : byte) : jsstring :=
  [digit (Byte.to_N b / 16); digit (Byte.to_N b mod 16)].

Fixpoint encode (bs : Buffer) : jsstring :=
  match bs with
  | [] => []
  | b :: r => encode_byte b ++ encode r
  end.

(** The value of one hexadecimal digit, in either case. *)
Definition digit_value (c : N) : option N :=
  if (48 <=? c) && (c <=? 57) then Some (c - 48)
  else if (97 <=? c) && (c <=? 102) then Some (c - 87)
  else if (65 <=? c) && (c <=? 70) then Some (c - 55)
  else None.

(** How the decoder of the runtime reads one code unit of the string: only
    the low octet of the unit is looked at, so that U+0130, say, is read
    like the digit 0 (U+0030). *)
Definition unhex (c : N) : option N := digit_value (c mod 256).

(** [Buffer.from(s, 'hex')]: decodes pair by pair and stops, without an
    error, at the first pair that is not read as two hexadecimal digits or
    at a trailing single character ("data truncation may occur"). *)
Fixpoint decode (s : jsstring) : Buffer :=
  match s with
  | a :: b :: r =>
      match unhex a, unhex b with
      | Some x, Some y => byte_of_N (16 * x + y) :: decode r
      | _, _ => []
      end
  | _ => []
  end.

(** A string that consists of an even number of hexadecimal digits. *)
Fixpoint valid (s : jsstring) : bool :=
  match s with
  | [] => true
  | a :: b :: r =>
      match digit_value a, digit_value b with
      | Some _, Some _ => valid r
      | _, _ => false
      end
  | _ => false
  end.

End Hex.

(** ** Big-endian integers in buffers *)

(** The [n]-octet big-endian representation of [x] (low [8n] bits). *)
Fixpoint be_bytes (n : nat) (x : N) : Buffer :=
  match n with
  | O => []
  | S n' => be_bytes n' (x / 256) ++ [byte_of_N x]
  end.

Definition be_value (bs : Buffer) : N :=
  fold_left (fun acc b => 256 * acc + Byte.to_N b) bs 0.

(** ** AES-256 (FIPS 197) *)
Module AES.

(** *** The field GF(2^8) *)

(** Multiplication by x modulo x^8 + x^4 + x^3 + x + 1. *)
Definition xtime_N (n : N) : N :=
  if n <? 128 then 2 * n else N.lxor (2 * n) 0x11b.

Definition xtime (b : byte) : byte := byte_of_N (xtime_N (Byte.to_N b)).

Fixpoint gf_mul_N (steps : nat) (a b : N) : N :=
  match steps with
  | O => 0
  | S k =>
      N.lxor (if N.odd b then a else 0) (gf_mul_N k (xtime_N a) (b / 2))
  end.

(** The multiplicative inverse, found by search; 0 is mapped to 0. *)
Definition gf_inv_N (a : N) : N :=
  match find (fun x => gf_mul_N 8 a x =? 1) (map N.of_nat (seq 1 255)) with
  | Some x => x
  | None => 0
  end.

Definition rotl8 (n k : N) : N :=
  (N.shiftl n k mod 256) + N.shiftr n (8 - k).

(** The S-box of section 5.1.1: inversion followed by the affine map. *)
Definition sbox_N (a : N) : N :=
  let i := gf_inv_N a in
  N.lxor i (N.lxor (rotl8 i 1) (N.lxor (rotl8 i 2)
    (N.lxor (rotl8 i 3) (N.lxor (rotl8 i 4) 0x63)))).

Definition sbox_table : list byte :=
  Eval vm_compute in map (fun i => byte_of_N (sbox_N (N.of_nat i))) (seq 0 256).

Definition sbox (b : byte) : byte := nth (Byte.to_nat b) sbox_table x00.

(** *** Words and the state *)

Definition word := (byte * byte * byte * byte)%type.
Definition state := (word * word * word * word)%type.

Definition xor_word (a b : word) : word :=
  let '(a0, a1, a2, a3) := a in
  let '(b0, b1, b2, b3) := b in
  (bxor a0 b0, bxor a1 b1, bxor a2 b2, bxor a3 b3).

Definition sub_word (w : word) : word :=
  let '(a, b, c, d) := w in (sbox a, sbox b, sbox c, sbox d).

Definition rot_word (w : word) : word :=
  let '(a, b, c, d) := w in (b, c, d, a).

Definition zero_word : word := (x00, x00, x00, x00).

(** *** Key expansion (section 5.2), Nk = 8, Nr = 14

    [expand n i rcon ws] extends the schedule by [n] words; [ws] holds the
    words computed so far, the most recent first, and [i] is the index of
    the next word. *)
Fixpoint expand (n i : nat) (rcon : byte) (ws : list word) : list word :=
  match n with
  | O => ws
  | S n' =>
      let prev := hd zero_word ws in
      let back := nth 7 ws zero_word in
      if (i mod 8 =? 0)%nat then
        let t := xor_word (sub_word (rot_word prev)) (rcon, x00, x00, x00) in
        expand n' (S i) (xtime rcon) (xor_word back t :: ws)
      else if (i mod 8 =? 4)%nat then
        expand n' (S i) rcon (xor_word back (sub_word prev) :: ws)
      else
        expand n' (S i) rcon (xor_word back prev :: ws)
  end.

Fixpoint words_of_bytes (bs : Buffer) : list word :=
  match bs with
  | a :: b :: c :: d :: r => (a, b, c, d) :: words_of_bytes r
  | _ => []
  end.

Fixpoint states_of_words (ws : list word) : list state :=
  match ws with
  | a :: b :: c :: d :: r => (a, b, c, d) :: states_of_words r
  | _ => []
  end.

(** The fifteen round keys of a 32-octet key. *)
Definition key_expansion (key : Buffer) : list state :=
  states_of_words (rev (expand 52 8 x01 (rev (words_of_bytes key)))).

(** *** Round transformations (section 5.1) *)

Definition add_round_key (st rk : state) : state :=
  let '(c0, c1, c2, c3) := st in
  let '(k0, k1, k2, k3) := rk in
  (xor_word c0 k0, xor_word c1 k1, xor_word c2 k2, xor_word c3 k3).

Definition sub_bytes (st : state) : state :=
  let '(c0, c1, c2, c3) := st in
  (sub_word c0, sub_word c1, sub_word c2, sub_word c3).

(** Row [r] of the state is rotated left by [r] columns. *)
Definition shift_rows (st : state) : state :=
  let '((a0, a1, a2, a3), (b0, b1, b2, b3),
        (c0, c1, c2, c3), (d0, d1, d2, d3)) := st in
  ((a0, b1, c2, d3), (b0, c1, d2, a3), (c0, d1, a2, b3), (d0, a1, b2, c3)).

Definition mul2 (b : byte) : byte := xtime b.
Definition mul3 (b : byte) : byte := bxor (xtime b) b.

Definition mix_column (w : word) : word :=
  let '(a, b, c, d) := w in
  (bxor (mul2 a) (bxor (mul3 b) (bxor c d)),
   bxor a (bxor (mul2 b) (bxor (mul3 c) d)),
   bxor a (bxor b (bxor (mul2 c) (mul3 d))),
   bxor (mul3 a) (bxor b (bxor c (mul2 d)))).

Definition mix_columns (st : state) : state :=
  let '(c0, c1, c2, c3) := st in
  (mix_column c0, mix_column c1, mix_column c2, mix_column c3).

(** *** The cipher (section 5.1) *)

Fixpoint rounds (rks : list state) (st : state) : state :=
  match rks with
  | [] => st
  | [last] => add_round_key (shift_rows (sub_bytes st)) last
  | rk :: rest =>
      rounds rest (add_round_key (mix_columns (shift_rows (sub_bytes st))) rk)
  end.

Definition cipher (rks : list state) (st : state) : state :=
  match rks with
  | [] => st
  | rk0 :: rest => rounds rest (add_round_key st rk0)
  end.

Definition state_of_bytes (bs : Buffer) : state :=
  match words_of_bytes bs with
  | [c0; c1; c2; c3] => (c0, c1, c2, c3)
  | _ => (zero_word, zero_word, zero_word, zero_word)
  end.

Definition bytes_of_word (w : word) : Buffer :=
  let '(a, b, c, d) := w in [a; b; c; d].

Definition bytes_of_state (st : state) : Buffer :=
  let '(c0, c1, c2, c3) := st in
  bytes_of_word c0 ++ bytes_of_word c1 ++ bytes_of_word c2 ++ bytes_of_word c3.

(** Encryption of one 128-bit block, the block given as a big-endian
    number. *)
Definition encrypt_block (key : Buffer) (x : N) : N :=
  be_value (bytes_of_state (cipher (key_expansion key)
                                   (state_of_bytes (be_bytes 16 x)))).

End AES.

(** ** Galois/Counter Mode (NIST SP 800-38D) *)
Module GCM.

(** *** The field GF(2^128)

    A block is a number below 2^128 read big-endian; its most significant
    bit is the coefficient of x^0 (section 6.3). *)

Definition R : N := 0xe1000000000000000000000000000000.

(** Multiplication by x: a right shift, reduced by [R]. *)
Definition mulx (v : N) : N :=
  if N.odd v then N.lxor (v / 2) R else v / 2.

(** Algorithm 1.  The bits of [X] are read from bit [k - 1] downwards;
    [V] is [Y] times the power of x reached so far. *)
Fixpoint gmul_bits (k : nat) (X V : N) : N :=
  match k with
  | O => 0
  | S k' =>
      N.lxor (if N.testbit X (N.of_nat k') then V else 0)
             (gmul_bits k' X (mulx V))
  end.

Definition gmul (X Y : N) : N := gmul_bits 128 X Y.

(** *** GHASH (algorithm 2) *)

Definition ghash_blocks (H Y : N) (Xs : list N) : N :=
  fold_left (fun Y X => gmul (N.lxor Y X) H) Xs Y.

(** One block from at most sixteen octets, padded with zero bits on the
    right. *)
Definition pad_block (chunk : Buffer) : N :=
  be_value chunk * 256 ^ N.of_nat (16 - length chunk).

(** The 128-bit blocks of a buffer, the last one padded. *)
Fixpoint blocks_fuel (fuel : nat) (bs : Buffer) : list N :=
  match fuel with
  | O => []
  | S f =>
      match bs with
      | [] => []
      | _ => pad_block (firstn 16 bs) :: blocks_fuel f (skipn 16 bs)
      end
  end.

Definition blocks (bs : Buffer) : list N := blocks_fuel (length bs) bs.

Definition bit_length (bs : Buffer) : N := (8 * N.of_nat (length bs)) mod 2 ^ 64.

(** GHASH of the ciphertext with no additional authenticated data: the
    length block is [0]_64 || [len(C)]_64. *)
Definition ghash (H : N) (c : Buffer) : N :=
  ghash_blocks H 0 (blocks c ++ [bit_length c]).

(** *** Counter blocks *)

Definition inc32 (x : N) : N :=
  (x / 2 ^ 32) * 2 ^ 32 + (x mod 2 ^ 32 + 1) mod 2 ^ 32.

Definition hash_subkey (key : Buffer) : N := AES.encrypt_block key 0.

(** The pre-counter block J0 (algorithm 4, step 2): a 96-bit IV is used
    directly, any other length is hashed. *)
Definition J0 (key iv : Buffer) : N :=
  if (length iv =? 12)%nat then be_value iv * 2 ^ 32 + 1
  else ghash_blocks (hash_subkey key) 0 (blocks iv ++ [bit_length iv]).

(** *** GCTR (algorithm 3) *)

Fixpoint counters (nblocks : nat) (ctr : N) : list N :=
  match nblocks with
  | O => []
  | S n => ctr :: counters n (inc32 ctr)
  end.

Definition keystream (nblocks : nat) (key : Buffer) (ctr : N) : Buffer :=
  flat_map (fun c => be_bytes 16 (AES.encrypt_block key c)) (counters nblocks ctr).

Definition gctr (key : Buffer) (icb : N) (data : Buffer) : Buffer :=
  xor_bytes data (keystream ((length data + 15) / 16) key icb).

(** *** Authenticated encryption and decryption (algorithms 4 and 5) *)

Definition tag (key iv c : Buffer) : Buffer :=
  be_bytes 16 (N.lxor (ghash (hash_subkey key) c)
                      (AES.encrypt_block key (J0 key iv))).

Definition encrypt_data (key iv p : Buffer) : Buffer :=
  gctr key (inc32 (J0 key iv)) p.

Definition decrypt_data (key iv c : Buffer) : Buffer :=
  gctr key (inc32 (J0 key iv)) c.

End GCM.

Definition hexbuf (s : string) : Buffer := Hex.decode (js s).

(** ** UTF-8 *)
Module Utf8.

Definition replacement : Buffer := [xef; xbf; xbd].

(** The octets of one code point. *)
Definition encode_code_point (cp : N) : Buffer :=
  if cp <? 0x80 then [byte_of_N cp]
  else if cp <? 0x800 then
    [byte_of_N (0xC0 + cp / 64); byte_of_N (0x80 + cp mod 64)]
  else if cp <? 0x10000 then
    [byte_of_N (0xE0 + cp / 4096); byte_of_N (0x80 + (cp / 64) mod 64);
     byte_of_N (0x80 + cp mod 64)]
  else
    [byte_of_N (0xF0 + cp / 262144); byte_of_N (0x80 + (cp / 4096) mod 64);
     byte_of_N (0x80 + (cp / 64) mod 64); byte_of_N (0x80 + cp mod 64)].

Definition pair_code_point (hi lo : N) : N :=
  0x10000 + (hi - 0xD800) * 1024 + (lo - 0xDC00).

(** [Buffer.from(s, 'utf8')], also the input encoding of [cipher.update]:
    a surrogate pair becomes one four-octet sequence, a surrogate on its
    own becomes U+FFFD. *)
Fixpoint encode (s : jsstring) : Buffer :=
  match s with
  | [] => []
  | c :: r =>
      if is_high_surrogate c then
        match r with
        | d :: r' =>
            if is_low_surrogate d
            then encode_code_point (pair_code_point c d) ++ encode r'
            else replacement ++ encode r
        | [] => replacement
        end
      else if is_low_surrogate c then replacement ++ encode r
      else encode_code_point c ++ encode r
  end.

(** *** The streaming decoder

    The decoder of the WHATWG Encoding standard, which is what
    [buf.toString('utf8')] and the [StringDecoder] behind
    [decipher.update(..., 'utf8')] implement: an ill-formed sequence is
    replaced by U+FFFD and decoding resumes at the offending octet. *)
Record state := mkState {
  code_point : N;
  bytes_left : nat;
  lower : N;
  upper : N
}.

Definition initial : state := mkState 0 0 0x80 0xBF.

(** The code units of a decoded code point. *)
Definition emit (cp : N) : jsstring :=
  if cp <? 0x10000 then [cp]
  else [0xD800 + (cp - 0x10000) / 1024; 0xDC00 + (cp - 0x10000) mod 1024].

(** An octet met while no sequence is pending. *)
Definition start (b : N) : jsstring * state :=
  if b <? 0x80 then ([b], initial)
  else if (0xC2 <=? b) && (b <=? 0xDF) then
    ([], mkState (b - 0xC0) 1 0x80 0xBF)
  else if (0xE0 <=? b) && (b <=? 0xEF) then
    ([], mkState (b - 0xE0) 2
                 (if b =? 0xE0 then 0xA0 else 0x80)
                 (if b =? 0xED then 0x9F else 0xBF))
  else if (0xF0 <=? b) && (b <=? 0xF4) then
    ([], mkState (b - 0xF0) 3
                 (if b =? 0xF0 then 0x90 else 0x80)
                 (if b =? 0xF4 then 0x8F else 0xBF))
  else ([0xFFFD], initial).

Definition step (st : state) (b : N) : jsstring * state :=
  match bytes_left st with
  | O => start b
  | S k =>
      if (lower st <=? b) && (b <=? upper st) then
        let cp := code_point st * 64 + b mod 64 in
        match k with
        | O => (emit cp, initial)
        | S _ => ([], mkState cp k 0x80 0xBF)
        end
      else
        let '(out, st') := start b in (0xFFFD :: out, st')
  end.

(** [decoder.write(buf)]: the text decoded so far and the pending state. *)
Fixpoint write (st : state) (bs : Buffer) : jsstring * state :=
  match bs with
  | [] => ([], st)
  | b :: r =>
      let '(o1, st1) := step st (Byte.to_N b) in
      let '(o2, st2) := write st1 r in
      (o1 ++ o2, st2)
  end.

(** [decoder.end()]: an incomplete sequence is flushed as U+FFFD. *)
Definition finish (st : state) : jsstring :=
  match bytes_left st with
  | O => []
  | S _ => [0xFFFD]
  end.

Definition decode (bs : Buffer) : jsstring :=
  let '(o, st) := write initial bs in o ++ finish st.

End Utf8.

(** ** The process: environment, console, entropy, exceptions *)

Inductive LogLevel := INFO | ERROR | WARN | DEBUG.

(** One line written to the console by [utils/logger.ts]; the timestamp
    prefix of the line is left out, the clock is not part of the model. *)
Record LogEntry := mkLog {
  log_level : LogLevel;
  log_module : jsstring;
  log_message : jsstring
}.

Record World := mkWorld {
  ENCRYPTION_KEY : option jsstring;   (* process.env.ENCRYPTION_KEY *)
  development : bool;                 (* process.env.NODE_ENV === 'development' *)
  console : list LogEntry;            (* the lines written so far, oldest first *)
  entropy : nat -> byte               (* the octets the CSPRNG will deliver *)
}.

(** A thrown JavaScript [Error], identified by its message. *)
Inductive exn := Error (message : jsstring).

Definition message (e : exn) : jsstring := let 'Error m := e in m.

(** Computations that read and write the world and may throw. *)
Definition M (A : Type) : Type := World -> (exn + A) * World.

Definition ret {A} (a : A) : M A := fun w => (inr a, w).

Definition throw {A} (e : exn) : M A := fun w => (inl e, w).

Definition bind {A B} (m : M A) (k : A -> M B) : M B :=
  fun w =>
    match m w with
    | (inr a, w') => k a w'
    | (inl e, w') => (inl e, w')
    end.

(** [try { body } catch (error) { handler }] *)
Definition try_catch {A} (body : M A) (handler : exn -> M A) : M A :=
  fun w =>
    match body w with
    | (inr a, w') => (inr a, w')
    | (inl e, w') => handler e w'
    end.

(** A synchronous runtime call that returns or throws. *)
Definition lift {A} (r : exn + A) : M A := fun w => (r, w).

Declare Scope monad_scope.
Delimit Scope monad_scope with monad.
Notation "x <- m ;; k" := (bind m (fun x => k))
  (at level 61, m at next level, right associativity) : monad_scope.
Notation "' p <- m ;; k" := (bind m (fun x => let p := x in k))
  (at level 61, p pattern, m at next level, right associativity) : monad_scope.
Notation "m ;;; k" := (bind m (fun _ => k))
  (at level 61, right associativity) : monad_scope.

(** *** utils/logger.ts *)

Definition log (level : LogLevel) (module message : jsstring) : M unit :=
  fun w =>
    let line := mkLog level module message in
    let written :=
      match level with
      | DEBUG => if development w then [line] else []
      | _ => [line]
      end in
    (inr tt, mkWorld (ENCRYPTION_KEY w) (development w)
                     (console w ++ written) (entropy w)).

Definition logInfo := log INFO.
Definition logError := log ERROR.
Definition logWarn := log WARN.
Definition logDebug := log DEBUG.

(** ** The Node.js [crypto] objects the service uses *)
Module NodeCrypto.

(** [crypto.randomBytes(n)]: the next [n] octets of the entropy source. *)
Definition randomBytes (n : nat) : M Buffer :=
  fun w =>
    (inr (map (entropy w) (seq 0 n)),
     mkWorld (ENCRYPTION_KEY w) (development w) (console w)
             (fun i => entropy w (i + n)%nat)).

Fixpoint buffer_eqb (a b : Buffer) : bool :=
  match a, b with
  | [], [] => true
  | x :: a', y :: b' => Byte.eqb x y && buffer_eqb a' b'
  | _, _ => false
  end.

Fixpoint decimal_fuel (fuel n : nat) (acc : jsstring) : jsstring :=
  match fuel with
  | O => acc
  | S f =>
      let acc' := (48 + N.of_nat (n mod 10)) :: acc in
      if (n / 10 =? 0)%nat then acc' else decimal_fuel f (n / 10) acc'
  end.

(** [String(n)] for a natural number. *)
Definition decimal (n : nat) : jsstring := decimal_fuel (S n) n [].

(** The key of aes-256 is 32 octets; GCM takes an IV of 1 to 128 octets
    (the cipher context has room for 1024 bits). *)
Definition check_cipher_args (algorithm : jsstring) (key iv : Buffer)
  : exn + unit :=
  if negb (js_eqb algorithm (js "aes-256-gcm"))
  then inl (Error (js "Invalid cipher type"))
  else if negb (length key =? 32)%nat
  then inl (Error (js "Invalid key length"))
  else if (length iv =? 0)%nat || (128 <? length iv)%nat
  then inl (Error (js "Invalid initialization vector"))
  else inr tt.

(** *** [Cipher] *)
Record Cipher := mkCipher {
  c_key : Buffer;
  c_iv : Buffer;
  c_input : Buffer;        (* the plaintext taken so far *)
  c_final : bool           (* [final()] has been called *)
}.

Definition createCipheriv (algorithm : jsstring) (key iv : Buffer)
  : exn + Cipher :=
  match check_cipher_args algorithm key iv with
  | inl e => inl e
  | inr _ => inr (mkCipher key iv [] false)
  end.

(** [cipher.update(data, 'utf8', 'hex')]: GCM is a stream mode, every
    octet taken is given back encrypted at once. *)
Definition cipher_update (c : Cipher) (data : jsstring)
  : exn + (Cipher * jsstring) :=
  if c_final c then inl (Error (js "Trying to add data in unsupported state"))
  else
    let input := c_input c ++ Utf8.encode data in
    let out := skipn (length (c_input c))
                     (GCM.encrypt_data (c_key c) (c_iv c) input) in
    inr (mkCipher (c_key c) (c_iv c) input false, Hex.encode out).

(** [cipher.final('hex')]: nothing is held back in GCM. *)
Definition cipher_final (c : Cipher) : exn + (Cipher * jsstring) :=
  if c_final c then inl (Error (js "Unsupported state"))
  else inr (mkCipher (c_key c) (c_iv c) (c_input c) true, []).

(** [cipher.getAuthTag()]: the full 16-octet tag, once finalized. *)
Definition getAuthTag (c : Cipher) : exn + Buffer :=
  if c_final c
  then inr (GCM.tag (c_key c) (c_iv c)
                    (GCM.encrypt_data (c_key c) (c_iv c) (c_input c)))
  else inl (Error (js "Invalid state for operation getAuthTag")).

(** *** [Decipher] *)
Record Decipher := mkDecipher {
  d_key : Buffer;
  d_iv : Buffer;
  d_tag : option Buffer;   (* set by [setAuthTag] *)
  d_input : Buffer;        (* the ciphertext taken so far *)
  d_utf8 : Utf8.state;     (* the output [StringDecoder] *)
  d_final : bool
}.

Definition createDecipheriv (algorithm : jsstring) (key iv : Buffer)
  : exn + Decipher :=
  match check_cipher_args algorithm key iv with
  | inl e => inl e
  | inr _ => inr (mkDecipher key iv None [] Utf8.initial false)
  end.

(** The tag lengths GCM admits: 4, 8 and 12 to 16 octets. *)
Definition valid_gcm_tag_length (n : nat) : bool :=
  (n =? 4)%nat || (n =? 8)%nat || ((12 <=? n)%nat && (n <=? 16)%nat).

(** [decipher.setAuthTag(tag)] *)
Definition setAuthTag (d : Decipher) (tag : Buffer) : exn + Decipher :=
  match d_tag d with
  | Some _ => inl (Error (js "Invalid state for operation setAuthTag"))
  | None =>
      if d_final d
      then inl (Error (js "Invalid state for operation setAuthTag"))
      else if valid_gcm_tag_length (length tag)
      then inr (mkDecipher (d_key d) (d_iv d) (Some tag) (d_input d)
                           (d_utf8 d) false)
      else inl (Error (js "Invalid authentication tag length: "
                         ++ decimal (length tag)))
  end.

(** [decipher.update(data, 'hex', 'utf8')]: a string of odd length is
    refused for the 'hex' encoding; otherwise the string is decoded as
    [Buffer.from] does, decrypted, and passed through the decoder. *)
Definition decipher_update (d : Decipher) (data : jsstring)
  : exn + (Decipher * jsstring) :=
  if d_final d then inl (Error (js "Trying to add data in unsupported state"))
  else if Nat.odd (length data)
  then inl (Error (js "The argument 'encoding' is invalid for data of length "
                     ++ decimal (length data) ++ js ". Received 'hex'"))
  else
    let input := d_input d ++ Hex.decode data in
    let plain := skipn (length (d_input d))
                       (GCM.decrypt_data (d_key d) (d_iv d) input) in
    let '(text, st) := Utf8.write (d_utf8 d) plain in
    inr (mkDecipher (d_key d) (d_iv d) (d_tag d) input st false, text).

(** [decipher.final('utf8')]: the tag of the ciphertext is recomputed and
    compared, over the length of the tag that was set. *)
Definition decipher_final (d : Decipher) : exn + (Decipher * jsstring) :=
  if d_final d then inl (Error (js "Unsupported state"))
  else
    match d_tag d with
    | None =>
        inl (Error (js "Unsupported state or unable to authenticate data"))
    | Some t =>
        if buffer_eqb (firstn (length t) (GCM.tag (d_key d) (d_iv d) (d_input d))) t
        then inr (mkDecipher (d_key d) (d_iv d) (d_tag d) (d_input d)
                             Utf8.initial true,
                  Utf8.finish (d_utf8 d))
        else
          inl (Error (js "Unsupported state or unable to authenticate data"))
    end.

End NodeCrypto.

Local Open Scope monad_scope.

(** ** services/encryptionService.ts *)
Module EncryptionService.

Definition algorithm : jsstring := js "aes-256-gcm".
Definition ivLength : nat := 16.
Definition tagLength : nat := 16.
Definition keyLength : nat := 32.

(** The singleton instance; its only field is the cached key. *)
Record t := mk { encryptionKey : Buffer }.

Record EncryptionResult := mkResult {
  encryptedContent : jsstring;
  iv : jsstring;
  authTag : jsstring
}.

Definition getenv_ENCRYPTION_KEY : M (option jsstring) :=
  fun w => (inr (ENCRYPTION_KEY w), w).

Definition key_not_set : jsstring :=
  js "ENCRYPTION_KEY is not set in environment variables".

Definition key_wrong_length : jsstring :=
  js "Encryption key must be " ++ NodeCrypto.decimal keyLength
  ++ js " bytes (" ++ NodeCrypto.decimal (keyLength * 2)
  ++ js " hex characters)".

(** [!key] holds for [undefined] and for the empty string. *)
Definition falsy (key : option jsstring) : bool :=
  match key with
  | None | Some [] => true
  | Some (_ :: _) => false
  end.

Definition getEncryptionKey : M Buffer :=
  key <- getenv_ENCRYPTION_KEY ;;
  if falsy key then
    logError (js "EncryptionService") key_not_set ;;;
    throw (Error key_not_set)
  else
    let keyBuffer := Hex.decode (match key with Some k => k | None => [] end) in
    if negb (length keyBuffer =? keyLength)%nat then
      logError (js "EncryptionService") key_wrong_length ;;;
      throw (Error key_wrong_length)
    else ret keyBuffer.

(** [new EncryptionService()], run once when the module is loaded. *)
Definition constructor : M t :=
  key <- getEncryptionKey ;;
  ret (mk key).

(** The [try] block of [encrypt]. *)
Definition encrypt_try (this : t) (plaintext : jsstring) : M EncryptionResult :=
  iv <- NodeCrypto.randomBytes ivLength ;;
  cipher <- lift (NodeCrypto.createCipheriv algorithm (encryptionKey this) iv) ;;
  '(cipher, encrypted) <- lift (NodeCrypto.cipher_update cipher plaintext) ;;
  '(cipher, last) <- lift (NodeCrypto.cipher_final cipher) ;;
  let encrypted := encrypted ++ last in
  authTag <- lift (NodeCrypto.getAuthTag cipher) ;;
  logInfo (js "EncryptionService") (js "Data encrypted successfully") ;;;
  ret (mkResult encrypted (Hex.encode iv) (Hex.encode authTag)).

Definition encrypt (this : t) (plaintext : jsstring) : M EncryptionResult :=
  try_catch
    (encrypt_try this plaintext)
    (fun error =>
       logError (js "EncryptionService")
                (js "Encryption failed: " ++ message error) ;;;
       throw (Error (js "Failed to encrypt data"))).

(** The [try] block of [decrypt]. *)
Definition decrypt_try (this : t) (encryptedContent ivHex authTagHex : jsstring)
  : M jsstring :=
  let iv := Hex.decode ivHex in
  let authTag := Hex.decode authTagHex in
  decipher <- lift (NodeCrypto.createDecipheriv algorithm (encryptionKey this) iv) ;;
  decipher <- lift (NodeCrypto.setAuthTag decipher authTag) ;;
  '(decipher, decrypted) <- lift (NodeCrypto.decipher_update decipher encryptedContent) ;;
  '(decipher, last) <- lift (NodeCrypto.decipher_final decipher) ;;
  let decrypted := decrypted ++ last in
  logInfo (js "EncryptionService") (js "Data decrypted successfully") ;;;
  ret decrypted.

Definition decrypt (this : t) (encryptedContent ivHex authTagHex : jsstring)
  : M jsstring :=
  try_catch
    (decrypt_try this encryptedContent ivHex authTagHex)
    (fun error =>
       logError (js "EncryptionService")
                (js "Decryption failed: " ++ message error) ;;;
       throw (Error (js "Failed to decrypt data - data may be corrupted or tampered"))).

Definition generateEncryptionKey : M jsstring :=
  key <- NodeCrypto.randomBytes 32 ;;
  ret (Hex.encode key).

End EncryptionService.


Definition EncryptionError : exn := Error (js "Failed to encrypt data").

Definition DecryptionError : exn :=
  Error (js "Failed to decrypt data - data may be corrupted or tampered").

(** ** controllers/secretsController.ts: the read handlers *)
Module SecretsController.

Record SecretRecord := mkRecord {
  id : jsstring;
  name : option jsstring;          (* the column may be NULL *)
  encrypted_content : jsstring;
  iv : jsstring;
  auth_tag : jsstring;
  created_at : jsstring;
  updated_at : jsstring
}.

(** The fields [id] and [name] carry the prefix [r_] here: the record shares
    its module with [SecretRecord]. *)
Record SecretResponse := mkSecret {
  r_id : jsstring;
  r_name : jsstring;
  content : jsstring;
  createdAt : jsstring;
  updatedAt : jsstring
}.

(** What [await supabaseClient.from('secrets')...] resolves to. *)
Record QueryResult (A : Type) := mkQuery {
  data : option A;
  error : option jsstring           (* [error.message] *)
}.
Arguments mkQuery {A}.
Arguments data {A}.
Arguments error {A}.

Inductive Body :=
| SuccessList (items : list SecretResponse)   (* { success: true, data: [...] } *)
| SuccessItem (item : SecretResponse)         (* { success: true, data: {...} } *)
| Failure (error : jsstring).                 (* { success: false, error } *)

Record Response := mkResponse { status : nat; body : Body }.

(** [secret.name || 'Untitled Secret'] *)
Definition name_or_default (n : option jsstring) : jsstring :=
  match n with
  | None | Some [] => js "Untitled Secret"
  | Some n' => n'
  end.

Fixpoint mapM {A B} (f : A -> M B) (xs : list A) : M (list B) :=
  match xs with
  | [] => ret []
  | x :: r => y <- f x ;; ys <- mapM f r ;; ret (y :: ys)
  end.

(** The callback of [(secrets || []).map(...)] in [getAllSecrets]. *)
Definition decrypt_for_list (svc : EncryptionService.t) (secret : SecretRecord)
  : M SecretResponse :=
  try_catch
    (decryptedContent <- EncryptionService.decrypt svc
        (encrypted_content secret) (iv secret) (auth_tag secret) ;;
     ret (mkSecret (id secret) (name_or_default (name secret))
                   decryptedContent (created_at secret) (updated_at secret)))
    (fun decryptError =>
       logError (js "SecretsController")
                (js "Error decrypting secret " ++ id secret ++ js ": "
                 ++ message decryptError) ;;;
       ret (mkSecret (id secret) (name_or_default (name secret))
                     (js "[Decryption Error]")
                     (created_at secret) (updated_at secret))).

Definition getAllSecrets (svc : EncryptionService.t) (userId : jsstring)
    (query : QueryResult (list SecretRecord)) : M Response :=
  try_catch
    (logDebug (js "SecretsController")
              (js "Fetching secrets for user: " ++ userId) ;;;
     match error query with
     | Some msg =>
         logError (js "SecretsController")
                  (js "Error fetching secrets: " ++ msg) ;;;
         ret (mkResponse 500 (Failure (js "Failed to fetch secrets")))
     | None =>
         let secrets := match data query with Some l => l | None => [] end in
         decryptedSecrets <- mapM (decrypt_for_list svc) secrets ;;
         logInfo (js "SecretsController")
                 (js "Retrieved " ++ NodeCrypto.decimal (length decryptedSecrets)
                  ++ js " secrets for user " ++ userId) ;;;
         ret (mkResponse 200 (SuccessList decryptedSecrets))
     end)
    (fun error =>
       logError (js "SecretsController")
                (js "Error in getAllSecrets: " ++ message error) ;;;
       ret (mkResponse 500 (Failure (js "Internal server error")))).

Definition getSecretById (svc : EncryptionService.t) (userId secretId : jsstring)
    (query : QueryResult SecretRecord) : M Response :=
  try_catch
    (logDebug (js "SecretsController")
              (js "Fetching secret " ++ secretId ++ js " for user " ++ userId) ;;;
     match error query, data query with
     | None, Some secret =>
         decryptedContent <- EncryptionService.decrypt svc
            (encrypted_content secret) (iv secret) (auth_tag secret) ;;
         ret (mkResponse 200 (SuccessItem
                (mkSecret (id secret) (name_or_default (name secret))
                          decryptedContent
                          (created_at secret) (updated_at secret))))
     | _, _ =>
         logWarn (js "SecretsController")
                 (js "Secret " ++ secretId ++ js " not found for user " ++ userId) ;;;
         ret (mkResponse 404 (Failure (js "Secret not found")))
     end)
    (fun error =>
       logError (js "SecretsController")
                (js "Error in getSecretById: " ++ message error) ;;;
       ret (mkResponse 500 (Failure (js "Internal server error")))).

End SecretsController.

Local Close Scope monad_scope.

(** ** Auxiliary definitions for the statements below *)

(** The runtime calls of the [try] block of [decrypt], which do not touch
    the world. *)
Definition decrypt_core (key : Buffer) (encryptedContent ivHex authTagHex : jsstring)
  : exn + jsstring :=
  match NodeCrypto.createDecipheriv EncryptionService.algorithm key
                                    (Hex.decode ivHex) with
  | inl e => inl e
  | inr d0 =>
      match NodeCrypto.setAuthTag d0 (Hex.decode authTagHex) with
      | inl e => inl e
      | inr d1 =>
          match NodeCrypto.decipher_update d1 encryptedContent with
          | inl e => inl e
          | inr (d2, decrypted) =>
              match NodeCrypto.decipher_final d2 with
              | inl e => inl e
              | inr (_, last) => inr (decrypted ++ last)
              end
          end
      end
  end.

Definition write_log (l : LogEntry) (w : World) : World :=
  mkWorld (ENCRYPTION_KEY w) (development w) (console w ++ [l]) (entropy w).

(** The checks an envelope passes before any text is returned. *)
Definition accepted (key : Buffer) (c n t : jsstring) : bool :=
  (length key =? 32)%nat
  && negb ((length (Hex.decode n) =? 0)%nat || (128 <? length (Hex.decode n))%nat)
  && NodeCrypto.valid_gcm_tag_length (length (Hex.decode t))
  && Nat.even (length c)
  && NodeCrypto.buffer_eqb
       (firstn (length (Hex.decode t))
               (GCM.tag key (Hex.decode n) (Hex.decode c)))
       (Hex.decode t).

(** The world after [crypto.randomBytes(n)]. *)
Definition consume_entropy (n : nat) (w : World) : World :=
  mkWorld (ENCRYPTION_KEY w) (development w) (console w)
          (fun i => entropy w (i + n)%nat).

(** The nonce the next call of [encrypt] will draw in world [w]. *)
Definition next_nonce (w : World) : Buffer :=
  map (entropy w) (seq 0 EncryptionService.ivLength).

(** The envelope of a plaintext under a key and a nonce. *)
Definition envelope (key nonce : Buffer) (plaintext : jsstring)
  : EncryptionService.EncryptionResult :=
  let c := GCM.encrypt_data key nonce (Utf8.encode plaintext) in
  EncryptionService.mkResult (Hex.encode c) (Hex.encode nonce)
                             (Hex.encode (GCM.tag key nonce c)).


(** A running process for the examples: the all-zero key of 64 zero digits
    and an entropy source that counts upwards. *)
Definition zero_key_hex : jsstring :=
  js "0000000000000000000000000000000000000000000000000000000000000000".

Definition sample_world : World :=
  mkWorld (Some zero_key_hex) false [] (fun i => byte_of_N (N.of_nat i)).

Definition sample_service : EncryptionService.t :=
  EncryptionService.mk (Hex.decode zero_key_hex).

(** A key string that is not valid hexadecimal: 64 zero digits followed by
    two characters that are not digits. *)
Definition padded_key_hex : jsstring := zero_key_hex ++ js "zz".

(** Why an envelope is turned down: the nonce decodes to nothing or to
    more than 128 octets, the tag has a length GCM does not admit, the
    ciphertext string has odd length, or the recomputed tag differs from
    the one supplied. *)
Definition malformed_or_forged (key : Buffer) (c n t : jsstring) : Prop :=
  Hex.decode n = [] \/
  (128 < length (Hex.decode n))%nat \/
  NodeCrypto.valid_gcm_tag_length (length (Hex.decode t)) = false \/
  Nat.odd (length c) = true \/
  firstn (length (Hex.decode t)) (GCM.tag key (Hex.decode n) (Hex.decode c))
    <> Hex.decode t.

(** What [getAllSecrets] answers for one stored record. *)
Definition list_item (svc : EncryptionService.t)
    (secret : SecretsController.SecretRecord) : SecretsController.SecretResponse :=
  SecretsController.mkSecret
    (SecretsController.id secret)
    (SecretsController.name_or_default (SecretsController.name secret))
    (match decrypt_core (EncryptionService.encryptionKey svc)
             (SecretsController.encrypted_content secret)
             (SecretsController.iv secret) (SecretsController.auth_tag secret) with
     | inr s => s
     | inl _ => js "[Decryption Error]"
     end)
    (SecretsController.created_at secret) (SecretsController.updated_at secret).

(** The stored record of an envelope. *)
Definition stored (id : jsstring) (name : option jsstring)
    (env : EncryptionService.EncryptionResult) (created updated : jsstring)
  : SecretsController.SecretRecord :=
  SecretsController.mkRecord id name
    (EncryptionService.encryptedContent env) (EncryptionService.iv env)
    (EncryptionService.authTag env) created updated.

(** A stored record whose tag was damaged: the envelope of "s3cr3t" under
    the all-zero key with an all-zero tag. *)
Definition damaged_record : SecretsController.SecretRecord :=
  let env := envelope (Hex.decode zero_key_hex) (next_nonce sample_world) (js "s3cr3t") in
  SecretsController.mkRecord (js "7") (Some (js "wifi"))
    (EncryptionService.encryptedContent env) (EncryptionService.iv env)
    (js "00000000000000000000000000000000")
    (js "2024-01-01") (js "2024-01-02").

(** Two processes that differ in their key only in the last octet, and draw
    the same nonce. *)
Definition other_key_hex : jsstring :=
  js "0000000000000000000000000000000000000000000000000000000000000001".

Definition shared_nonce : Buffer := hexbuf "000000000000000000000100001574ae".

Definition world_K1 : World :=
  mkWorld (Some zero_key_hex) false [] (fun i => nth i shared_nonce x00).

Definition world_K2 : World :=
  mkWorld (Some other_key_hex) false [] (fun i => nth i shared_nonce x00).

Definition service_K2 : EncryptionService.t :=
  EncryptionService.mk (Hex.decode other_key_hex).

Definition block (x : N) : Prop := x < 2 ^ 128.

(** Additivity over xor, on blocks. *)
Definition linear (f : N -> N) : Prop :=
  forall x y, block x -> block y -> f (N.lxor x y) = N.lxor (f x) (f y).

(** The one of the field: the polynomial 1, whose coefficient sits in the
    most significant bit. *)
Definition gone : N := 2 ^ 127.

Definition gsq (x : N) : N := GCM.gmul x x.

(** A linear map given by the images of the powers of two. *)
Fixpoint apply_rows (rows : list N) (i : N) (x : N) : N :=
  match rows with
  | [] => 0
  | r :: rs => N.lxor (if N.testbit x i then r else 0) (apply_rows rs (i + 1) x)
  end.

(** The certificate that the only idempotents are 0 and 1: a linear map
    [psi] with [psi (x * x + x) = x mod 2^127]. *)
Definition psi_table : list N :=
  [0x00000000000000000000000000000000; 0x04a2ade42a1db558927495c4d4e62fc1;
   0x35bd0e43ef6cf78dcef750ee63bd3171; 0x41d77801d619af2a38dab35b297373a6;
   0x36dc3b3404788e15d4cfd6f8f5447461; 0x7adc3b3404788e15d4cfd6f8f5447467;
   0x5f67891c31b7edb03c86875f90384d1c; 0x646cca29e3d6cc8fd093e2fc4c0f4ad5;
   0x51eae8be2fe60df61bf9191de1788d94; 0x36e717e02724b8e1d1527df73b8e8241;
   0x5f86cdbc744e28fe3430f49ddf071154; 0x2561da5c536a901fe562896ae4899333;
   0x099a6e1cca2f8641a0b0910804c90841; 0x2cfbb4409945165e45d21862e0409b32;
   0x00000d94d9da18080030c4db699e5dc0; 0x197d9b438cafcf2f8e88275824a90133;
   0x645919a4b35879f7d7a68d71cb5770d5; 0x7348a7e5645f93d076e747a9d181ec26;
   0x602105ae977251e64834e0c2dd2d5a94; 0x2c14dbb71e26fc964f314b9433eb3eb2;
   0x044eaa59bd8819a999287fa5ed58ad81; 0x77dcb1c60e3ad5c9e2190477682adba7;
   0x701c741cbd9fc8b06b94eadf79b8c426; 0x46f806225397f491bb49eab33e4cf467;
   0x79b07befedd921e9cd751ec18ebeebe7; 0x56f3167fe31302df9eb885b869165d55;
   0x6462e2cc93c28627d2d0526e0d66c2d5; 0x1a24eaaa541c8b0f9092b01169688933;
   0x4bf6a9a1f02e1f698fec4b1a74166be7; 0x21ce3a83c07744de74dad50f0d583b32;
   0x634efa836deeebf650dae654442b4894; 0x224d20acccef41ee67fd0ac2e3641972;
   0x4bf8b9d33b8f38198de17cdee54751e7; 0x698e6217d7fa8627ef6aa903c013fa95;
   0x457534e82f16f649aa2d862c91005ba7; 0x144558bb6c9dfcd7bc4c239cf48626f3;
   0x3cfddc25f2ae2df86391fd8d3387a7c0; 0x2bd77bb364af6b3fc733d8875e039333;
   0x26d44eb77ddd535ff0b1c738de72bb33; 0x6aef57603cdbfceff55228f556d54755;
   0x285aabc679b16ad7d6c2852abfdb1eb3; 0x038e6217d7f479d8109554569546afc0;
   0x79880aa666d696d9c926622882fff1e7; 0x312705524db61730583bcf844c342240;
   0x5c33b52f8947e9462158188b7248d294; 0x3bdc8ad604b36599e246fae899f68fc1;
   0x072ccff3fd3d186182e1ce9a41041041; 0x5252e8c1d3a8e3be0d2c5beb59e57554;
   0x489a0b11781e0c1196cc4fdebc394c27; 0x1af0929920b9589f9fb368dce89d2373;
   0x2f76850d57908a5e54a716d46cf0bb32; 0x3f46b4c41d7d395874f4e33b9d331780;
   0x7986f6afcfc951e9cb9188c1a5beebe7; 0x258e6f54bc4bf6f7ef54f70e70ef2ef3;
   0x55aabdbeec28a2078079924a4cd2f295; 0x229a33517c61d3ee69739a8be16c1972;
   0x049a065cd7758d5196f0e3578d383201; 0x428019a10caacb8824c8241264b2fba6;
   0x4622ba58b211bb21b69fb337b1785627; 0x5cea6fd5b105659e2d1ccaeb5d2c7d54;
   0x36e9eb0be64d6b99d3ec2e5e502bb781; 0x5ce7c3e3d68e47f62e5390ab45fe70d4;
   0x329f337db88e12004e8e904902080000; 0x48afd66e759a994991d0e977a9aa5ba7;
   0x04a2ade42a1db559927495c4d4e62fc1; 0x41d77801d619af2838dab35b297373a6;
   0x7adc3b3404788e11d4cfd6f8f5447467; 0x646cca29e3d6cc87d093e2fc4c0f4ad5;
   0x36e717e02724b8f1d1527df73b8e8241; 0x2561da5c536a903fe562896ae4899333;
   0x2cfbb4409945161e45d21862e0409b32; 0x197d9b438cafcfaf8e88275824a90133;
   0x7348a7e5645f92d076e747a9d181ec26; 0x2c14dbb71e26fe964f314b9433eb3eb2;
   0x77dcb1c60e3ad1c9e2190477682adba7; 0x46f806225397fc91bb49eab33e4cf467;
   0x56f3167fe31312df9eb885b869165d55; 0x1a24eaaa541cab0f9092b01169688933;
   0x21ce3a83c07704de74dad50f0d583b32; 0x224d20acccefc1ee67fd0ac2e3641972;
   0x698e6217d7fb8627ef6aa903c013fa95; 0x144558bb6c9ffcd7bc4c239cf48626f3;
   0x2bd77bb364ab6b3fc733d8875e039333; 0x6aef57603cd3fceff55228f556d54755;
   0x038e6217d7e479d8109554569546afc0; 0x312705524d961730583bcf844c342240;
   0x3bdc8ad604f36599e246fae899f68fc1; 0x5252e8c1d328e3be0d2c5beb59e57554;
   0x1af0929921b9589f9fb368dce89d2373; 0x3f46b4c41f7d395874f4e33b9d331780;
   0x258e6f54b84bf6f7ef54f70e70ef2ef3; 0x229a33517461d3ee69739a8be16c1972;
   0x428019a11caacb8824c8241264b2fba6; 0x5cea6fd59105659e2d1ccaeb5d2c7d54;
   0x5ce7c3e3968e47f62e5390ab45fe70d4; 0x48afd66ef59a994991d0e977a9aa5ba7;
   0x41d77800d619af2838dab35b297373a6; 0x646cca2be3d6cc87d093e2fc4c0f4ad5;
   0x2561da58536a903fe562896ae4899333; 0x197d9b4b8cafcfaf8e88275824a90133;
   0x2c14dba71e26fe964f314b9433eb3eb2; 0x46f806025397fc91bb49eab33e4cf467;
   0x1a24eaea541cab0f9092b01169688933; 0x224d202cccefc1ee67fd0ac2e3641972;
   0x144559bb6c9ffcd7bc4c239cf48626f3; 0x6aef55603cd3fceff55228f556d54755;
   0x312701524d961730583bcf844c342240; 0x5252e0c1d328e3be0d2c5beb59e57554;
   0x3f46a4c41f7d395874f4e33b9d331780; 0x229a13517461d3ee69739a8be16c1972;
   0x5cea2fd59105659e2d1ccaeb5d2c7d54; 0x48af566ef59a994991d0e977a9aa5ba7;
   0x646dca2be3d6cc87d093e2fc4c0f4ad5; 0x197f9b4b8cafcfaf8e88275824a90133;
   0x46fc06025397fc91bb49eab33e4cf467; 0x2245202cccefc1ee67fd0ac2e3641972;
   0x6aff55603cd3fceff55228f556d54755; 0x5272e0c1d328e3be0d2c5beb59e57554;
   0x22da13517461d3ee69739a8be16c1972; 0x482f566ef59a994991d0e977a9aa5ba7;
   0x187f9b4b8cafcfaf8e88275824a90133; 0x2045202cccefc1ee67fd0ac2e3641972;
   0x5672e0c1d328e3be0d2c5beb59e57554; 0x402f566ef59a994991d0e977a9aa5ba7;
   0x3045202cccefc1ee67fd0ac2e3641972; 0x602f566ef59a994991d0e977a9aa5ba7;
   0x202f566ef59a994991d0e977a9aa5ba7; 0x10d04d25f93556e69f58ce2f8d035a94].

Definition psi (x : N) : N := apply_rows psi_table 0 x.

(** [gnorm k a] is [a] to the power [2^k - 1]. *)
Fixpoint gnorm (k : nat) (a : N) : N :=
  match k with
  | O => gone
  | S k' => GCM.gmul (gsq (gnorm k' a)) a
  end.

(** The inverse of a non-zero block: [a] to the power [2^128 - 2]. *)
Definition ginv (a : N) : N := gsq (gnorm 127 a).

(** Multiplication by 9, 11, 13 and 14 in GF(2^8), for the inverse of
    MixColumns (section 5.3.3). *)
Definition mul9 (b : byte) : byte :=
  bxor (AES.xtime (AES.xtime (AES.xtime b))) b.

Definition mul11 (b : byte) : byte :=
  bxor (AES.xtime (AES.xtime (AES.xtime b))) (bxor (AES.xtime b) b).

Definition mul13 (b : byte) : byte :=
  bxor (AES.xtime (AES.xtime (AES.xtime b))) (bxor (AES.xtime (AES.xtime b)) b).

Definition mul14 (b : byte) : byte :=
  bxor (AES.xtime (AES.xtime (AES.xtime b)))
       (bxor (AES.xtime (AES.xtime b)) (AES.xtime b)).

Definition inv_mix_column (w : AES.word) : AES.word :=
  let '(a, b, c, d) := w in
  (bxor (mul14 a) (bxor (mul11 b) (bxor (mul13 c) (mul9 d))),
   bxor (mul9 a) (bxor (mul14 b) (bxor (mul11 c) (mul13 d))),
   bxor (mul13 a) (bxor (mul9 b) (bxor (mul14 c) (mul11 d))),
   bxor (mul11 a) (bxor (mul13 b) (bxor (mul9 c) (mul14 d)))).

Definition word_eqb (u v : AES.word) : bool :=
  let '(a, b, c, d) := u in
  let '(a', b', c', d') := v in
  Byte.eqb a a' && Byte.eqb b b' && Byte.eqb c c' && Byte.eqb d d'.

(** The inverse S-box: for every value, the octet the S-box maps to it,
    found by search and tabulated. *)
Definition inv_sbox_table : list byte :=
  Eval vm_compute in
    map (fun v =>
           match find (fun i => Byte.eqb (AES.sbox (byte_of_N (N.of_nat i)))
                                         (byte_of_N (N.of_nat v)))
                      (seq 0 256) with
           | Some i => byte_of_N (N.of_nat i)
           | None => x00
           end)
        (seq 0 256).

Definition inv_sbox (v : byte) : byte := nth (Byte.to_nat v) inv_sbox_table x00.

(** Flipping bit [i] of a buffer: bit [i mod 8] of octet [i / 8]. *)
Fixpoint flip_bit (i : nat) (bs : Buffer) : Buffer :=
  match bs with
  | [] => []
  | b :: r =>
      if (i <? 8)%nat then bxor b (byte_of_N (2 ^ N.of_nat i)) :: r
      else b :: flip_bit (i - 8) r
  end.

(** Two buffers that differ in exactly one octet. *)
Definition one_octet_apart (bs bs' : Buffer) : Prop :=
  exists pre b b' post,
    bs = pre ++ b :: post /\ bs' = pre ++ b' :: post /\ b <> b'.

(** Two buffers of the same length that agree up to the start of their last
    16-octet block and differ within it. *)
Definition differ_in_last_block (p p' : Buffer) : Prop :=
  exists pre t t',
    p = pre ++ t /\ p' = pre ++ t' /\
    (length pre mod 16 = 0)%nat /\
    length t = length t' /\ (length t <= 16)%nat /\ t <> t'.

Inductive EnvelopeField := Ciphertext | Nonce | AuthTag.

Definition field_octets (f : EnvelopeField)
    (env : EncryptionService.EncryptionResult) : Buffer :=
  match f with
  | Ciphertext => Hex.decode (EncryptionService.encryptedContent env)
  | Nonce => Hex.decode (EncryptionService.iv env)
  | AuthTag => Hex.decode (EncryptionService.authTag env)
  end.

(** The envelope with bit [i] of the octets of one field flipped, the
    field hex-encoded again. *)
Definition flip_field (f : EnvelopeField) (i : nat)
    (env : EncryptionService.EncryptionResult)
  : EncryptionService.EncryptionResult :=
  let flipped := Hex.encode (flip_bit i (field_octets f env)) in
  match f with
  | Ciphertext =>
      EncryptionService.mkResult flipped (EncryptionService.iv env)
                                 (EncryptionService.authTag env)
  | Nonce =>
      EncryptionService.mkResult (EncryptionService.encryptedContent env) flipped
                                 (EncryptionService.authTag env)
  | AuthTag =>
      EncryptionService.mkResult (EncryptionService.encryptedContent env)
                                 (EncryptionService.iv env) flipped
  end.

(** ** Further auxiliary definitions: strings *)

(** Every element is a UTF-16 code unit: the strings JavaScript can hold. *)
Definition code_units (s : jsstring) : bool :=
  forallb (fun c => c <? 0x10000) s.

(** [s.toWellFormed()]: every surrogate that is not part of a high/low pair
    is replaced by U+FFFD. *)
Fixpoint toWellFormed (s : jsstring) : jsstring :=
  match s with
  | [] => []
  | c :: r =>
      if is_high_surrogate c then
        match r with
        | d :: r' =>
            if is_low_surrogate d
            then c :: d :: toWellFormed r'
            else 0xFFFD :: toWellFormed r
        | [] => [0xFFFD]
        end
      else if is_low_surrogate c then 0xFFFD :: toWellFormed r
      else c :: toWellFormed r
  end.

(** The upper-case form of a hexadecimal digit; other units are kept. *)
Definition hex_upper (c : N) : N :=
  if (97 <=? c) && (c <=? 102) then c - 32 else c.

Local Open Scope monad_scope.

(** ** controllers/secretsController.ts: the write handlers *)
Module SecretsWrites.

(** The row [createSecret] hands to [insert]. *)
Record InsertRow := mkInsert {
  user_id : jsstring;
  name : jsstring;
  encrypted_content : jsstring;
  iv : jsstring;
  auth_tag : jsstring
}.

(** The object [updateSecret] hands to [update]; the name is present only
    when the request carried one.  The fields carry the prefix [u_]. *)
Record UpdateData := mkUpdate {
  u_encrypted_content : jsstring;
  u_iv : jsstring;
  u_auth_tag : jsstring;
  u_updated_at : jsstring;
  u_name : option jsstring
}.

(** What [.select('id, name, created_at, updated_at').single()] yields. *)
Record SavedRow := mkSaved {
  s_id : jsstring;
  s_name : option jsstring;        (* the column may be NULL *)
  s_created_at : jsstring;
  s_updated_at : jsstring
}.

(** The [data] of a 201 or 200 answer: the name is the one the database
    returned, the content the one the request carried. *)
Record SavedSecret := mkSavedSecret {
  id : jsstring;
  saved_name : option jsstring;
  content : jsstring;
  createdAt : jsstring;
  updatedAt : jsstring
}.

Inductive Body :=
| Saved (data : SavedSecret) (message : jsstring)   (* { success: true, data, message } *)
| Done (message : jsstring)                         (* { success: true, message } *)
| Failure (error : jsstring).                       (* { success: false, error } *)

Record Response := mkResponse { status : nat; body : Body }.

(** Reading a property of what may be [null]: a TypeError when it is. *)
Definition property_of {A} (x : option A) (property : jsstring) : M A :=
  match x with
  | Some a => ret a
  | None =>
      throw (Error (js "Cannot read properties of null (reading '"
                    ++ property ++ js "')"))
  end.

(** [insert] stands for the awaited query
    [supabaseClient.from('secrets').insert([row]).select(...).single()]. *)
Definition createSecret (svc : EncryptionService.t) (userId : jsstring)
    (name : option jsstring) (content : jsstring)
    (insert : InsertRow -> SecretsController.QueryResult SavedRow) : M Response :=
  try_catch
    (logDebug (js "SecretsController")
              (js "Creating new secret for user " ++ userId) ;;;
     env <- EncryptionService.encrypt svc content ;;
     let result :=
       insert (mkInsert userId (SecretsController.name_or_default name)
                        (EncryptionService.encryptedContent env)
                        (EncryptionService.iv env)
                        (EncryptionService.authTag env)) in
     match SecretsController.error result with
     | Some msg =>
         logError (js "SecretsController")
                  (js "Error creating secret: " ++ msg) ;;;
         ret (mkResponse 500 (Failure (js "Failed to create secret")))
     | None =>
         newSecret <- property_of (SecretsController.data result) (js "id") ;;
         logInfo (js "SecretsController")
                 (js "Secret created successfully: " ++ s_id newSecret) ;;;
         ret (mkResponse 201
                (Saved (mkSavedSecret (s_id newSecret) (s_name newSecret) content
                                      (s_created_at newSecret) (s_updated_at newSecret))
                       (js "Secret created successfully")))
     end)
    (fun error =>
       logError (js "SecretsController")
                (js "Error in createSecret: " ++ message error) ;;;
       ret (mkResponse 500 (Failure (js "Internal server error")))).

(** [existing] is what the query for the stored id resolved to, [now] what
    [new Date().toISOString()] returns, [update] the awaited query
    [supabaseClient.from('secrets').update(updateData)...single()]. *)
Definition updateSecret (svc : EncryptionService.t) (userId secretId : jsstring)
    (name : option jsstring) (content : jsstring)
    (existing : SecretsController.QueryResult jsstring) (now : jsstring)
    (update : UpdateData -> SecretsController.QueryResult SavedRow) : M Response :=
  try_catch
    (logDebug (js "SecretsController")
              (js "Updating secret " ++ secretId ++ js " for user " ++ userId) ;;;
     match SecretsController.error existing, SecretsController.data existing with
     | None, Some _ =>
         env <- EncryptionService.encrypt svc content ;;
         let updateData :=
           mkUpdate (EncryptionService.encryptedContent env)
                    (EncryptionService.iv env)
                    (EncryptionService.authTag env)
                    now
                    (match name with
                     | Some _ => Some (SecretsController.name_or_default name)
                     | None => None
                     end) in
         let result := update updateData in
         match SecretsController.error result with
         | Some msg =>
             logError (js "SecretsController")
                      (js "Error updating secret: " ++ msg) ;;;
             ret (mkResponse 500 (Failure (js "Failed to update secret")))
         | None =>
             logInfo (js "SecretsController")
                     (js "Secret updated successfully: " ++ secretId) ;;;
             updatedSecret <- property_of (SecretsController.data result) (js "id") ;;
             ret (mkResponse 200
                    (Saved (mkSavedSecret (s_id updatedSecret) (s_name updatedSecret)
                                          content (s_created_at updatedSecret)
                                          (s_updated_at updatedSecret))
                           (js "Secret updated successfully")))
         end
     | _, _ =>
         logWarn (js "SecretsController")
                 (js "Secret " ++ secretId ++ js " not found for user " ++ userId) ;;;
         ret (mkResponse 404 (Failure (js "Secret not found")))
     end)
    (fun error =>
       logError (js "SecretsController")
                (js "Error in updateSecret: " ++ message error) ;;;
       ret (mkResponse 500 (Failure (js "Internal server error")))).

(** [error] is the error of the awaited [delete()] query, if any. *)
Definition deleteSecret (userId secretId : jsstring) (error : option jsstring)
  : M Response :=
  try_catch
    (logDebug (js "SecretsController")
              (js "Deleting secret " ++ secretId ++ js " for user " ++ userId) ;;;
     match error with
     | Some msg =>
         logError (js "SecretsController")
                  (js "Error deleting secret: " ++ msg) ;;;
         ret (mkResponse 500 (Failure (js "Failed to delete secret")))
     | None =>
         logInfo (js "SecretsController")
                 (js "Secret deleted successfully: " ++ secretId) ;;;
         ret (mkResponse 200 (Done (js "Secret deleted successfully")))
     end)
    (fun error =>
       logError (js "SecretsController")
                (js "Error in deleteSecret: " ++ message error) ;;;
       ret (mkResponse 500 (Failure (js "Internal server error")))).

End SecretsWrites.

Local Close Scope monad_scope.

(** ** Further auxiliary definitions: the table of secrets *)

(** The row of an envelope, as [createSecret] builds it. *)
Definition row_of (userId : jsstring) (name : option jsstring)
    (env : EncryptionService.EncryptionResult) : SecretsWrites.InsertRow :=
  SecretsWrites.mkInsert userId (SecretsController.name_or_default name)
    (EncryptionService.encryptedContent env) (EncryptionService.iv env)
    (EncryptionService.authTag env).

(** The update object of an envelope, as [updateSecret] builds it. *)
Definition update_of (name : option jsstring)
    (env : EncryptionService.EncryptionResult) (now : jsstring)
  : SecretsWrites.UpdateData :=
  SecretsWrites.mkUpdate
    (EncryptionService.encryptedContent env) (EncryptionService.iv env)
    (EncryptionService.authTag env) now
    (match name with
     | Some _ => Some (SecretsController.name_or_default name)
     | None => None
     end).

(** The record a later read finds after [row] was inserted and the
    database gave it an id and its two dates. *)
Definition inserted_record (id created updated : jsstring)
    (row : SecretsWrites.InsertRow) : SecretsController.SecretRecord :=
  SecretsController.mkRecord id (Some (SecretsWrites.name row))
    (SecretsWrites.encrypted_content row) (SecretsWrites.iv row)
    (SecretsWrites.auth_tag row) created updated.

(** The record a later read finds after the columns of [u] were written
    over [old]. *)
Definition updated_record (u : SecretsWrites.UpdateData)
    (old : SecretsController.SecretRecord) : SecretsController.SecretRecord :=
  SecretsController.mkRecord (SecretsController.id old)
    (match SecretsWrites.u_name u with
     | Some n => Some n
     | None => SecretsController.name old
     end)
    (SecretsWrites.u_encrypted_content u) (SecretsWrites.u_iv u)
    (SecretsWrites.u_auth_tag u)
    (SecretsController.created_at old) (SecretsWrites.u_updated_at u).

Local Open Scope monad_scope.

(** ** middleware/auth.ts *)
Module AuthMiddleware.

(** [s.split(' ')]: the pieces between the spaces, at least one. *)
Fixpoint split_space (s : jsstring) : list jsstring :=
  match s with
  | [] => [[]]
  | c :: r =>
      if c =? 32 then [] :: split_space r
      else
        match split_space r with
        | p :: ps => (c :: p) :: ps
        | [] => [[c]]
        end
  end.

Definition extractBearerToken (authHeader : option jsstring) : option jsstring :=
  match authHeader with
  | None | Some [] => None
  | Some h =>
      match split_space h with
      | [scheme; token] =>
          if js_eqb scheme (js "Bearer") then Some token else None
      | _ => None
      end
  end.

(** The user object of Supabase Auth, the fields the middleware reads. *)
Record User := mkUser {
  id : jsstring;
  email : option jsstring;
  role : option jsstring
}.

(** What [supabase.auth.getUser(token)] resolves to. *)
Record UserResponse := mkUserResponse {
  user : option User;
  error : option jsstring           (* [error.message] *)
}.

(** [req.user]; the fields carry the prefix [a_]. *)
Record AuthUser := mkAuthUser {
  a_id : jsstring;
  a_email : jsstring;
  a_role : option jsstring
}.

(** What a middleware does with the request: it calls [next()], here with
    what it attached to the request, or it answers itself. *)
Inductive Outcome (A : Type) :=
| Next (attached : A)
| Respond (status : nat) (error : jsstring).
Arguments Next {A}.
Arguments Respond {A}.

(** [x || fallback] on a string that may be undefined. *)
Definition or_else (x : option jsstring) (fallback : jsstring) : jsstring :=
  match x with
  | None | Some [] => fallback
  | Some s => s
  end.

(** [createClient] is the outcome of [createClient(url, key)], which
    returns a client or throws; the client is given by its [auth.getUser]. *)
Definition authenticate (authHeader : option jsstring)
    (createClient : exn + (jsstring -> exn + UserResponse))
  : M (Outcome AuthUser) :=
  try_catch
    (match extractBearerToken authHeader with
     | None | Some [] =>
         logWarn (js "AuthMiddleware")
                 (js "Missing or invalid Authorization header") ;;;
         ret (Respond 401
                (js "Authentication required. Please provide a valid access token."))
     | Some token =>
         supabase <- lift createClient ;;
         response <- lift (supabase token) ;;
         match error response, user response with
         | None, Some user =>
             logDebug (js "AuthMiddleware")
                      (js "User authenticated: "
                       ++ match email user with
                          | Some e => e
                          | None => js "undefined"
                          end) ;;;
             ret (Next (mkAuthUser (id user) (or_else (email user) [])
                                   (role user)))
         | _, _ =>
             logWarn (js "AuthMiddleware")
                     (js "Token verification failed: "
                      ++ or_else (error response) (js "User not found")) ;;;
             ret (Respond 401 (js "Invalid or expired access token."))
         end
     end)
    (fun error =>
       logError (js "AuthMiddleware")
                (js "Authentication error: " ++ message error) ;;;
       ret (Respond 500 (js "Internal server error during authentication."))).

Definition requireAdmin (user : option AuthUser) : M (Outcome unit) :=
  match user with
  | None =>
      logError (js "AuthMiddleware")
               (js "requireAdmin called before authenticate middleware") ;;;
      ret (Respond 500 (js "Internal server error."))
  | Some u =>
      if match a_role u with
         | Some r => js_eqb r (js "admin")
         | None => false
         end
      then ret (Next tt)
      else
        logWarn (js "AuthMiddleware")
                (js "Access denied for user: " ++ a_email u) ;;;
        ret (Respond 403 (js "Access denied. Admin privileges required."))
  end.

End AuthMiddleware.

(** ** server.ts: the start of the server *)
Module Server.

Definition requiredEnvVars : list jsstring :=
  [js "SUPABASE_URL"; js "SUPABASE_SERVICE_KEY"; js "ENCRYPTION_KEY"].

(** [process.env[varName]].  Of the environment the process state holds
    ENCRYPTION_KEY; the two variables of Supabase are passed along. *)
Definition getenv (SUPABASE_URL SUPABASE_SERVICE_KEY : option jsstring)
    (varName : jsstring) : M (option jsstring) :=
  fun w =>
    (inr (if js_eqb varName (js "SUPABASE_URL") then SUPABASE_URL
          else if js_eqb varName (js "SUPABASE_SERVICE_KEY") then SUPABASE_SERVICE_KEY
          else if js_eqb varName (js "ENCRYPTION_KEY") then ENCRYPTION_KEY w
          else None),
     w).

(** [xs.filter(p)] *)
Fixpoint filterM {A} (p : A -> M bool) (xs : list A) : M (list A) :=
  match xs with
  | [] => ret []
  | x :: r =>
      keep <- p x ;;
      rest <- filterM p r ;;
      ret (if keep then x :: rest else rest)
  end.

(** [xs.join(sep)] *)
Fixpoint join (sep : jsstring) (xs : list jsstring) : jsstring :=
  match xs with
  | [] => []
  | [x] => x
  | x :: r => x ++ sep ++ join sep r
  end.

(** [app.listen] was called, or the process has exited with a code.  The
    callback of [app.listen], which logs three lines once the port is
    bound, runs after the call has returned and is not part of it. *)
Inductive Started := Listening | Exited (code : nat).

Definition startServer (SUPABASE_URL SUPABASE_SERVICE_KEY : option jsstring)
  : M Started :=
  try_catch
    (missingVars <-
       filterM (fun varName =>
                  value <- getenv SUPABASE_URL SUPABASE_SERVICE_KEY varName ;;
                  ret (EncryptionService.falsy value))
               requiredEnvVars ;;
     if (0 <? length missingVars)%nat then
       throw (Error (js "Missing required environment variables: "
                     ++ join (js ", ") missingVars))
     else ret Listening)
    (fun error =>
       logError (js "Server")
                (js "Failed to start server: " ++ message error) ;;;
       ret (Exited 1)).

End Server.

Local Close Scope monad_scope.

(** ** Further auxiliary definitions: the pending state of the decoder *)

(** With [k] continuation octets to come, in the range [lo..hi] for the
    next one, the code point under construction can only end as a Unicode
    scalar value. *)
Fixpoint completes (k : nat) (cp lo hi : N) : Prop :=
  match k with
  | O => cp < 0xD800 \/ (0xE000 <= cp /\ cp < 0x110000)
  | S k' =>
      forall b, lo <= b -> b <= hi ->
                completes k' (cp * 64 + b mod 64) 0x80 0xBF
  end.

Definition state_ok (st : Utf8.state) : Prop :=
  match Utf8.bytes_left st with
  | O => True
  | S k => completes (S k) (Utf8.code_point st) (Utf8.lower st) (Utf8.upper st)
  end.

(** ** frontend/lib/api.ts: the client of the API *)
Module Api.

(** The axios instance, by its configuration. *)
Record Client := mkClient {
  baseURL : jsstring;
  content_type : jsstring;          (* headers['Content-Type'] *)
  authorization : jsstring          (* headers.Authorization *)
}.

(** [access_token] is [session?.access_token] of the session that
    [supabase.auth.getSession()] resolved to. *)
Definition getAuthenticatedClient (API_URL : jsstring)
    (access_token : option jsstring) : exn + Client :=
  match access_token with
  | None | Some [] => inl (Error (js "No active session. Please log in."))
  | Some token =>
      inr (mkClient API_URL (js "application/json") (js "Bearer " ++ token))
  end.

End Api.

(** ** frontend/components/dashboard: the form and the row of a secret *)
Module SecretModal.

(** The code units [String.prototype.trim] removes: the white space and the
    line terminators of ECMAScript. *)
Definition is_white_space (c : N) : bool :=
  (c =? 0x09) || (c =? 0x0A) || (c =? 0x0B) || (c =? 0x0C) || (c =? 0x0D)
  || (c =? 0x20) || (c =? 0xA0) || (c =? 0x1680)
  || ((0x2000 <=? c) && (c <=? 0x200A))
  || (c =? 0x2028) || (c =? 0x2029) || (c =? 0x202F) || (c =? 0x205F)
  || (c =? 0x3000) || (c =? 0xFEFF).

Fixpoint trimStart (s : jsstring) : jsstring :=
  match s with
  | [] => []
  | c :: r => if is_white_space c then trimStart r else s
  end.

Definition trimEnd (s : jsstring) : jsstring := rev (trimStart (rev s)).

Definition trim (s : jsstring) : jsstring := trimEnd (trimStart s).

(** What the handlers do to the state of the component and to its
    callbacks, in order. *)
Inductive Effect :=
| SetError (error : option jsstring)
| SetIsSaving (saving : bool)
| SetContent (content : jsstring)
| OnSave (content : jsstring) (secretId : option jsstring)
| OnClose.

(** [isSaving] is the state as the render that made the handler saw it. *)
Definition handleClose (isSaving : bool) : list Effect :=
  if isSaving then [] else [SetContent []; SetError None; OnClose].

(** [content] and [isSaving] are the state as the render that made the
    handler saw it, [secretId] is [secret?.id], and [saved] is how the
    promise of [onSave] settled. *)
Definition handleSubmit (content : jsstring) (isSaving : bool)
    (secretId : option jsstring) (saved : exn + unit) : list Effect :=
  SetError None ::
  match trim content with
  | [] => [SetError (Some (js "Secret content cannot be empty"))]
  | _ :: _ =>
      if 10000 <? N.of_nat (length content) then
        [SetError (Some (js "Secret content is too long (max 10,000 characters)"))]
      else
        SetIsSaving true :: OnSave content secretId ::
        match saved with
        | inr _ => handleClose isSaving
        | inl err =>
            [SetError (Some (match message err with
                             | [] => js "Failed to save secret"
                             | m => m
                             end))]
        end
        ++ [SetIsSaving false]
  end.

End SecretModal.

Module SecretRow.

(** ['•'.repeat(Math.min(secret.content.length, 40))] *)
Definition getMaskedContent (content : jsstring) : jsstring :=
  repeat 0x2022 (Nat.min (length content) 40).

End SecretRow.

(** * Known answers for the embedded runtime *)

(** Known answer: FIPS 197, appendix C.3 (AES-256). *)
Example aes256_fips197_C3 :
  AES.encrypt_block (be_bytes 32 0x000102030405060708090a0b0c0d0e0f101112131415161718191a1b1c1d1e1f)
                    0x00112233445566778899aabbccddeeff
  = 0x8ea2b7ca516745bfeafc49904b496089.
Proof. vm_compute. reflexivity. Qed.

(** Known answers: test cases 13, 14 and 15 of the GCM specification
    (AES-256, 96-bit IV, no additional data). *)
Example gcm_test_case_13 :
  Hex.encode (GCM.tag (be_bytes 32 0) (be_bytes 12 0) [])
  = js "530f8afbc74536b9a963b4f1c4cb738b".
Proof. vm_compute. reflexivity. Qed.

Example gcm_test_case_14 :
  let key := be_bytes 32 0 in
  let iv := be_bytes 12 0 in
  let c := GCM.encrypt_data key iv (be_bytes 16 0) in
  Hex.encode c = js "cea7403d4d606b6e074ec5d3baf39d18" /\
  Hex.encode (GCM.tag key iv c) = js "d0d1c8a799996bf0265b98b5d48ab919".
Proof. vm_compute. split; reflexivity. Qed.

Example gcm_test_case_15 :
  let key := hexbuf "feffe9928665731c6d6a8f9467308308feffe9928665731c6d6a8f9467308308" in
  let iv := hexbuf "cafebabefacedbaddecaf888" in
  let p := hexbuf "d9313225f88406e5a55909c5aff5269a86a7a9531534f7da2e4c303d8a318a721c3c0c95956809532fcf0e2449a6b525b16aedf5aa0de657ba637b391aafd255" in
  let c := GCM.encrypt_data key iv p in
  Hex.encode c = js "522dc1f099567d07f47f37a32a84427d643a8cdcbfe5c0c97598a2bd2555d1aa8cb08e48590dbb3da7b08b1056828838c5f61e6393ba7a0abcc9f662898015ad" /\
  Hex.encode (GCM.tag key iv c) = js "b094dac5d93471bdec1a502270e3cc6c".
Proof. vm_compute. split; reflexivity. Qed.

(** A 128-bit IV, the length this service uses, goes through the GHASH
    branch of [J0]; the expected values are those of OpenSSL 3.0. *)
Example gcm_iv128_known_answer :
  let key := be_bytes 32 0x000102030405060708090a0b0c0d0e0f101112131415161718191a1b1c1d1e1f in
  let iv := be_bytes 16 0xa0a1a2a3a4a5a6a7a8a9aaabacadaeaf in
  let p := map (fun c => byte_of_N c) (js "hello, secrets store!") in
  let c := GCM.encrypt_data key iv p in
  Hex.encode c = js "42c64fd077e1ed05a6fd6dd49967ade3f62a311c5f" /\
  Hex.encode (GCM.tag key iv c) = js "078dadc7e3ef52ba9213066dcb0df857".
Proof. vm_compute. split; reflexivity. Qed.

Example utf8_encode_samples :
  Hex.encode (Utf8.encode [0x41; 0xE9; 0x20AC; 0xD83D; 0xDE00; 0xD800]) =
  js "41c3a9e282acf09f9880efbfbd".
Proof. vm_compute. reflexivity. Qed.

Example utf8_decode_samples :
  Utf8.decode (hexbuf "41c3a9e282acf09f9880") = [0x41; 0xE9; 0x20AC; 0xD83D; 0xDE00] /\
  Utf8.decode (hexbuf "c0afe280") = [0xFFFD; 0xFFFD; 0xFFFD] /\
  Utf8.decode (hexbuf "eda080") = [0xFFFD; 0xFFFD; 0xFFFD].
Proof. vm_compute. repeat split; reflexivity. Qed.

(** * Properties *)

(** ** Bytes and the hexadecimal encoding *)

Lemma byte_of_to_N (b : byte) : byte_of_N (Byte.to_N b) = b.
Proof.
  unfold byte_of_N.
  pose proof (Byte.to_N_bounded b) as Hb.
  rewrite N.mod_small by lia.
  now rewrite Byte.of_to_N.
Qed.

Lemma to_N_byte_of_N (n : N) : Byte.to_N (byte_of_N n) = n mod 256.
Proof.
  unfold byte_of_N.
  destruct (Byte.of_N (n mod 256)) as [b|] eqn:E.
  - now apply Byte.to_of_N.
  - apply Byte.of_N_None_iff in E.
    pose proof (N.mod_upper_bound n 256). lia.
Qed.

Lemma to_N_lt (b : byte) : Byte.to_N b < 256.
Proof. pose proof (Byte.to_N_bounded b). lia. Qed.

Lemma to_N_inj (a b : byte) : Byte.to_N a = Byte.to_N b -> a = b.
Proof.
  intros H. rewrite <- (byte_of_to_N a), <- (byte_of_to_N b). now rewrite H.
Qed.

Lemma lxor_lt_pow2 (n x y : N) : x < 2 ^ n -> y < 2 ^ n -> N.lxor x y < 2 ^ n.
Proof.
  intros Hx Hy.
  destruct (N.eq_dec (N.lxor x y) 0) as [->|Hn]; [lia|].
  apply N.log2_lt_pow2; [lia|].
  eapply N.le_lt_trans; [apply N.log2_lxor|].
  apply N.max_lub_lt.
  - destruct (N.eq_dec x 0) as [->|Hx0].
    + cbn. destruct (N.eq_dec n 0) as [->|]; [|lia].
      cbn in Hy. assert (y = 0) by lia. subst. now rewrite N.lxor_0_l in Hn.
    + apply N.log2_lt_pow2; [lia|]. exact Hx.
  - destruct (N.eq_dec y 0) as [->|Hy0].
    + cbn. destruct (N.eq_dec n 0) as [->|]; [|lia].
      cbn in Hx. assert (x = 0) by lia. subst. now rewrite N.lxor_0_l in Hn.
    + apply N.log2_lt_pow2; [lia|]. exact Hy.
Qed.

Lemma lxor_lt_256 (x y : N) : x < 256 -> y < 256 -> N.lxor x y < 256.
Proof. apply (lxor_lt_pow2 8). Qed.

Lemma to_N_bxor (a b : byte) :
  Byte.to_N (bxor a b) = N.lxor (Byte.to_N a) (Byte.to_N b).
Proof.
  unfold bxor. rewrite to_N_byte_of_N.
  apply N.mod_small, lxor_lt_256; apply to_N_lt.
Qed.

Lemma bxor_comm (a b : byte) : bxor a b = bxor b a.
Proof. apply to_N_inj. rewrite !to_N_bxor. apply N.lxor_comm. Qed.

Lemma bxor_assoc (a b c : byte) : bxor (bxor a b) c = bxor a (bxor b c).
Proof. apply to_N_inj. rewrite !to_N_bxor. apply N.lxor_assoc. Qed.

Lemma bxor_nilpotent (a : byte) : bxor a a = x00.
Proof. apply to_N_inj. rewrite to_N_bxor, N.lxor_nilpotent. reflexivity. Qed.

Lemma bxor_0_r (a : byte) : bxor a x00 = a.
Proof. apply to_N_inj. rewrite to_N_bxor. cbn. apply N.lxor_0_r. Qed.

Lemma bxor_0_l (a : byte) : bxor x00 a = a.
Proof. rewrite bxor_comm. apply bxor_0_r. Qed.

Lemma bxor_cancel_r (a k : byte) : bxor (bxor a k) k = a.
Proof. now rewrite bxor_assoc, bxor_nilpotent, bxor_0_r. Qed.

Lemma xor_bytes_length (xs ys : Buffer) :
  length (xor_bytes xs ys) = Nat.min (length xs) (length ys).
Proof.
  revert ys. induction xs as [|x xs IH]; intros [|y ys]; cbn; auto.
Qed.

Lemma xor_bytes_involutive (xs ks : Buffer) :
  (length xs <= length ks)%nat -> xor_bytes (xor_bytes xs ks) ks = xs.
Proof.
  revert ks. induction xs as [|x xs IH]; intros [|k ks] H; cbn in *; auto; try lia.
  rewrite bxor_cancel_r, IH by lia. reflexivity.
Qed.

Lemma digit_value_digit (n : N) :
  n < 16 -> Hex.digit_value (Hex.digit n) = Some n.
Proof.
  intros H. unfold Hex.digit_value, Hex.digit.
  destruct (N.ltb_spec n 10).
  - replace ((48 <=? 48 + n) && (48 + n <=? 57)) with true.
    + f_equal. lia.
    + symmetry. apply andb_true_iff. split; apply N.leb_le; lia.
  - replace ((48 <=? 87 + n) && (87 + n <=? 57)) with false.
    + replace ((97 <=? 87 + n) && (87 + n <=? 102)) with true.
      * f_equal. lia.
      * symmetry. apply andb_true_iff. split; apply N.leb_le; lia.
    + symmetry. apply andb_false_iff. right. apply N.leb_gt. lia.
Qed.

(** A code unit that is a hexadecimal digit is below 103. *)
Lemma digit_value_small (c d : N) :
  Hex.digit_value c = Some d -> c <= 102.
Proof.
  unfold Hex.digit_value.
  destruct ((48 <=? c) && (c <=? 57)) eqn:E1;
    [apply andb_true_iff in E1; destruct E1 as [_ E1];
     apply N.leb_le in E1; lia|].
  destruct ((97 <=? c) && (c <=? 102)) eqn:E2;
    [apply andb_true_iff in E2; destruct E2 as [_ E2];
     apply N.leb_le in E2; lia|].
  destruct ((65 <=? c) && (c <=? 70)) eqn:E3;
    [apply andb_true_iff in E3; destruct E3 as [_ E3];
     apply N.leb_le in E3; lia|].
  discriminate.
Qed.

(** The decoder reads a hexadecimal digit as that digit. *)
Lemma digit_value_unhex (c d : N) :
  Hex.digit_value c = Some d -> Hex.unhex c = Some d.
Proof.
  intros H. unfold Hex.unhex.
  rewrite N.mod_small; [exact H|].
  apply digit_value_small in H. lia.
Qed.

Lemma unhex_digit (n : N) : n < 16 -> Hex.unhex (Hex.digit n) = Some n.
Proof.
  intros H. now apply digit_value_unhex, digit_value_digit.
Qed.

Lemma hex_decode_encode_app (bs : Buffer) (rest : jsstring) :
  Hex.decode (Hex.encode bs ++ rest) = bs ++ Hex.decode rest.
Proof.
  induction bs as [|b bs IH]; [reflexivity|].
  cbn [Hex.encode Hex.encode_byte app Hex.decode].
  pose proof (to_N_lt b) as Hb.
  rewrite !unhex_digit.
  - rewrite IH. f_equal.
    rewrite <- (byte_of_to_N b) at 3. f_equal.
    rewrite (N.div_mod' (Byte.to_N b) 16) at 3. reflexivity.
  - apply N.mod_upper_bound. lia.
  - apply N.Div0.div_lt_upper_bound. lia.
Qed.

Lemma hex_decode_encode (bs : Buffer) : Hex.decode (Hex.encode bs) = bs.
Proof.
  rewrite <- (app_nil_r (Hex.encode bs)), hex_decode_encode_app.
  cbn. apply app_nil_r.
Qed.

Lemma hex_encode_length (bs : Buffer) :
  length (Hex.encode bs) = (2 * length bs)%nat.
Proof. induction bs as [|b bs IH]; cbn in *; lia. Qed.

Lemma hex_encode_valid (bs : Buffer) : Hex.valid (Hex.encode bs) = true.
Proof.
  induction bs as [|b bs IH]; [reflexivity|].
  cbn [Hex.encode Hex.encode_byte app Hex.valid].
  pose proof (to_N_lt b) as Hb.
  rewrite !digit_value_digit; auto.
  - apply N.mod_upper_bound. lia.
  - apply N.Div0.div_lt_upper_bound. lia.
Qed.

(** ** UTF-8: decoding undoes encoding on well-formed text *)

Ltac Zify.zify_post_hook ::= Z.to_euclidean_division_equations.

Lemma to_N_byte_small (n : N) : n < 256 -> Byte.to_N (byte_of_N n) = n.
Proof. intros. rewrite to_N_byte_of_N. now apply N.mod_small. Qed.

(** Decide every comparison in the goal, closing the absurd branches. *)
Ltac cmp :=
  repeat match goal with
  | |- context [?a <? ?b] => destruct (N.ltb_spec a b); try lia
  | |- context [?a <=? ?b] => destruct (N.leb_spec a b); try lia
  | |- context [?a =? ?b] => destruct (N.eqb_spec a b); try lia
  end; cbn [andb orb negb].

(** Evaluate every comparison in the goal to the value [lia] finds for it. *)
Ltac eval_cmp :=
  repeat match goal with
  | |- context [?a <? ?b] =>
      first [ replace (a <? b) with true by (symmetry; apply N.ltb_lt; lia)
            | replace (a <? b) with false by (symmetry; apply N.ltb_ge; lia) ]
  | |- context [?a <=? ?b] =>
      first [ replace (a <=? b) with true by (symmetry; apply N.leb_le; lia)
            | replace (a <=? b) with false by (symmetry; apply N.leb_gt; lia) ]
  | |- context [?a =? ?b] =>
      first [ replace (a =? b) with true by (symmetry; apply N.eqb_eq; lia)
            | replace (a =? b) with false by (symmetry; apply N.eqb_neq; lia)
            | destruct (N.eqb_spec a b) ]
  end; cbn [andb orb negb].

Ltac utf8_step :=
  unfold Utf8.step at 1;
  cbn [Utf8.bytes_left Utf8.lower Utf8.upper Utf8.code_point Utf8.initial];
  try unfold Utf8.start; eval_cmp.

Definition scalar_value (cp : N) : Prop :=
  cp < 0xD800 \/ (0xE000 <= cp /\ cp < 0x110000).

Lemma utf8_write_code_point (cp : N) (rest : Buffer) :
  scalar_value cp ->
  Utf8.write Utf8.initial (Utf8.encode_code_point cp ++ rest) =
  let '(o, st) := Utf8.write Utf8.initial rest in (Utf8.emit cp ++ o, st).
Proof.
  intros Hcp. unfold scalar_value in Hcp. unfold Utf8.encode_code_point.
  destruct (N.ltb_spec cp 0x80); [|destruct (N.ltb_spec cp 0x800);
    [|destruct (N.ltb_spec cp 0x10000)]];
    cbn [app Utf8.write]; rewrite !to_N_byte_small by lia.
  - utf8_step. unfold Utf8.emit. cmp.
    destruct (Utf8.write Utf8.initial rest). reflexivity.
  - utf8_step. utf8_step.
    match goal with |- context [Utf8.emit ?X] => replace X with cp by lia end.
    now destruct (Utf8.write Utf8.initial rest).
  - utf8_step; utf8_step; utf8_step;
      match goal with |- context [Utf8.emit ?X] => replace X with cp by lia end;
      now destruct (Utf8.write Utf8.initial rest).
  - utf8_step; utf8_step; utf8_step; utf8_step;
      match goal with |- context [Utf8.emit ?X] => replace X with cp by lia end;
      now destruct (Utf8.write Utf8.initial rest).
Qed.

Lemma emit_pair (hi lo : N) :
  is_high_surrogate hi = true -> is_low_surrogate lo = true ->
  scalar_value (Utf8.pair_code_point hi lo) /\
  Utf8.emit (Utf8.pair_code_point hi lo) = [hi; lo].
Proof.
  unfold is_high_surrogate, is_low_surrogate, Utf8.pair_code_point, scalar_value.
  intros [H1 H2]%andb_true_iff [H3 H4]%andb_true_iff.
  apply N.leb_le in H1, H2, H3, H4.
  split; [lia|]. unfold Utf8.emit. cmp. f_equal; [|f_equal]; lia.
Qed.

Lemma emit_unit (c : N) :
  is_high_surrogate c = false -> is_low_surrogate c = false -> c < 0x10000 ->
  scalar_value c /\ Utf8.emit c = [c].
Proof.
  unfold is_high_surrogate, is_low_surrogate, scalar_value, Utf8.emit.
  intros H1 H2 H3. split.
  - revert H1 H2. cmp; intros; try discriminate; lia.
  - cmp. reflexivity.
Qed.

Lemma utf8_write_encode_bounded (n : nat) (s : jsstring) (rest : Buffer) :
  (length s <= n)%nat -> well_formed s = true ->
  Utf8.write Utf8.initial (Utf8.encode s ++ rest) =
  let '(o, st) := Utf8.write Utf8.initial rest in (s ++ o, st).
Proof.
  revert s. induction n as [|n IH]; intros s Hlen Hwf.
  - destruct s; [|cbn in Hlen; lia].
    cbn. now destruct (Utf8.write Utf8.initial rest).
  - destruct s as [|c r].
    { cbn. now destruct (Utf8.write Utf8.initial rest). }
    cbn [well_formed Utf8.encode] in *.
    destruct (is_high_surrogate c) eqn:Hhi.
    + destruct r as [|d r']; [discriminate|].
      apply andb_true_iff in Hwf as [Hlo Hwf]. rewrite Hlo.
      destruct (emit_pair c d Hhi Hlo) as [Hsv Hemit].
      rewrite <- app_assoc, utf8_write_code_point by exact Hsv.
      rewrite IH by (cbn in Hlen; auto; lia).
      destruct (Utf8.write Utf8.initial rest). now rewrite Hemit.
    + destruct (is_low_surrogate c) eqn:Hlo; [discriminate|].
      apply andb_true_iff in Hwf as [Hc Hwf]. apply N.ltb_lt in Hc.
      destruct (emit_unit c Hhi Hlo Hc) as [Hsv Hemit].
      rewrite <- app_assoc, utf8_write_code_point by exact Hsv.
      rewrite IH by (cbn in Hlen; auto; lia).
      destruct (Utf8.write Utf8.initial rest). now rewrite Hemit.
Qed.

Lemma utf8_write_encode (s : jsstring) :
  well_formed s = true ->
  Utf8.write Utf8.initial (Utf8.encode s) = (s, Utf8.initial).
Proof.
  intros Hwf.
  rewrite <- (app_nil_r (Utf8.encode s)).
  rewrite (utf8_write_encode_bounded (length s)) by auto.
  cbn. now rewrite app_nil_r.
Qed.

Lemma utf8_decode_encode (s : jsstring) :
  well_formed s = true -> Utf8.decode (Utf8.encode s) = s.
Proof.
  intros Hwf. unfold Utf8.decode. rewrite utf8_write_encode by exact Hwf.
  cbn. apply app_nil_r.
Qed.

(** ** GCM: lengths and the counter-mode involution *)

Lemma be_bytes_length (n : nat) (x : N) : length (be_bytes n x) = n.
Proof.
  revert x. induction n as [|n IH]; intros x; cbn; [reflexivity|].
  rewrite length_app, IH. cbn. lia.
Qed.

Lemma keystream_length (n : nat) (key : Buffer) (ctr : N) :
  length (GCM.keystream n key ctr) = (16 * n)%nat.
Proof.
  unfold GCM.keystream. revert ctr.
  induction n as [|n IH]; intros ctr; [reflexivity|].
  cbn [GCM.counters flat_map]. rewrite length_app, be_bytes_length, IH. lia.
Qed.

Lemma gctr_length (key : Buffer) (icb : N) (data : Buffer) :
  length (GCM.gctr key icb data) = length data.
Proof.
  unfold GCM.gctr. rewrite xor_bytes_length, keystream_length.
  pose proof (Nat.div_mod_eq (length data + 15) 16).
  pose proof (Nat.mod_upper_bound (length data + 15) 16). lia.
Qed.

Lemma gctr_involutive (key : Buffer) (icb : N) (data : Buffer) :
  GCM.gctr key icb (GCM.gctr key icb data) = data.
Proof.
  unfold GCM.gctr at 1. rewrite gctr_length. unfold GCM.gctr.
  apply xor_bytes_involutive. rewrite keystream_length.
  pose proof (Nat.div_mod_eq (length data + 15) 16).
  pose proof (Nat.mod_upper_bound (length data + 15) 16). lia.
Qed.

Lemma gcm_decrypt_encrypt (key iv p : Buffer) :
  GCM.decrypt_data key iv (GCM.encrypt_data key iv p) = p.
Proof. apply gctr_involutive. Qed.

Lemma gcm_encrypt_length (key iv p : Buffer) :
  length (GCM.encrypt_data key iv p) = length p.
Proof. apply gctr_length. Qed.

Lemma gcm_tag_length (key iv c : Buffer) : length (GCM.tag key iv c) = 16%nat.
Proof. apply be_bytes_length. Qed.

Lemma buffer_eqb_eq (a b : Buffer) : NodeCrypto.buffer_eqb a b = true <-> a = b.
Proof.
  revert b. induction a as [|x a IH]; intros [|y b]; cbn; split;
    try discriminate; auto.
  - intros [Hxy Hab]%andb_true_iff.
    apply Byte.byte_dec_bl in Hxy. apply IH in Hab. congruence.
  - intros [= -> ->]. apply andb_true_iff. split.
    + now apply Byte.byte_dec_lb.
    + now apply IH.
Qed.

Lemma js_eqb_refl (s : jsstring) : js_eqb s s = true.
Proof. induction s as [|c s IH]; cbn; [reflexivity|]. now rewrite N.eqb_refl. Qed.

(** ** The service as pure functions of the key and the arguments *)

Lemma decrypt_run (svc : EncryptionService.t) (c n t : jsstring) (w : World) :
  EncryptionService.decrypt svc c n t w =
  match decrypt_core (EncryptionService.encryptionKey svc) c n t with
  | inr s =>
      (inr s, write_log (mkLog INFO (js "EncryptionService")
                               (js "Data decrypted successfully")) w)
  | inl e =>
      (inl DecryptionError,
       write_log (mkLog ERROR (js "EncryptionService")
                        (js "Decryption failed: " ++ message e)) w)
  end.
Proof.
  unfold EncryptionService.decrypt, EncryptionService.decrypt_try, decrypt_core,
    try_catch, bind, lift.
  destruct (NodeCrypto.createDecipheriv _ _ _) as [e|d0]; [reflexivity|].
  destruct (NodeCrypto.setAuthTag _ _) as [e|d1]; [reflexivity|].
  destruct (NodeCrypto.decipher_update _ _) as [e|[d2 s1]]; [reflexivity|].
  destruct (NodeCrypto.decipher_final _) as [e|[d3 s2]]; reflexivity.
Qed.

Lemma decrypt_core_accepted (key : Buffer) (c n t : jsstring) :
  accepted key c n t = true ->
  decrypt_core key c n t =
  inr (Utf8.decode (GCM.decrypt_data key (Hex.decode n) (Hex.decode c))).
Proof.
  unfold accepted. intros H.
  repeat (apply andb_true_iff in H as [H ?]).
  unfold decrypt_core, NodeCrypto.createDecipheriv, NodeCrypto.check_cipher_args.
  unfold EncryptionService.algorithm. rewrite js_eqb_refl. cbn [negb].
  rewrite H. cbn [negb].
  destruct ((length (Hex.decode n) =? 0)%nat || (128 <? length (Hex.decode n))%nat);
    [discriminate|].
  unfold NodeCrypto.setAuthTag. cbn [NodeCrypto.d_tag NodeCrypto.d_final].
  match goal with Hv : NodeCrypto.valid_gcm_tag_length _ = true |- _ => rewrite Hv end.
  unfold NodeCrypto.decipher_update.
  cbn [NodeCrypto.d_final NodeCrypto.d_input NodeCrypto.d_key NodeCrypto.d_iv
       NodeCrypto.d_utf8 NodeCrypto.d_tag length app skipn].
  rewrite <- Nat.negb_even.
  match goal with He : Nat.even _ = true |- _ => rewrite He end. cbn [negb].
  unfold Utf8.decode.
  destruct (Utf8.write Utf8.initial _) as [text st].
  unfold NodeCrypto.decipher_final.
  cbn [NodeCrypto.d_final NodeCrypto.d_input NodeCrypto.d_key NodeCrypto.d_iv
       NodeCrypto.d_utf8 NodeCrypto.d_tag].
  match goal with Ht : NodeCrypto.buffer_eqb _ _ = true |- _ => rewrite Ht end.
  reflexivity.
Qed.

Lemma decrypt_core_rejected (key : Buffer) (c n t : jsstring) :
  accepted key c n t = false -> exists e, decrypt_core key c n t = inl e.
Proof.
  unfold accepted. intros H.
  unfold decrypt_core, NodeCrypto.createDecipheriv, NodeCrypto.check_cipher_args.
  unfold EncryptionService.algorithm. rewrite js_eqb_refl. cbn [negb].
  destruct (length key =? 32)%nat; cbn [negb andb] in *; [|eauto].
  destruct ((length (Hex.decode n) =? 0)%nat || (128 <? length (Hex.decode n))%nat);
    cbn [negb andb] in *; [eauto|].
  unfold NodeCrypto.setAuthTag. cbn [NodeCrypto.d_tag NodeCrypto.d_final].
  destruct (NodeCrypto.valid_gcm_tag_length _); cbn [andb] in *; [|eauto].
  unfold NodeCrypto.decipher_update.
  cbn [NodeCrypto.d_final NodeCrypto.d_input NodeCrypto.d_key NodeCrypto.d_iv
       NodeCrypto.d_utf8 NodeCrypto.d_tag length app skipn].
  rewrite <- Nat.negb_even.
  destruct (Nat.even (length c)); cbn [negb andb] in *; [|eauto].
  destruct (Utf8.write Utf8.initial _) as [text st].
  unfold NodeCrypto.decipher_final.
  cbn [NodeCrypto.d_final NodeCrypto.d_input NodeCrypto.d_key NodeCrypto.d_iv
       NodeCrypto.d_utf8 NodeCrypto.d_tag].
  rewrite H. eauto.
Qed.

Lemma next_nonce_length (w : World) : length (next_nonce w) = 16%nat.
Proof. unfold next_nonce. now rewrite length_map, length_seq. Qed.

Lemma encrypt_try_run (svc : EncryptionService.t) (s : jsstring) (w : World) :
  length (EncryptionService.encryptionKey svc) = 32%nat ->
  EncryptionService.encrypt_try svc s w =
  (inr (envelope (EncryptionService.encryptionKey svc) (next_nonce w) s),
   write_log (mkLog INFO (js "EncryptionService") (js "Data encrypted successfully"))
             (consume_entropy 16 w)).
Proof.
  intros Hk.
  unfold EncryptionService.encrypt_try, bind, lift, NodeCrypto.randomBytes.
  fold (next_nonce w).
  unfold NodeCrypto.createCipheriv, NodeCrypto.check_cipher_args.
  unfold EncryptionService.algorithm. rewrite js_eqb_refl. cbn [negb].
  rewrite Hk, next_nonce_length.
  change ((16 =? 0)%nat || (128 <? 16)%nat) with false. cbn [Nat.eqb negb].
  unfold NodeCrypto.cipher_update.
  cbn [NodeCrypto.c_final NodeCrypto.c_input NodeCrypto.c_key NodeCrypto.c_iv
       app length skipn].
  unfold NodeCrypto.cipher_final.
  cbn [NodeCrypto.c_final NodeCrypto.c_input NodeCrypto.c_key NodeCrypto.c_iv].
  unfold NodeCrypto.getAuthTag.
  cbn [NodeCrypto.c_final NodeCrypto.c_input NodeCrypto.c_key NodeCrypto.c_iv].
  unfold envelope. rewrite app_nil_r. reflexivity.
Qed.

Lemma encrypt_run (svc : EncryptionService.t) (s : jsstring) (w : World) :
  length (EncryptionService.encryptionKey svc) = 32%nat ->
  EncryptionService.encrypt svc s w =
  (inr (envelope (EncryptionService.encryptionKey svc) (next_nonce w) s),
   write_log (mkLog INFO (js "EncryptionService") (js "Data encrypted successfully"))
             (consume_entropy 16 w)).
Proof.
  intros Hk. unfold EncryptionService.encrypt, try_catch.
  now rewrite encrypt_try_run.
Qed.

(** *** Initialization *)

Lemma getEncryptionKey_run (w : World) :
  EncryptionService.getEncryptionKey w =
  match ENCRYPTION_KEY w with
  | None | Some [] =>
      (inl (Error EncryptionService.key_not_set),
       write_log (mkLog ERROR (js "EncryptionService") EncryptionService.key_not_set) w)
  | Some k =>
      if (length (Hex.decode k) =? 32)%nat then (inr (Hex.decode k), w)
      else
        (inl (Error EncryptionService.key_wrong_length),
         write_log (mkLog ERROR (js "EncryptionService")
                          EncryptionService.key_wrong_length) w)
  end.
Proof.
  unfold EncryptionService.getEncryptionKey, EncryptionService.getenv_ENCRYPTION_KEY,
    bind.
  destruct (ENCRYPTION_KEY w) as [[|c k]|]; cbn [EncryptionService.falsy];
    try reflexivity.
  unfold EncryptionService.keyLength.
  destruct (length (Hex.decode (c :: k)) =? 32)%nat; reflexivity.
Qed.

Lemma constructor_run (w : World) :
  EncryptionService.constructor w =
  match EncryptionService.getEncryptionKey w with
  | (inr key, w') => (inr (EncryptionService.mk key), w')
  | (inl e, w') => (inl e, w')
  end.
Proof.
  unfold EncryptionService.constructor, bind.
  destruct (EncryptionService.getEncryptionKey w) as [[e|key] w']; reflexivity.
Qed.

(** A constructed service holds the 32 octets decoded from the variable. *)
Lemma constructor_key (w w' : World) (svc : EncryptionService.t) :
  EncryptionService.constructor w = (inr svc, w') ->
  length (EncryptionService.encryptionKey svc) = 32%nat /\
  exists k, ENCRYPTION_KEY w = Some k /\
            EncryptionService.encryptionKey svc = Hex.decode k.
Proof.
  rewrite constructor_run, getEncryptionKey_run.
  destruct (ENCRYPTION_KEY w) as [[|c k]|]; try discriminate.
  destruct (length (Hex.decode (c :: k)) =? 32)%nat eqn:E; [|discriminate].
  intros [= <- <-]. cbn [EncryptionService.encryptionKey].
  apply Nat.eqb_eq in E. eauto.
Qed.

(** *** The round trip *)

Lemma envelope_accepted (key nonce : Buffer) (s : jsstring) :
  length key = 32%nat -> length nonce = 16%nat ->
  let env := envelope key nonce s in
  accepted key (EncryptionService.encryptedContent env)
           (EncryptionService.iv env) (EncryptionService.authTag env) = true.
Proof.
  intros Hk Hn. unfold envelope, accepted.
  cbn [EncryptionService.encryptedContent EncryptionService.iv
       EncryptionService.authTag].
  rewrite !hex_decode_encode, Hk, Hn, gcm_tag_length, hex_encode_length.
  change ((16 =? 0)%nat || (128 <? 16)%nat) with false.
  cbn [Nat.eqb negb andb NodeCrypto.valid_gcm_tag_length Nat.leb orb].
  replace (Nat.even (2 * _)) with true.
  - rewrite <- (gcm_tag_length key nonce (GCM.encrypt_data key nonce (Utf8.encode s))) at 1.
    rewrite firstn_all. cbn [andb]. now apply buffer_eqb_eq.
  - symmetry. apply Nat.even_spec. now eexists.
Qed.

Lemma decrypt_envelope (svc : EncryptionService.t) (nonce : Buffer)
    (s : jsstring) (w : World) :
  length (EncryptionService.encryptionKey svc) = 32%nat ->
  length nonce = 16%nat ->
  well_formed s = true ->
  let env := envelope (EncryptionService.encryptionKey svc) nonce s in
  EncryptionService.decrypt svc (EncryptionService.encryptedContent env)
      (EncryptionService.iv env) (EncryptionService.authTag env) w =
  (inr s, write_log (mkLog INFO (js "EncryptionService")
                           (js "Data decrypted successfully")) w).
Proof.
  intros Hk Hn Hwf env.
  rewrite decrypt_run, decrypt_core_accepted by now apply envelope_accepted.
  unfold env, envelope.
  cbn [EncryptionService.encryptedContent EncryptionService.iv
       EncryptionService.authTag].
  rewrite !hex_decode_encode, gcm_decrypt_encrypt, utf8_decode_encode by exact Hwf.
  reflexivity.
Qed.



Lemma accepted_false_iff (key : Buffer) (c n t : jsstring) :
  length key = 32%nat ->
  accepted key c n t = false <-> malformed_or_forged key c n t.
Proof.
  intros Hk. unfold accepted, malformed_or_forged. rewrite Hk. cbn [Nat.eqb andb].
  rewrite <- Nat.negb_even.
  destruct (Hex.decode n) as [|b bs] eqn:En; cbn [length Nat.eqb negb andb orb].
  { split; auto. }
  destruct (Nat.ltb_spec 128 (S (length bs))) as [Hl|Hl]; cbn [negb andb].
  { split; auto. }
  destruct (NodeCrypto.valid_gcm_tag_length _); cbn [andb].
  2:{ split; auto. }
  destruct (Nat.even (length c)); cbn [andb negb].
  2:{ split; auto. }
  split.
  - intros H. right. right. right. right. intros Heq.
    apply buffer_eqb_eq in Heq. congruence.
  - intros [[=]|[Hgt|[[=]|[[=]|H]]]]; [lia|].
    destruct (NodeCrypto.buffer_eqb _ _) eqn:E; [|reflexivity].
    apply buffer_eqb_eq in E. contradiction.
Qed.

(** ** The read handlers *)

Lemma decrypt_outcome (svc : EncryptionService.t) (c n t : jsstring) (w : World) :
  fst (EncryptionService.decrypt svc c n t w) =
  match decrypt_core (EncryptionService.encryptionKey svc) c n t with
  | inr s => inr s
  | inl _ => inl DecryptionError
  end.
Proof. rewrite decrypt_run. now destruct (decrypt_core _ _ _ _). Qed.

Lemma decrypt_for_list_item (svc : EncryptionService.t)
    (secret : SecretsController.SecretRecord) (w : World) :
  fst (SecretsController.decrypt_for_list svc secret w) = inr (list_item svc secret).
Proof.
  unfold SecretsController.decrypt_for_list, try_catch, bind, list_item.
  rewrite decrypt_run.
  destruct (decrypt_core _ _ _ _); reflexivity.
Qed.

Lemma mapM_decrypt_for_list (svc : EncryptionService.t)
    (secrets : list SecretsController.SecretRecord) (w : World) :
  fst (SecretsController.mapM (SecretsController.decrypt_for_list svc) secrets w)
  = inr (map (list_item svc) secrets).
Proof.
  revert w. induction secrets as [|x r IH]; intros w; [reflexivity|].
  cbn [SecretsController.mapM map]. unfold bind at 1.
  pose proof (decrypt_for_list_item svc x w) as Hx.
  destruct (SecretsController.decrypt_for_list svc x w) as [[e|y] w1];
    cbn [fst] in Hx; [discriminate|].
  injection Hx as ->. unfold bind at 1.
  specialize (IH w1).
  destruct (SecretsController.mapM _ r w1) as [[e|ys] w2];
    cbn [fst] in IH; [discriminate|].
  injection IH as ->. reflexivity.
Qed.

(** The listing answers 200 with one item per stored record, each decided
    by its own envelope alone. *)
Lemma getAllSecrets_items (svc : EncryptionService.t) (userId : jsstring)
    (secrets : list SecretsController.SecretRecord) (w : World) :
  fst (SecretsController.getAllSecrets svc userId
         (SecretsController.mkQuery (Some secrets) None) w)
  = inr (SecretsController.mkResponse 200
           (SecretsController.SuccessList (map (list_item svc) secrets))).
Proof.
  unfold SecretsController.getAllSecrets, try_catch.
  cbn [SecretsController.error SecretsController.data].
  unfold bind at 1. unfold logDebug at 1. unfold log at 1. cbv beta iota.
  unfold bind at 1.
  match goal with |- context [SecretsController.mapM ?f ?l ?w'] =>
    pose proof (mapM_decrypt_for_list svc l w') as Hm;
    destruct (SecretsController.mapM f l w') as [[e|ys] w2]
  end; cbn [fst] in Hm; [discriminate|].
  injection Hm as ->. reflexivity.
Qed.

Lemma getSecretById_outcome (svc : EncryptionService.t) (userId secretId : jsstring)
    (secret : SecretsController.SecretRecord) (w : World) :
  fst (SecretsController.getSecretById svc userId secretId
         (SecretsController.mkQuery (Some secret) None) w)
  = inr (match decrypt_core (EncryptionService.encryptionKey svc)
                 (SecretsController.encrypted_content secret)
                 (SecretsController.iv secret)
                 (SecretsController.auth_tag secret) with
         | inr s =>
             SecretsController.mkResponse 200
               (SecretsController.SuccessItem
                  (SecretsController.mkSecret (SecretsController.id secret)
                     (SecretsController.name_or_default (SecretsController.name secret))
                     s (SecretsController.created_at secret)
                     (SecretsController.updated_at secret)))
         | inl _ =>
             SecretsController.mkResponse 500
               (SecretsController.Failure (js "Internal server error"))
         end).
Proof.
  unfold SecretsController.getSecretById, try_catch.
  cbn [SecretsController.error SecretsController.data].
  unfold bind at 1. unfold logDebug at 1. unfold log at 1. cbv beta iota.
  unfold bind at 1. rewrite decrypt_run.
  destruct (decrypt_core _ _ _ _); reflexivity.
Qed.

(** ** The field GF(2^128) of GHASH

    Multiplication by a non-zero hash subkey is injective.  The proof is
    elementary: [gmul] is bilinear over xor, so identities between linear
    maps need only be checked on the 128 powers of two; the ring laws
    follow from the shift structure of [mulx]; squaring is additive and its
    128th iterate is the identity; the only idempotents are 0 and 1, by a
    linear certificate; hence every non-zero block has an inverse. *)

Lemma block_lxor (x y : N) : block x -> block y -> block (N.lxor x y).
Proof. apply lxor_lt_pow2. Qed.

Lemma block_0 : block 0.
Proof. unfold block. lia. Qed.

Lemma block_pow2 (i : nat) : (i < 128)%nat -> block (2 ^ N.of_nat i).
Proof. intros H. unfold block. apply N.pow_lt_mono_r; lia. Qed.

Lemma lxor_cancel_l (a b c : N) : N.lxor a b = N.lxor a c -> b = c.
Proof.
  intros H.
  rewrite <- (N.lxor_0_l b), <- (N.lxor_nilpotent a), N.lxor_assoc, H,
    <- N.lxor_assoc, N.lxor_nilpotent, N.lxor_0_l.
  reflexivity.
Qed.

Lemma lxor_eq_0 (a b : N) : N.lxor a b = 0 -> a = b.
Proof. apply N.lxor_eq. Qed.

Lemma mod_pow2_lxor (a b n : N) :
  (N.lxor a b) mod 2 ^ n = N.lxor (a mod 2 ^ n) (b mod 2 ^ n).
Proof.
  apply N.bits_inj. intros m. rewrite N.lxor_spec.
  destruct (N.lt_ge_cases m n) as [H|H].
  - now rewrite !N.mod_pow2_bits_low, N.lxor_spec by exact H.
  - now rewrite !N.mod_pow2_bits_high by exact H.
Qed.

Lemma linear_0 (f : N -> N) : linear f -> f 0 = 0.
Proof.
  intros Hf. pose proof (Hf 0 0 block_0 block_0) as H.
  rewrite N.lxor_0_l in H.
  apply (lxor_cancel_l (f 0)). rewrite <- H. now rewrite N.lxor_0_r.
Qed.

Lemma split_top_bit (n x : N) :
  x < 2 ^ (n + 1) ->
  x = N.lxor (x mod 2 ^ n) (if N.testbit x n then 2 ^ n else 0).
Proof.
  intros Hx. apply N.bits_inj. intros m.
  rewrite N.lxor_spec.
  destruct (N.lt_trichotomy m n) as [Hlt|[->|Hgt]].
  - rewrite N.mod_pow2_bits_low by exact Hlt.
    destruct (N.testbit x n).
    + rewrite N.pow2_bits_false by lia. now rewrite xorb_false_r.
    + rewrite N.bits_0. now rewrite xorb_false_r.
  - rewrite N.mod_pow2_bits_high by lia.
    destruct (N.testbit x n) eqn:E.
    + now rewrite N.pow2_bits_true.
    + now rewrite N.bits_0.
  - rewrite N.mod_pow2_bits_high by lia.
    replace (N.testbit x m) with false.
    + destruct (N.testbit x n).
      * now rewrite N.pow2_bits_false by lia.
      * now rewrite N.bits_0.
    + symmetry. destruct (N.eq_dec x 0) as [->|Hx0]; [apply N.bits_0|].
      apply N.bits_above_log2.
      assert (N.log2 x < n + 1) by (apply N.log2_lt_pow2; lia). lia.
Qed.

(** Two additive maps that agree on the powers of two agree on blocks. *)
Lemma linear_ext (f g : N -> N) :
  linear f -> linear g ->
  (forall i, (i < 128)%nat -> f (2 ^ N.of_nat i) = g (2 ^ N.of_nat i)) ->
  forall x, block x -> f x = g x.
Proof.
  intros Hf Hg Hb.
  assert (H : forall n, (n <= 128)%nat ->
                        forall x, x < 2 ^ N.of_nat n -> f x = g x).
  { induction n as [|n IH]; intros Hn x Hx.
    - cbn in Hx. assert (x = 0) by lia. subst.
      now rewrite !linear_0.
    - rewrite Nat2N.inj_succ, <- N.add_1_r in Hx.
      rewrite (split_top_bit (N.of_nat n) x Hx).
      assert (Hlow : x mod 2 ^ N.of_nat n < 2 ^ N.of_nat n)
        by (apply N.mod_upper_bound; apply N.pow_nonzero; lia).
      assert (Hle : 2 ^ N.of_nat n < 2 ^ 128)
        by (apply N.pow_lt_mono_r; lia).
      assert (Htop : block (if N.testbit x (N.of_nat n) then 2 ^ N.of_nat n else 0)).
      { destruct (N.testbit x (N.of_nat n)); [exact Hle|apply block_0]. }
      rewrite Hf, Hg by (try exact Htop; unfold block; lia).
      rewrite (IH ltac:(lia) _ Hlow).
      f_equal. destruct (N.testbit x (N.of_nat n)).
      + apply Hb. lia.
      + now rewrite !linear_0.
  }
  intros x Hx. apply (H 128%nat); [lia|exact Hx].
Qed.

(** A property of the indices below a bound, decided by running through
    them. *)
Lemma forallb_seq (P : nat -> bool) (n : nat) :
  forallb P (seq 0 n) = true -> forall i, (i < n)%nat -> P i = true.
Proof.
  intros H i Hi. rewrite forallb_forall in H. apply H, in_seq. lia.
Qed.

(** *** [mulx] *)

Lemma mulx_linear (u v : N) :
  GCM.mulx (N.lxor u v) = N.lxor (GCM.mulx u) (GCM.mulx v).
Proof.
  unfold GCM.mulx.
  rewrite <- !N.bit0_odd, N.lxor_spec, <- !N.div2_div, !N.div2_spec, N.shiftr_lxor.
  destruct (N.testbit u 0), (N.testbit v 0); cbn [xorb].
  - rewrite (N.lxor_comm (N.shiftr v 1) GCM.R), N.lxor_assoc,
      <- (N.lxor_assoc GCM.R GCM.R), N.lxor_nilpotent, N.lxor_0_l.
    reflexivity.
  - rewrite !N.lxor_assoc. f_equal. apply N.lxor_comm.
  - now rewrite N.lxor_assoc.
  - reflexivity.
Qed.

Lemma block_mulx (v : N) : block v -> block (GCM.mulx v).
Proof.
  unfold block, GCM.mulx. intros Hv.
  assert (Hh : v / 2 < 2 ^ 128).
  { apply N.Div0.div_lt_upper_bound. change (2 ^ 128) with (2 * 2 ^ 127) in Hv.
    change (2 * 2 ^ 128) with (4 * 2 ^ 127). lia. }
  destruct (N.odd v); [|exact Hh].
  apply lxor_lt_pow2; [exact Hh|]. vm_compute. reflexivity.
Qed.

Lemma iter_mulx_linear (k : nat) (u v : N) :
  Nat.iter k GCM.mulx (N.lxor u v)
  = N.lxor (Nat.iter k GCM.mulx u) (Nat.iter k GCM.mulx v).
Proof.
  induction k as [|k IH]; [reflexivity|].
  rewrite !Nat.iter_succ. now rewrite IH, mulx_linear.
Qed.

Lemma block_iter_mulx (k : nat) (v : N) : block v -> block (Nat.iter k GCM.mulx v).
Proof.
  intros Hv. induction k as [|k IH]; [exact Hv|].
  rewrite Nat.iter_succ. now apply block_mulx.
Qed.

Lemma iter_mulx_comm (k : nat) (v : N) :
  Nat.iter k GCM.mulx (GCM.mulx v) = GCM.mulx (Nat.iter k GCM.mulx v).
Proof.
  induction k as [|k IH]; [reflexivity|]. rewrite !Nat.iter_succ. now rewrite IH.
Qed.

(** *** [gmul] is bilinear and stays within blocks *)

Lemma gmul_bits_linear_r (k : nat) (X V V' : N) :
  GCM.gmul_bits k X (N.lxor V V')
  = N.lxor (GCM.gmul_bits k X V) (GCM.gmul_bits k X V').
Proof.
  revert V V'. induction k as [|k IH]; intros V V'; [reflexivity|].
  cbn [GCM.gmul_bits]. rewrite mulx_linear, IH.
  destruct (N.testbit X (N.of_nat k)).
  - rewrite !N.lxor_assoc. f_equal.
    rewrite <- !N.lxor_assoc. f_equal. apply N.lxor_comm.
  - now rewrite !N.lxor_0_l.
Qed.

Lemma gmul_bits_linear_l (k : nat) (X X' V : N) :
  GCM.gmul_bits k (N.lxor X X') V
  = N.lxor (GCM.gmul_bits k X V) (GCM.gmul_bits k X' V).
Proof.
  revert V. induction k as [|k IH]; intros V; [reflexivity|].
  cbn [GCM.gmul_bits]. rewrite IH, N.lxor_spec.
  destruct (N.testbit X (N.of_nat k)), (N.testbit X' (N.of_nat k)); cbn [xorb].
  - rewrite !N.lxor_assoc, <- (N.lxor_assoc V _ _),
      (N.lxor_comm V (GCM.gmul_bits k X (GCM.mulx V))), !N.lxor_assoc,
      <- (N.lxor_assoc V V), N.lxor_nilpotent, !N.lxor_0_l.
    reflexivity.
  - now rewrite N.lxor_0_l, !N.lxor_assoc.
  - rewrite !N.lxor_0_l, <- !N.lxor_assoc. f_equal. apply N.lxor_comm.
  - now rewrite !N.lxor_0_l.
Qed.

Lemma block_gmul_bits (k : nat) (X V : N) :
  block V -> block (GCM.gmul_bits k X V).
Proof.
  revert V. induction k as [|k IH]; intros V HV; [apply block_0|].
  cbn [GCM.gmul_bits]. apply block_lxor.
  - destruct (N.testbit X (N.of_nat k)); [exact HV|apply block_0].
  - apply IH. now apply block_mulx.
Qed.

Lemma gmul_linear_l (x x' y : N) :
  GCM.gmul (N.lxor x x') y = N.lxor (GCM.gmul x y) (GCM.gmul x' y).
Proof. apply gmul_bits_linear_l. Qed.

Lemma gmul_linear_r (x y y' : N) :
  GCM.gmul x (N.lxor y y') = N.lxor (GCM.gmul x y) (GCM.gmul x y').
Proof. apply gmul_bits_linear_r. Qed.

Lemma block_gmul (x y : N) : block y -> block (GCM.gmul x y).
Proof. apply block_gmul_bits. Qed.

Lemma gmul_0_l (y : N) : GCM.gmul 0 y = 0.
Proof.
  apply (lxor_cancel_l (GCM.gmul 0 y)).
  rewrite <- gmul_linear_l, N.lxor_0_l, N.lxor_0_r. reflexivity.
Qed.

Lemma gmul_0_r (x : N) : GCM.gmul x 0 = 0.
Proof.
  apply (lxor_cancel_l (GCM.gmul x 0)).
  rewrite <- gmul_linear_r, N.lxor_0_l, N.lxor_0_r. reflexivity.
Qed.

(** A power of two as left factor shifts the right factor. *)
Lemma gmul_bits_pow2 (k m : nat) (V : N) :
  GCM.gmul_bits k (2 ^ N.of_nat m) V
  = if (m <? k)%nat then Nat.iter (k - 1 - m) GCM.mulx V else 0.
Proof.
  revert V. induction k as [|k IH]; intros V; [reflexivity|].
  cbn [GCM.gmul_bits]. rewrite IH, N.pow2_bits_eqb.
  destruct (Nat.ltb_spec m (S k)) as [Hlt|Hge].
  - destruct (N.eqb_spec (N.of_nat m) (N.of_nat k)) as [E|E].
    + apply Nat2N.inj in E. subst m.
      rewrite Nat.ltb_irrefl, N.lxor_0_r.
      replace (S k - 1 - k)%nat with 0%nat by lia. reflexivity.
    + assert (m < k)%nat by lia.
      replace (m <? k)%nat with true by (symmetry; apply Nat.ltb_lt; lia).
      rewrite N.lxor_0_l, iter_mulx_comm.
      replace (S k - 1 - m)%nat with (S (k - 1 - m)) by lia.
      now rewrite Nat.iter_succ.
  - destruct (N.eqb_spec (N.of_nat m) (N.of_nat k)) as [E|E];
      [apply Nat2N.inj in E; lia|].
    replace (m <? k)%nat with false by (symmetry; apply Nat.ltb_ge; lia).
    reflexivity.
Qed.

Lemma gmul_pow2 (j : nat) (y : N) :
  (j < 128)%nat ->
  GCM.gmul (2 ^ N.of_nat j) y = Nat.iter (127 - j) GCM.mulx y.
Proof.
  intros Hj. unfold GCM.gmul. rewrite gmul_bits_pow2.
  replace (j <? 128)%nat with true by (symmetry; apply Nat.ltb_lt; lia).
  reflexivity.
Qed.

Lemma gmul_one_l (y : N) : GCM.gmul gone y = y.
Proof. apply (gmul_pow2 127 y). lia. Qed.

Lemma block_gone : block gone.
Proof. vm_compute. reflexivity. Qed.

(** *** The ring laws *)

Lemma pow2_iter_mulx (j : nat) :
  (j < 128)%nat -> 2 ^ N.of_nat j = Nat.iter (127 - j) GCM.mulx gone.
Proof.
  intros Hj. apply N.eqb_eq.
  apply (forallb_seq
           (fun j => 2 ^ N.of_nat j =? Nat.iter (127 - j) GCM.mulx gone) 128);
    [vm_compute; reflexivity|exact Hj].
Qed.

Lemma gmul_comm (x y : N) : block x -> block y -> GCM.gmul x y = GCM.gmul y x.
Proof.
  intros Hx Hy. revert x Hx.
  apply linear_ext.
  - intros a b _ _. apply gmul_linear_l.
  - intros a b _ _. apply gmul_linear_r.
  - intros i Hi. revert y Hy. apply linear_ext.
    + intros a b _ _. apply gmul_linear_r.
    + intros a b _ _. apply gmul_linear_l.
    + intros j Hj. rewrite !gmul_pow2 by assumption.
      rewrite (pow2_iter_mulx i Hi), (pow2_iter_mulx j Hj).
      rewrite <- !Nat.iter_add. f_equal. lia.
Qed.

Lemma gmul_one_r (x : N) : block x -> GCM.gmul x gone = x.
Proof.
  intros Hx. rewrite gmul_comm by (auto using block_gone). apply gmul_one_l.
Qed.

(** The reduction: x^128 = 1 + x + x^2 + x^7. *)
Lemma mulx_128 (y : N) :
  block y ->
  Nat.iter 128 GCM.mulx y
  = N.lxor y (N.lxor (GCM.mulx y)
                     (N.lxor (Nat.iter 2 GCM.mulx y) (Nat.iter 7 GCM.mulx y))).
Proof.
  revert y. apply linear_ext.
  - intros a b _ _. apply iter_mulx_linear.
  - intros a b _ _.
    rewrite mulx_linear, !iter_mulx_linear.
    apply N.bits_inj. intros m. rewrite !N.lxor_spec.
    repeat match goal with |- context [N.testbit ?t m] =>
      generalize (N.testbit t m); intro
    end.
    repeat match goal with b : bool |- _ => destruct b end; reflexivity.
  - intros i Hi. apply N.eqb_eq.
    apply (forallb_seq
             (fun i => Nat.iter 128 GCM.mulx (2 ^ N.of_nat i) =?
                       N.lxor (2 ^ N.of_nat i)
                         (N.lxor (GCM.mulx (2 ^ N.of_nat i))
                            (N.lxor (Nat.iter 2 GCM.mulx (2 ^ N.of_nat i))
                                    (Nat.iter 7 GCM.mulx (2 ^ N.of_nat i))))) 128);
      [vm_compute; reflexivity|exact Hi].
Qed.

Lemma mulx_pow2_succ (j : nat) :
  GCM.mulx (2 ^ N.of_nat (S j)) = 2 ^ N.of_nat j.
Proof.
  unfold GCM.mulx.
  rewrite Nat2N.inj_succ, N.pow_succ_r by lia.
  rewrite N.odd_mul. cbn [N.odd andb].
  rewrite N.mul_comm. apply N.div_mul. lia.
Qed.

Lemma gmul_mulx_l (x y : N) :
  block x -> block y -> GCM.gmul (GCM.mulx x) y = GCM.mulx (GCM.gmul x y).
Proof.
  intros Hx Hy. revert x Hx. apply linear_ext.
  - intros a b _ _. now rewrite mulx_linear, gmul_linear_l.
  - intros a b _ _. now rewrite gmul_linear_l, mulx_linear.
  - intros [|j] Hj.
    + change (GCM.mulx (2 ^ N.of_nat 0)) with
        (N.lxor (2 ^ N.of_nat 127)
           (N.lxor (2 ^ N.of_nat 126)
              (N.lxor (2 ^ N.of_nat 125) (2 ^ N.of_nat 120)))).
      rewrite !gmul_linear_l, !gmul_pow2 by lia.
      cbn [Nat.sub]. rewrite <- Nat.iter_succ.
      rewrite (mulx_128 y Hy). reflexivity.
    + rewrite mulx_pow2_succ, !gmul_pow2 by lia.
      replace (127 - j)%nat with (S (127 - S j)) by lia.
      now rewrite Nat.iter_succ.
Qed.

Lemma gmul_iter_mulx_l (k : nat) (x y : N) :
  block x -> block y ->
  GCM.gmul (Nat.iter k GCM.mulx x) y = Nat.iter k GCM.mulx (GCM.gmul x y).
Proof.
  intros Hx Hy. induction k as [|k IH]; [reflexivity|].
  rewrite !Nat.iter_succ, gmul_mulx_l, IH by (auto using block_iter_mulx).
  reflexivity.
Qed.

Lemma gmul_assoc (x y z : N) :
  block x -> block y -> block z ->
  GCM.gmul (GCM.gmul x y) z = GCM.gmul x (GCM.gmul y z).
Proof.
  intros Hx Hy Hz. revert x Hx. apply linear_ext.
  - intros a b _ _. now rewrite !gmul_linear_l.
  - intros a b _ _. now rewrite gmul_linear_l.
  - intros j Hj. rewrite !gmul_pow2 by exact Hj.
    now apply gmul_iter_mulx_l.
Qed.

(** *** Squaring *)

Lemma block_gsq (x : N) : block x -> block (gsq x).
Proof. apply block_gmul. Qed.

Lemma gsq_linear : linear gsq.
Proof.
  intros x y Hx Hy. unfold gsq.
  rewrite gmul_linear_l, !gmul_linear_r, (gmul_comm y x Hy Hx).
  rewrite N.lxor_assoc, <- (N.lxor_assoc (GCM.gmul x y)), N.lxor_nilpotent,
    N.lxor_0_l.
  reflexivity.
Qed.

Lemma gsq_gmul (x y : N) :
  block x -> block y -> gsq (GCM.gmul x y) = GCM.gmul (gsq x) (gsq y).
Proof.
  intros Hx Hy. unfold gsq.
  rewrite (gmul_assoc x y (GCM.gmul x y)) by auto using block_gmul.
  rewrite <- (gmul_assoc y x y) by auto.
  rewrite (gmul_comm y x) by auto.
  rewrite (gmul_assoc x y y) by auto.
  rewrite <- (gmul_assoc x x (GCM.gmul y y)) by auto using block_gmul.
  reflexivity.
Qed.

Lemma block_iter_gsq (k : nat) (x : N) : block x -> block (Nat.iter k gsq x).
Proof.
  intros Hx. induction k as [|k IH]; [exact Hx|].
  rewrite Nat.iter_succ. now apply block_gsq.
Qed.

Lemma iter_gsq_linear (k : nat) : linear (Nat.iter k gsq).
Proof.
  induction k as [|k IH]; intros x y Hx Hy; [reflexivity|].
  rewrite !Nat.iter_succ, IH by assumption.
  apply gsq_linear; now apply block_iter_gsq.
Qed.

Lemma iter_gsq_gmul (k : nat) (x y : N) :
  block x -> block y ->
  Nat.iter k gsq (GCM.gmul x y)
  = GCM.gmul (Nat.iter k gsq x) (Nat.iter k gsq y).
Proof.
  intros Hx Hy. induction k as [|k IH]; [reflexivity|].
  rewrite !Nat.iter_succ, IH. apply gsq_gmul; now apply block_iter_gsq.
Qed.

(** The Frobenius map has order 128: first on x, then on its powers, then
    on every block. *)
Lemma frobenius_x : Nat.iter 128 gsq (2 ^ 126) = 2 ^ 126.
Proof. vm_compute. reflexivity. Qed.

Lemma frobenius_one : Nat.iter 128 gsq gone = gone.
Proof. vm_compute. reflexivity. Qed.

Lemma mulx_gmul_x (y : N) : GCM.mulx y = GCM.gmul (2 ^ 126) y.
Proof. symmetry. apply (gmul_pow2 126 y). lia. Qed.

Lemma frobenius_power (k : nat) :
  Nat.iter 128 gsq (Nat.iter k GCM.mulx gone) = Nat.iter k GCM.mulx gone.
Proof.
  induction k as [|k IH]; [apply frobenius_one|].
  change (Nat.iter (S k) GCM.mulx gone)
    with (GCM.mulx (Nat.iter k GCM.mulx gone)).
  rewrite mulx_gmul_x.
  rewrite iter_gsq_gmul, frobenius_x, IH.
  - reflexivity.
  - vm_compute. reflexivity.
  - apply block_iter_mulx, block_gone.
Qed.

Lemma frobenius_id (x : N) : block x -> Nat.iter 128 gsq x = x.
Proof.
  revert x. apply linear_ext.
  - apply iter_gsq_linear.
  - intros a b _ _. reflexivity.
  - intros i Hi. rewrite (pow2_iter_mulx i Hi). apply frobenius_power.
Qed.

(** *** Idempotents and inverses *)

Lemma apply_rows_linear (rows : list N) (i x y : N) :
  apply_rows rows i (N.lxor x y)
  = N.lxor (apply_rows rows i x) (apply_rows rows i y).
Proof.
  revert i. induction rows as [|r rs IH]; intros i; [reflexivity|].
  cbn [apply_rows]. rewrite IH, N.lxor_spec.
  apply N.bits_inj. intros m. rewrite !N.lxor_spec.
  destruct (N.testbit x i), (N.testbit y i); cbn [xorb]; rewrite ?N.bits_0;
    repeat match goal with |- context [N.testbit ?t m] =>
      generalize (N.testbit t m); intro
    end;
    repeat match goal with b : bool |- _ => destruct b end; reflexivity.
Qed.

Lemma psi_certificate (x : N) :
  block x -> psi (N.lxor (gsq x) x) = x mod 2 ^ 127.
Proof.
  revert x. apply linear_ext.
  - intros a b Ha Hb. unfold psi.
    rewrite gsq_linear by assumption.
    rewrite <- apply_rows_linear. f_equal.
    rewrite !N.lxor_assoc. f_equal.
    rewrite <- !N.lxor_assoc. f_equal. apply N.lxor_comm.
  - intros a b _ _. apply mod_pow2_lxor.
  - intros i Hi. apply N.eqb_eq.
    apply (forallb_seq
             (fun i => psi (N.lxor (gsq (2 ^ N.of_nat i)) (2 ^ N.of_nat i))
                       =? (2 ^ N.of_nat i) mod 2 ^ 127) 128);
      [vm_compute; reflexivity|exact Hi].
Qed.

Lemma idempotent_trivial (e : N) :
  block e -> gsq e = e -> e = 0 \/ e = gone.
Proof.
  intros He Hsq.
  pose proof (psi_certificate e He) as H.
  rewrite Hsq, N.lxor_nilpotent in H. change (psi 0) with 0 in H.
  unfold block in He. unfold gone.
  pose proof (N.div_mod e (2 ^ 127) ltac:(discriminate)) as Hdm.
  rewrite <- H, N.add_0_r in Hdm.
  assert (Hq : e / 2 ^ 127 < 2).
  { apply N.Div0.div_lt_upper_bound. exact He. }
  destruct (N.eq_dec (e / 2 ^ 127) 0) as [E|E].
  - left. rewrite Hdm, E. reflexivity.
  - right. assert (e / 2 ^ 127 = 1) as E1 by lia.
    rewrite Hdm, E1. reflexivity.
Qed.

Lemma gnorm_succ (k : nat) (a : N) :
  gnorm (S k) a = GCM.gmul (gsq (gnorm k a)) a.
Proof. reflexivity. Qed.

Lemma block_gnorm (k : nat) (a : N) : block a -> block (gnorm k a).
Proof.
  intros Ha. destruct k; [apply block_gone|]. rewrite gnorm_succ. now apply block_gmul.
Qed.

Lemma gnorm_mul (k : nat) (a : N) :
  block a -> GCM.gmul (gnorm k a) a = Nat.iter k gsq a.
Proof.
  intros Ha. induction k as [|k IH]; [apply gmul_one_l|].
  rewrite gnorm_succ, Nat.iter_succ, <- IH.
  rewrite gmul_assoc by auto using block_gsq, block_gnorm.
  fold (gsq a). symmetry. apply gsq_gmul; auto using block_gnorm.
Qed.

Lemma ginv_mul (a : N) : block a -> a <> 0 -> GCM.gmul (ginv a) a = gone.
Proof.
  intros Ha Hne.
  assert (Hv : block (ginv a)) by (apply block_gsq, block_gnorm, Ha).
  assert (He : GCM.gmul (GCM.gmul (ginv a) a) a = a).
  { unfold ginv. rewrite <- (gnorm_succ 127 a).
    rewrite gnorm_mul by exact Ha. now apply frobenius_id. }
  destruct (idempotent_trivial (GCM.gmul (ginv a) a)) as [E|E].
  - now apply block_gmul.
  - unfold gsq.
    rewrite (gmul_comm (ginv a) a) at 2 by assumption.
    rewrite <- gmul_assoc by auto using block_gmul.
    now rewrite He, gmul_comm by assumption.
  - rewrite E, gmul_0_l in He. congruence.
  - exact E.
Qed.

(** Multiplication by a non-zero block is injective on blocks. *)
Lemma gmul_cancel_r (x y a : N) :
  block x -> block y -> block a -> a <> 0 ->
  GCM.gmul x a = GCM.gmul y a -> x = y.
Proof.
  intros Hx Hy Ha Hne H.
  assert (Hv : block (ginv a)) by (apply block_gsq, block_gnorm, Ha).
  rewrite <- (gmul_one_r x Hx), <- (gmul_one_r y Hy).
  rewrite <- (ginv_mul a Ha Hne).
  rewrite (gmul_comm (ginv a) a) by assumption.
  rewrite <- !gmul_assoc by assumption.
  now rewrite H.
Qed.

(** ** AES-256 is a permutation of the blocks *)

(** A property of all octets, decided by running through them. *)
Lemma byte_forall (P : byte -> bool) :
  forallb (fun i => P (byte_of_N (N.of_nat i))) (seq 0 256) = true ->
  forall b, P b = true.
Proof.
  intros H b.
  pose proof (forallb_seq _ _ H (N.to_nat (Byte.to_N b))) as Hb.
  cbv beta in Hb. rewrite N2Nat.id, byte_of_to_N in Hb.
  apply Hb. pose proof (to_N_lt b). lia.
Qed.

Lemma word_eqb_eq (u v : AES.word) : word_eqb u v = true -> u = v.
Proof.
  destruct u as [[[a b] c] d], v as [[[a' b'] c'] d']. cbn [word_eqb].
  intros H. repeat (apply andb_true_iff in H as [H ?]).
  repeat match goal with E : Byte.eqb _ _ = true |- _ =>
    apply Byte.byte_dec_bl in E end.
  congruence.
Qed.

(** Equalities between xor combinations of octets, bit by bit. *)
Ltac lxor_bits :=
  apply N.bits_inj; intros ?m; rewrite ?N.lxor_spec, ?N.bits_0;
  repeat match goal with |- context [N.testbit ?t ?m] =>
    generalize (N.testbit t m); intro
  end;
  btauto.

Ltac bxor_bits := apply to_N_inj; rewrite ?to_N_bxor; lxor_bits.

Lemma sbox_inv (b : byte) : inv_sbox (AES.sbox b) = b.
Proof.
  apply Byte.byte_dec_bl. revert b.
  apply (byte_forall (fun b => Byte.eqb (inv_sbox (AES.sbox b)) b)).
  vm_compute. reflexivity.
Qed.

Lemma xtime_N_mod (n : N) :
  n < 256 ->
  AES.xtime_N n mod 256
  = N.lxor (N.shiftl n 1 mod 256) (if N.testbit n 7 then 27 else 0).
Proof.
  intros Hn. unfold AES.xtime_N. rewrite N.shiftl_mul_pow2, N.mul_comm.
  change (2 ^ 1) with 2.
  rewrite N.testbit_eqb. change (2 ^ 7) with 128.
  destruct (N.ltb_spec n 128) as [Hlt|Hge].
  - rewrite N.div_small by exact Hlt. cbn [N.modulo N.eqb]. cbn.
    now rewrite N.lxor_0_r.
  - assert (Hq : n / 128 = 1).
    { pose proof (N.div_mod n 128 ltac:(discriminate)).
      pose proof (N.mod_upper_bound n 128 ltac:(discriminate)).
      assert (n / 128 < 2) by (apply N.Div0.div_lt_upper_bound; lia). lia. }
    rewrite Hq. cbn [N.modulo N.eqb]. cbn.
    change 256 with (2 ^ 8). now rewrite mod_pow2_lxor.
Qed.

Lemma xtime_linear (a b : byte) :
  AES.xtime (bxor a b) = bxor (AES.xtime a) (AES.xtime b).
Proof.
  apply to_N_inj. unfold AES.xtime.
  rewrite !to_N_bxor, !to_N_byte_of_N.
  rewrite !xtime_N_mod by (try apply lxor_lt_256; apply to_N_lt).
  rewrite N.shiftl_lxor. change 256 with (2 ^ 8). rewrite mod_pow2_lxor.
  rewrite N.lxor_spec.
  destruct (N.testbit (Byte.to_N a) 7), (N.testbit (Byte.to_N b) 7);
    cbn [xorb]; lxor_bits.
Qed.

Lemma xor_word_assoc (u v w : AES.word) :
  AES.xor_word (AES.xor_word u v) w = AES.xor_word u (AES.xor_word v w).
Proof.
  destruct u as [[[? ?] ?] ?], v as [[[? ?] ?] ?], w as [[[? ?] ?] ?].
  cbn [AES.xor_word]. now rewrite !bxor_assoc.
Qed.

Lemma xor_word_cancel_r (u k : AES.word) :
  AES.xor_word (AES.xor_word u k) k = u.
Proof.
  destruct u as [[[? ?] ?] ?], k as [[[? ?] ?] ?].
  cbn [AES.xor_word]. now rewrite !bxor_cancel_r.
Qed.

Lemma mix_column_linear (u v : AES.word) :
  AES.mix_column (AES.xor_word u v)
  = AES.xor_word (AES.mix_column u) (AES.mix_column v).
Proof.
  destruct u as [[[a b] c] d], v as [[[a' b'] c'] d'].
  cbn [AES.xor_word AES.mix_column]. unfold AES.mul3, AES.mul2.
  rewrite !xtime_linear.
  f_equal; [f_equal; [f_equal|]|]; bxor_bits.
Qed.

Lemma inv_mix_column_linear (u v : AES.word) :
  inv_mix_column (AES.xor_word u v)
  = AES.xor_word (inv_mix_column u) (inv_mix_column v).
Proof.
  destruct u as [[[a b] c] d], v as [[[a' b'] c'] d'].
  cbn [AES.xor_word inv_mix_column]. unfold mul9, mul11, mul13, mul14.
  rewrite !xtime_linear.
  f_equal; [f_equal; [f_equal|]|]; bxor_bits.
Qed.

Lemma inv_mix_column_unit_0 (a : byte) :
  inv_mix_column (AES.mix_column (a, x00, x00, x00)) = (a, x00, x00, x00).
Proof.
  apply word_eqb_eq. revert a.
  apply (byte_forall
           (fun a => word_eqb (inv_mix_column (AES.mix_column (a, x00, x00, x00))) (a, x00, x00, x00))).
  vm_compute. reflexivity.
Qed.

Lemma inv_mix_column_unit_1 (a : byte) :
  inv_mix_column (AES.mix_column (x00, a, x00, x00)) = (x00, a, x00, x00).
Proof.
  apply word_eqb_eq. revert a.
  apply (byte_forall
           (fun a => word_eqb (inv_mix_column (AES.mix_column (x00, a, x00, x00))) (x00, a, x00, x00))).
  vm_compute. reflexivity.
Qed.

Lemma inv_mix_column_unit_2 (a : byte) :
  inv_mix_column (AES.mix_column (x00, x00, a, x00)) = (x00, x00, a, x00).
Proof.
  apply word_eqb_eq. revert a.
  apply (byte_forall
           (fun a => word_eqb (inv_mix_column (AES.mix_column (x00, x00, a, x00))) (x00, x00, a, x00))).
  vm_compute. reflexivity.
Qed.

Lemma inv_mix_column_unit_3 (a : byte) :
  inv_mix_column (AES.mix_column (x00, x00, x00, a)) = (x00, x00, x00, a).
Proof.
  apply word_eqb_eq. revert a.
  apply (byte_forall
           (fun a => word_eqb (inv_mix_column (AES.mix_column (x00, x00, x00, a))) (x00, x00, x00, a))).
  vm_compute. reflexivity.
Qed.

Lemma inv_mix_column_mix_column (w : AES.word) :
  inv_mix_column (AES.mix_column w) = w.
Proof.
  destruct w as [[[a b] c] d].
  replace (a, b, c, d) with
    (AES.xor_word (a, x00, x00, x00)
       (AES.xor_word (x00, b, x00, x00)
          (AES.xor_word (x00, x00, c, x00) (x00, x00, x00, d)))).
  - rewrite !mix_column_linear, !inv_mix_column_linear.
    now rewrite inv_mix_column_unit_0, inv_mix_column_unit_1,
      inv_mix_column_unit_2, inv_mix_column_unit_3.
  - cbn [AES.xor_word]. now rewrite !bxor_0_l, !bxor_0_r.
Qed.

(** *** Every round transformation is injective *)

Lemma add_round_key_inj (rk s t : AES.state) :
  AES.add_round_key s rk = AES.add_round_key t rk -> s = t.
Proof.
  destruct s as [[[s0 s1] s2] s3], t as [[[t0 t1] t2] t3],
           rk as [[[k0 k1] k2] k3].
  cbn [AES.add_round_key]. intros [= H0 H1 H2 H3].
  rewrite <- (xor_word_cancel_r s0 k0), <- (xor_word_cancel_r s1 k1),
    <- (xor_word_cancel_r s2 k2), <- (xor_word_cancel_r s3 k3).
  rewrite H0, H1, H2, H3. now rewrite !xor_word_cancel_r.
Qed.

Lemma sbox_inj (a b : byte) : AES.sbox a = AES.sbox b -> a = b.
Proof. intros H. rewrite <- (sbox_inv a), <- (sbox_inv b). now rewrite H. Qed.

Lemma sub_word_inj (u v : AES.word) : AES.sub_word u = AES.sub_word v -> u = v.
Proof.
  destruct u as [[[a b] c] d], v as [[[a' b'] c'] d']. cbn [AES.sub_word].
  intros [= H0 H1 H2 H3].
  apply sbox_inj in H0, H1, H2, H3. congruence.
Qed.

Lemma sub_bytes_inj (s t : AES.state) : AES.sub_bytes s = AES.sub_bytes t -> s = t.
Proof.
  destruct s as [[[s0 s1] s2] s3], t as [[[t0 t1] t2] t3]. cbn [AES.sub_bytes].
  intros [= H0 H1 H2 H3].
  apply sub_word_inj in H0, H1, H2, H3. congruence.
Qed.

Lemma shift_rows_inj (s t : AES.state) : AES.shift_rows s = AES.shift_rows t -> s = t.
Proof.
  destruct s as [[[[[[? ?] ?] ?] [[[? ?] ?] ?]] [[[? ?] ?] ?]] [[[? ?] ?] ?]].
  destruct t as [[[[[[? ?] ?] ?] [[[? ?] ?] ?]] [[[? ?] ?] ?]] [[[? ?] ?] ?]].
  cbn [AES.shift_rows]. intros [=]. congruence.
Qed.

Lemma mix_column_inj (u v : AES.word) : AES.mix_column u = AES.mix_column v -> u = v.
Proof.
  intros H. rewrite <- (inv_mix_column_mix_column u), <- (inv_mix_column_mix_column v).
  now rewrite H.
Qed.

Lemma mix_columns_inj (s t : AES.state) : AES.mix_columns s = AES.mix_columns t -> s = t.
Proof.
  destruct s as [[[s0 s1] s2] s3], t as [[[t0 t1] t2] t3]. cbn [AES.mix_columns].
  intros [= H0 H1 H2 H3].
  apply mix_column_inj in H0, H1, H2, H3. congruence.
Qed.

Lemma rounds_inj (rks : list AES.state) (s t : AES.state) :
  AES.rounds rks s = AES.rounds rks t -> s = t.
Proof.
  revert s t. induction rks as [|rk rest IH]; intros s t H; [exact H|].
  destruct rest as [|rk' rest'].
  - cbn [AES.rounds] in H.
    now apply add_round_key_inj, shift_rows_inj, sub_bytes_inj in H.
  - change (AES.rounds (rk :: rk' :: rest') s)
      with (AES.rounds (rk' :: rest')
              (AES.add_round_key (AES.mix_columns (AES.shift_rows (AES.sub_bytes s))) rk)) in H.
    change (AES.rounds (rk :: rk' :: rest') t)
      with (AES.rounds (rk' :: rest')
              (AES.add_round_key (AES.mix_columns (AES.shift_rows (AES.sub_bytes t))) rk)) in H.
    apply IH in H.
    now apply add_round_key_inj, mix_columns_inj, shift_rows_inj, sub_bytes_inj in H.
Qed.

Lemma cipher_inj (rks : list AES.state) (s t : AES.state) :
  AES.cipher rks s = AES.cipher rks t -> s = t.
Proof.
  destruct rks as [|rk0 rest]; [auto|]. cbn [AES.cipher].
  intros H. now apply rounds_inj, add_round_key_inj in H.
Qed.

(** *** Blocks as numbers and as buffers *)

Lemma be_value_fold (bs : Buffer) (acc : N) :
  fold_left (fun acc b => 256 * acc + Byte.to_N b) bs acc
  = acc * 256 ^ N.of_nat (length bs) + be_value bs.
Proof.
  unfold be_value. revert acc.
  induction bs as [|b bs IH]; intros acc.
  - cbn. lia.
  - cbn [fold_left length]. rewrite IH, (IH (256 * 0 + Byte.to_N b)).
    rewrite Nat2N.inj_succ, N.pow_succ_r by lia. lia.
Qed.

Lemma be_value_snoc (bs : Buffer) (b : byte) :
  be_value (bs ++ [b]) = 256 * be_value bs + Byte.to_N b.
Proof. unfold be_value. now rewrite fold_left_app. Qed.

Lemma be_value_cons (b : byte) (bs : Buffer) :
  be_value (b :: bs) = Byte.to_N b * 256 ^ N.of_nat (length bs) + be_value bs.
Proof.
  unfold be_value at 1. cbn [fold_left]. rewrite be_value_fold. f_equal.
Qed.

Lemma be_value_lt (bs : Buffer) : be_value bs < 256 ^ N.of_nat (length bs).
Proof.
  induction bs as [|b bs IH] using rev_ind; [cbn; lia|].
  rewrite be_value_snoc, length_app. cbn [length].
  rewrite Nat.add_1_r, Nat2N.inj_succ, N.pow_succ_r by lia.
  pose proof (to_N_lt b). lia.
Qed.

Lemma be_bytes_be_value (bs : Buffer) : be_bytes (length bs) (be_value bs) = bs.
Proof.
  induction bs as [|b bs IH] using rev_ind; [reflexivity|].
  rewrite be_value_snoc, length_app. cbn [length]. rewrite Nat.add_1_r.
  cbn [be_bytes].
  pose proof (to_N_lt b) as Hb.
  replace ((256 * be_value bs + Byte.to_N b) / 256) with (be_value bs).
  - rewrite IH. f_equal. f_equal.
    rewrite <- (byte_of_to_N b) at 2. unfold byte_of_N.
    replace ((256 * be_value bs + Byte.to_N b) mod 256) with (Byte.to_N b mod 256);
      [reflexivity|].
    rewrite N.add_comm, N.mul_comm, N.Div0.mod_add. reflexivity.
  - rewrite N.add_comm, N.mul_comm, N.div_add by lia.
    rewrite N.div_small by exact Hb. reflexivity.
Qed.

Lemma be_value_be_bytes (n : nat) (x : N) :
  be_value (be_bytes n x) = x mod 256 ^ N.of_nat n.
Proof.
  revert x. induction n as [|n IH]; intros x.
  - cbn. now rewrite N.mod_1_r.
  - cbn [be_bytes]. rewrite be_value_snoc, IH, to_N_byte_of_N.
    rewrite Nat2N.inj_succ, N.pow_succ_r by lia.
    rewrite (N.Div0.mod_mul_r x 256 (256 ^ N.of_nat n)). lia.
Qed.

Lemma be_value_inj (a b : Buffer) :
  length a = length b -> be_value a = be_value b -> a = b.
Proof.
  intros Hl Hv. rewrite <- (be_bytes_be_value a), <- (be_bytes_be_value b).
  now rewrite Hl, Hv.
Qed.

Lemma pow_256_16 : 256 ^ N.of_nat 16 = 2 ^ 128.
Proof. reflexivity. Qed.

Lemma be_bytes_16_inj (x y : N) :
  block x -> block y -> be_bytes 16 x = be_bytes 16 y -> x = y.
Proof.
  unfold block. intros Hx Hy H.
  apply (f_equal be_value) in H. rewrite !be_value_be_bytes, pow_256_16 in H.
  now rewrite !N.mod_small in H by assumption.
Qed.

Lemma bytes_of_state_length (s : AES.state) : length (AES.bytes_of_state s) = 16%nat.
Proof. now destruct s as [[[[[[? ?] ?] ?] [[[? ?] ?] ?]] [[[? ?] ?] ?]] [[[? ?] ?] ?]]. Qed.

Lemma state_of_bytes_of_state (s : AES.state) :
  AES.state_of_bytes (AES.bytes_of_state s) = s.
Proof. now destruct s as [[[[[[? ?] ?] ?] [[[? ?] ?] ?]] [[[? ?] ?] ?]] [[[? ?] ?] ?]]. Qed.

Lemma bytes_of_state_of_bytes (bs : Buffer) :
  length bs = 16%nat -> AES.bytes_of_state (AES.state_of_bytes bs) = bs.
Proof.
  intros H.
  do 16 (destruct bs as [|? bs]; [discriminate|]).
  destruct bs; [reflexivity|discriminate].
Qed.

Lemma block_be_value_state (s : AES.state) : block (be_value (AES.bytes_of_state s)).
Proof.
  unfold block. rewrite <- pow_256_16, <- (bytes_of_state_length s) at 1.
  apply be_value_lt.
Qed.

Lemma block_encrypt_block (key : Buffer) (x : N) : block (AES.encrypt_block key x).
Proof. unfold AES.encrypt_block. apply block_be_value_state. Qed.

Lemma cipher_on_blocks_inj (rks : list AES.state) (x y : N) :
  block x -> block y ->
  be_value (AES.bytes_of_state (AES.cipher rks (AES.state_of_bytes (be_bytes 16 x))))
  = be_value (AES.bytes_of_state (AES.cipher rks (AES.state_of_bytes (be_bytes 16 y)))) ->
  x = y.
Proof.
  intros Hx Hy H.
  apply be_value_inj in H; [|now rewrite !bytes_of_state_length].
  apply (f_equal AES.state_of_bytes) in H.
  rewrite !state_of_bytes_of_state in H.
  apply cipher_inj in H.
  apply (f_equal AES.bytes_of_state) in H.
  rewrite !bytes_of_state_of_bytes in H by apply be_bytes_length.
  now apply be_bytes_16_inj.
Qed.

(** AES under any key is injective on blocks. *)
Lemma encrypt_block_inj (key : Buffer) (x y : N) :
  block x -> block y ->
  AES.encrypt_block key x = AES.encrypt_block key y -> x = y.
Proof. intros Hx Hy. apply cipher_on_blocks_inj; assumption. Qed.

(** *** GHASH tells apart two inputs that differ in a single block *)

Lemma ghash_blocks_cons (H Y X : N) (Xs : list N) :
  GCM.ghash_blocks H Y (X :: Xs)
  = GCM.ghash_blocks H (GCM.gmul (N.lxor Y X) H) Xs.
Proof. reflexivity. Qed.

Lemma ghash_blocks_app (H Y : N) (Xs Ys : list N) :
  GCM.ghash_blocks H Y (Xs ++ Ys)
  = GCM.ghash_blocks H (GCM.ghash_blocks H Y Xs) Ys.
Proof. apply fold_left_app. Qed.

Lemma block_ghash_blocks (H Y : N) (Xs : list N) :
  block H -> block Y -> block (GCM.ghash_blocks H Y Xs).
Proof.
  intros HH. revert Y. induction Xs as [|X Xs IH]; intros Y HY; [exact HY|].
  rewrite ghash_blocks_cons. apply IH. now apply block_gmul.
Qed.

Lemma ghash_blocks_inj (H : N) (Xs : list N) (Y Y' : N) :
  block H -> H <> 0 -> Forall block Xs -> block Y -> block Y' ->
  GCM.ghash_blocks H Y Xs = GCM.ghash_blocks H Y' Xs -> Y = Y'.
Proof.
  intros HH Hne HXs. revert Y Y'.
  induction HXs as [|X Xs HX HXs IH]; intros Y Y' HY HY' Heq; [exact Heq|].
  rewrite !ghash_blocks_cons in Heq.
  apply IH in Heq; [|now apply block_gmul|now apply block_gmul].
  apply gmul_cancel_r in Heq; auto using block_lxor.
  rewrite (N.lxor_comm Y), (N.lxor_comm Y') in Heq.
  now apply lxor_cancel_l in Heq.
Qed.

Lemma ghash_blocks_single_difference (H : N) (before after : list N) (X X' : N) :
  block H -> H <> 0 ->
  Forall block before -> Forall block after -> block X -> block X' ->
  X <> X' ->
  GCM.ghash_blocks H 0 (before ++ X :: after)
  <> GCM.ghash_blocks H 0 (before ++ X' :: after).
Proof.
  intros HH Hne Hb Ha HX HX' Hdiff Heq.
  rewrite !ghash_blocks_app, !ghash_blocks_cons in Heq.
  assert (HY : block (GCM.ghash_blocks H 0 before))
    by (apply block_ghash_blocks; auto using block_0).
  apply ghash_blocks_inj in Heq; auto using block_gmul.
  apply gmul_cancel_r in Heq; auto using block_lxor.
  now apply lxor_cancel_l in Heq.
Qed.

(** *** Blocks of buffers that differ in one octet *)

Lemma flip_bit_length (i : nat) (bs : Buffer) : length (flip_bit i bs) = length bs.
Proof.
  revert i. induction bs as [|b r IH]; intros i; [reflexivity|].
  cbn [flip_bit]. destruct (i <? 8)%nat; cbn [length]; auto.
Qed.

Lemma bxor_pow2_neq (b : byte) (i : nat) :
  (i < 8)%nat -> bxor b (byte_of_N (2 ^ N.of_nat i)) <> b.
Proof.
  intros Hi Heq.
  assert (Hz : byte_of_N (2 ^ N.of_nat i) = x00).
  { rewrite <- (bxor_nilpotent b), <- Heq at 1.
    rewrite (bxor_comm b), bxor_cancel_r. reflexivity. }
  apply (f_equal Byte.to_N) in Hz. rewrite to_N_byte_of_N in Hz.
  assert (H : 2 ^ N.of_nat i < 256).
  { change 256 with (2 ^ 8). apply N.pow_lt_mono_r; lia. }
  rewrite N.mod_small in Hz by exact H.
  cbn in Hz. pose proof (N.pow_nonzero 2 (N.of_nat i)). lia.
Qed.

Lemma flip_bit_one_octet (i : nat) (bs : Buffer) :
  (i < 8 * length bs)%nat -> one_octet_apart bs (flip_bit i bs).
Proof.
  revert i. induction bs as [|b r IH]; intros i Hi; [cbn in Hi; lia|].
  cbn [flip_bit]. destruct (Nat.ltb_spec i 8) as [Hlt|Hge].
  - exists [], b, (bxor b (byte_of_N (2 ^ N.of_nat i))), r.
    repeat split. intros H. symmetry in H. now apply bxor_pow2_neq in H.
  - destruct (IH (i - 8)%nat) as (pre & c & c' & post & E1 & E2 & Hne).
    { cbn [length] in Hi. lia. }
    exists (b :: pre), c, c', post. cbn [app]. now rewrite <- E1, <- E2.
Qed.

Lemma one_octet_apart_length (bs bs' : Buffer) :
  one_octet_apart bs bs' -> length bs = length bs'.
Proof.
  intros (pre & b & b' & post & -> & -> & _). now rewrite !length_app.
Qed.

Lemma one_octet_apart_neq (bs bs' : Buffer) : one_octet_apart bs bs' -> bs <> bs'.
Proof.
  intros (pre & b & b' & post & -> & -> & Hne) H.
  apply app_inv_head in H. congruence.
Qed.

Lemma blocks_fuel_enough (f f' : nat) (bs : Buffer) :
  (length bs <= f)%nat -> (length bs <= f')%nat ->
  GCM.blocks_fuel f bs = GCM.blocks_fuel f' bs.
Proof.
  revert f' bs. induction f as [|f IH]; intros f' bs Hf Hf'.
  - destruct bs; [|cbn in Hf; lia]. now destruct f'.
  - destruct bs as [|b r]; [now destruct f'|].
    destruct f' as [|f']; [cbn in Hf'; lia|].
    cbn [GCM.blocks_fuel]. f_equal.
    apply IH; rewrite length_skipn; cbn [length] in *; lia.
Qed.

Lemma blocks_unfold (b : byte) (r : Buffer) :
  GCM.blocks (b :: r)
  = GCM.pad_block (firstn 16 (b :: r)) :: GCM.blocks (skipn 16 (b :: r)).
Proof.
  unfold GCM.blocks. cbn [length GCM.blocks_fuel]. f_equal.
  apply blocks_fuel_enough; rewrite ?length_skipn; cbn [length]; lia.
Qed.

Lemma block_pad_block (chunk : Buffer) :
  (length chunk <= 16)%nat -> block (GCM.pad_block chunk).
Proof.
  intros Hl. unfold block, GCM.pad_block.
  pose proof (be_value_lt chunk) as Hv.
  change (2 ^ 128) with (256 ^ N.of_nat 16).
  replace (N.of_nat 16) with (N.of_nat (length chunk) + N.of_nat (16 - length chunk))
    by lia.
  rewrite N.pow_add_r.
  apply N.mul_lt_mono_pos_r; [|exact Hv].
  apply N.neq_0_lt_0, N.pow_nonzero. lia.
Qed.

Lemma pad_block_inj (c c' : Buffer) :
  length c = length c' -> GCM.pad_block c = GCM.pad_block c' -> c = c'.
Proof.
  intros Hl H. unfold GCM.pad_block in H. rewrite Hl in H.
  apply N.mul_cancel_r in H; [|apply N.pow_nonzero; lia].
  now apply be_value_inj.
Qed.

Lemma Forall_block_blocks_bounded (n : nat) (bs : Buffer) :
  (length bs <= n)%nat -> Forall block (GCM.blocks bs).
Proof.
  revert bs. induction n as [|n IH]; intros bs Hn.
  - destruct bs; [constructor|cbn in Hn; lia].
  - destruct bs as [|b r]; [constructor|].
    rewrite blocks_unfold. constructor.
    + apply block_pad_block. rewrite length_firstn. lia.
    + apply IH. rewrite length_skipn. cbn [length] in *. lia.
Qed.

Lemma Forall_block_blocks (bs : Buffer) : Forall block (GCM.blocks bs).
Proof. apply (Forall_block_blocks_bounded (length bs)). lia. Qed.

Lemma block_bit_length (bs : Buffer) : block (GCM.bit_length bs).
Proof.
  unfold block, GCM.bit_length.
  eapply N.lt_trans; [apply N.mod_upper_bound; discriminate|].
  reflexivity.
Qed.

Lemma blocks_one_octet_apart_bounded (n : nat) (bs bs' : Buffer) :
  (length bs <= n)%nat -> one_octet_apart bs bs' ->
  exists B1 X X' B2,
    GCM.blocks bs = B1 ++ X :: B2 /\ GCM.blocks bs' = B1 ++ X' :: B2 /\
    X <> X' /\ block X /\ block X'.
Proof.
  revert bs bs'. induction n as [|n IH]; intros bs bs' Hn Hd.
  - destruct Hd as (pre & b & b' & post & -> & _).
    rewrite length_app in Hn. cbn in Hn. lia.
  - destruct Hd as (pre & b & b' & post & E & E' & Hne).
    destruct (Nat.ltb_spec (length pre) 16) as [Hlt|Hge].
    + exists [], (GCM.pad_block (firstn 16 bs)), (GCM.pad_block (firstn 16 bs')),
        (GCM.blocks (skipn 16 bs)).
      assert (Hs : skipn 16 bs' = skipn 16 bs).
      { subst. rewrite !skipn_app.
        replace (16 - length pre)%nat with (S (15 - length pre)) by lia.
        reflexivity. }
      cbn [app]. repeat split.
      * subst bs. destruct pre; cbn [app]; apply blocks_unfold.
      * rewrite <- Hs. subst bs'. destruct pre; cbn [app]; apply blocks_unfold.
      * intros Hp. apply pad_block_inj in Hp.
        -- subst. rewrite !firstn_app in Hp.
           apply app_inv_head in Hp.
           replace (16 - length pre)%nat with (S (15 - length pre)) in Hp by lia.
           cbn [firstn] in Hp. congruence.
        -- subst. rewrite !length_firstn, !length_app. reflexivity.
      * apply block_pad_block. rewrite length_firstn. lia.
      * apply block_pad_block. rewrite length_firstn. lia.
    + destruct (IH (skipn 16 bs) (skipn 16 bs')) as (B1 & X & X' & B2 & H1 & H2 & H3).
      * rewrite length_skipn. subst bs. rewrite length_app in *. cbn [length] in *. lia.
      * exists (skipn 16 pre), b, b', post. subst.
        rewrite !skipn_app.
        replace (16 - length pre)%nat with 0%nat by lia.
        repeat split; auto.
      * exists (GCM.pad_block (firstn 16 bs) :: B1), X, X', B2.
        assert (Hf : firstn 16 bs' = firstn 16 bs).
        { subst. rewrite !firstn_app.
          replace (16 - length pre)%nat with 0%nat by lia. reflexivity. }
        cbn [app]. rewrite <- H1, <- H2. repeat split; try apply H3.
        -- subst bs. destruct pre; [cbn in Hge; lia|]. cbn [app]. apply blocks_unfold.
        -- rewrite <- Hf. subst bs'. destruct pre; [cbn in Hge; lia|].
           cbn [app]. apply blocks_unfold.
Qed.

Lemma blocks_one_octet_apart (bs bs' : Buffer) :
  one_octet_apart bs bs' ->
  exists B1 X X' B2,
    GCM.blocks bs = B1 ++ X :: B2 /\ GCM.blocks bs' = B1 ++ X' :: B2 /\
    X <> X' /\ block X /\ block X'.
Proof. apply (blocks_one_octet_apart_bounded (length bs)). lia. Qed.

Lemma Forall_app_cons_inv (B1 B2 : list N) (X : N) :
  Forall block (B1 ++ X :: B2) -> Forall block B1 /\ Forall block B2.
Proof.
  intros H. apply Forall_app in H as [H1 H2]. inversion H2. auto.
Qed.

(** GHASH of the hashed data, with its length block, tells the two apart. *)
Lemma ghash_data_one_octet_apart (H : N) (bs bs' : Buffer) :
  block H -> H <> 0 -> one_octet_apart bs bs' ->
  GCM.ghash_blocks H 0 (GCM.blocks bs ++ [GCM.bit_length bs])
  <> GCM.ghash_blocks H 0 (GCM.blocks bs' ++ [GCM.bit_length bs']).
Proof.
  intros HH Hne Hd.
  pose proof (one_octet_apart_length _ _ Hd) as Hl.
  pose proof (Forall_block_blocks bs) as Hall.
  destruct (blocks_one_octet_apart _ _ Hd) as (B1 & X & X' & B2 & E & E' & Hx & HX & HX').
  unfold GCM.bit_length. rewrite <- Hl. fold (GCM.bit_length bs).
  rewrite E, E' in *. rewrite <- !app_assoc. cbn [app].
  apply Forall_app_cons_inv in Hall as [Hb1 Hb2].
  apply ghash_blocks_single_difference; auto.
  apply Forall_app. split; [exact Hb2|].
  constructor; [apply block_bit_length|constructor].
Qed.

(** ** Tampering with an envelope *)

Lemma lxor_cancel_r (a b c : N) : N.lxor b a = N.lxor c a -> b = c.
Proof. rewrite !(N.lxor_comm _ a). apply lxor_cancel_l. Qed.

Lemma hash_subkey_unfold (key : Buffer) :
  GCM.hash_subkey key = AES.encrypt_block key 0.
Proof. reflexivity. Qed.

Lemma block_hash_subkey (key : Buffer) : block (GCM.hash_subkey key).
Proof. unfold GCM.hash_subkey. apply block_encrypt_block. Qed.

Opaque AES.encrypt_block GCM.gmul GCM.hash_subkey.

Lemma block_ghash (H : N) (c : Buffer) : block H -> block (GCM.ghash H c).
Proof. intros HH. unfold GCM.ghash. apply block_ghash_blocks; auto using block_0. Qed.

Lemma tag_ciphertext_sensitive (key iv c c' : Buffer) :
  GCM.hash_subkey key <> 0 -> one_octet_apart c c' ->
  GCM.tag key iv c' <> GCM.tag key iv c.
Proof.
  intros Hne Hd Heq. unfold GCM.tag in Heq.
  pose proof (block_hash_subkey key) as HH.
  apply be_bytes_16_inj in Heq;
    try (apply block_lxor; [now apply block_ghash|apply block_encrypt_block]).
  apply lxor_cancel_r in Heq. unfold GCM.ghash in Heq.
  apply (ghash_data_one_octet_apart _ _ _ HH Hne Hd). now symmetry.
Qed.

Lemma J0_sensitive (key iv iv' : Buffer) :
  GCM.hash_subkey key <> 0 -> length iv = 16%nat -> one_octet_apart iv iv' ->
  GCM.J0 key iv' <> GCM.J0 key iv.
Proof.
  intros Hne Hl Hd Heq.
  pose proof (one_octet_apart_length _ _ Hd) as Hl'.
  unfold GCM.J0 in Heq. rewrite <- Hl', Hl in Heq. cbn [Nat.eqb] in Heq.
  apply (ghash_data_one_octet_apart _ _ _ (block_hash_subkey key) Hne Hd).
  now symmetry.
Qed.

Lemma block_J0 (key iv : Buffer) : length iv = 16%nat -> block (GCM.J0 key iv).
Proof.
  intros Hl. unfold GCM.J0. rewrite Hl. cbn [Nat.eqb].
  apply block_ghash_blocks; [apply block_hash_subkey|apply block_0].
Qed.

Lemma tag_nonce_sensitive (key iv iv' c : Buffer) :
  GCM.hash_subkey key <> 0 -> length iv = 16%nat -> one_octet_apart iv iv' ->
  GCM.tag key iv' c <> GCM.tag key iv c.
Proof.
  intros Hne Hl Hd Heq. unfold GCM.tag in Heq.
  pose proof (one_octet_apart_length _ _ Hd) as Hl'.
  apply be_bytes_16_inj in Heq;
    try (apply block_lxor;
         [apply block_ghash, block_hash_subkey|apply block_encrypt_block]).
  apply lxor_cancel_l in Heq.
  apply encrypt_block_inj in Heq; try (apply block_J0; congruence).
  now apply (J0_sensitive key iv iv').
Qed.

(** ** One nonce, two keys: the tags of two ciphertexts that differ in the
    last block *)

Lemma xor_bytes_app (xs ys ks : Buffer) :
  (length xs <= length ks)%nat ->
  xor_bytes (xs ++ ys) ks
  = xor_bytes xs (firstn (length xs) ks) ++ xor_bytes ys (skipn (length xs) ks).
Proof.
  revert ks. induction xs as [|x xs IH]; intros [|k ks] H; cbn in *;
    try lia; try reflexivity.
  f_equal. apply IH. lia.
Qed.

Lemma xor_bytes_inj (t t' ks : Buffer) :
  length t = length t' -> (length t <= length ks)%nat ->
  xor_bytes t ks = xor_bytes t' ks -> t = t'.
Proof.
  intros Hl Hk E.
  rewrite <- (xor_bytes_involutive t ks), E by exact Hk.
  apply xor_bytes_involutive. lia.
Qed.

(** Under one key and one counter block, GCTR keeps the common part of two
    such buffers and keeps their last blocks apart. *)
Lemma gctr_differ_in_last_block (key : Buffer) (icb : N) (p p' : Buffer) :
  differ_in_last_block p p' ->
  differ_in_last_block (GCM.gctr key icb p) (GCM.gctr key icb p').
Proof.
  intros (pre & t & t' & -> & -> & Hm & Hl & H16 & Hne).
  unfold GCM.gctr. rewrite !length_app, <- Hl.
  set (ks := GCM.keystream _ key icb).
  assert (Hks : (length pre + length t <= length ks)%nat).
  { subst ks. rewrite keystream_length.
    pose proof (Nat.div_mod_eq (length pre + length t + 15) 16).
    pose proof (Nat.mod_upper_bound (length pre + length t + 15) 16). lia. }
  rewrite !xor_bytes_app by lia.
  exists (xor_bytes pre (firstn (length pre) ks)),
    (xor_bytes t (skipn (length pre) ks)), (xor_bytes t' (skipn (length pre) ks)).
  split; [reflexivity|]. split; [reflexivity|].
  assert (Hs : (length t <= length (skipn (length pre) ks))%nat)
    by (rewrite length_skipn; lia).
  split; [|split; [|split]].
  - rewrite xor_bytes_length, length_firstn.
    replace (Nat.min (length pre) (Nat.min (length pre) (length ks)))
      with (length pre) by lia.
    exact Hm.
  - rewrite !xor_bytes_length, Hl. reflexivity.
  - rewrite xor_bytes_length. lia.
  - intros E. apply Hne. now apply xor_bytes_inj in E.
Qed.

Lemma blocks_app_aligned (k : nat) (pre t : Buffer) :
  length pre = (16 * k)%nat ->
  GCM.blocks (pre ++ t) = GCM.blocks pre ++ GCM.blocks t.
Proof.
  revert pre. induction k as [|k IH]; intros pre Hl.
  - destruct pre; [reflexivity|discriminate].
  - destruct pre as [|b r]; [cbn in Hl; lia|].
    change ((b :: r) ++ t) with (b :: (r ++ t)). rewrite !blocks_unfold.
    change (b :: r ++ t) with ((b :: r) ++ t).
    rewrite firstn_app, skipn_app.
    replace (16 - length (b :: r))%nat with 0%nat by lia.
    rewrite firstn_O, skipn_O, app_nil_r.
    rewrite IH by (rewrite length_skipn; lia).
    reflexivity.
Qed.

Lemma blocks_single (t : Buffer) :
  t <> [] -> (length t <= 16)%nat -> GCM.blocks t = [GCM.pad_block t].
Proof.
  intros Hne Hl. destruct t as [|b r]; [contradiction|].
  rewrite blocks_unfold, firstn_all2, skipn_all2 by exact Hl. reflexivity.
Qed.

Lemma ghash_last_block (H : N) (pre t : Buffer) :
  (length pre mod 16 = 0)%nat -> t <> [] -> (length t <= 16)%nat ->
  GCM.ghash H (pre ++ t)
  = GCM.gmul
      (N.lxor (GCM.gmul (N.lxor (GCM.ghash_blocks H 0 (GCM.blocks pre))
                                (GCM.pad_block t)) H)
              (GCM.bit_length (pre ++ t))) H.
Proof.
  intros Hm Hne Hl. unfold GCM.ghash.
  rewrite (blocks_app_aligned (length pre / 16))
    by (pose proof (Nat.div_mod_eq (length pre) 16); lia).
  rewrite (blocks_single t) by assumption.
  rewrite !ghash_blocks_app. reflexivity.
Qed.

(** The difference of the two GHASH values is the difference of the last
    blocks times the square of the hash subkey. *)
Lemma ghash_differ_in_last_block (c c' : Buffer) :
  differ_in_last_block c c' ->
  exists D, block D /\ D <> 0 /\
    forall H, N.lxor (GCM.ghash H c) (GCM.ghash H c')
              = GCM.gmul (GCM.gmul D H) H.
Proof.
  intros (pre & t & t' & -> & -> & Hm & Hl & H16 & Hne).
  assert (Ht : t <> []) by (intros ->; destruct t'; [now apply Hne|discriminate]).
  assert (Ht' : t' <> []) by (intros ->; destruct t; [now apply Hne|discriminate]).
  exists (N.lxor (GCM.pad_block t) (GCM.pad_block t')).
  split; [|split].
  - apply block_lxor; apply block_pad_block; lia.
  - intros E. apply lxor_eq_0 in E. apply pad_block_inj in E; auto.
  - intros H.
    rewrite !ghash_last_block by (auto; lia).
    replace (GCM.bit_length (pre ++ t')) with (GCM.bit_length (pre ++ t))
      by (unfold GCM.bit_length; now rewrite !length_app, Hl).
    rewrite <- gmul_linear_l. f_equal.
    set (Y := GCM.ghash_blocks H 0 (GCM.blocks pre)).
    transitivity (N.lxor (GCM.gmul (N.lxor Y (GCM.pad_block t)) H)
                         (GCM.gmul (N.lxor Y (GCM.pad_block t')) H));
      [lxor_bits|].
    rewrite <- gmul_linear_l. f_equal. lxor_bits.
Qed.

Lemma gsq_eq_0 (z : N) : block z -> gsq z = 0 -> z = 0.
Proof.
  intros Hz E. destruct (N.eq_dec z 0) as [|Hne]; [assumption|].
  apply (gmul_cancel_r z 0 z Hz block_0 Hz Hne).
  rewrite gmul_0_l. exact E.
Qed.

Lemma gsq_inj (x y : N) : block x -> block y -> gsq x = gsq y -> x = y.
Proof.
  intros Hx Hy E. apply lxor_eq_0, gsq_eq_0; [now apply block_lxor|].
  rewrite gsq_linear by assumption. rewrite E. apply N.lxor_nilpotent.
Qed.

(** Two keys whose hash subkeys differ agree on the tag of at most one of
    two such ciphertexts. *)
Lemma tags_collide_at_most_once (K1 K2 iv c c' : Buffer) :
  GCM.hash_subkey K1 <> GCM.hash_subkey K2 ->
  differ_in_last_block c c' ->
  GCM.tag K2 iv c = GCM.tag K1 iv c ->
  GCM.tag K2 iv c' = GCM.tag K1 iv c' ->
  False.
Proof.
  intros Hne Hd E E'. unfold GCM.tag in E, E'.
  pose proof (block_hash_subkey K1) as HH1.
  pose proof (block_hash_subkey K2) as HH2.
  apply be_bytes_16_inj in E;
    try (apply block_lxor; [now apply block_ghash|apply block_encrypt_block]).
  apply be_bytes_16_inj in E';
    try (apply block_lxor; [now apply block_ghash|apply block_encrypt_block]).
  destruct (ghash_differ_in_last_block _ _ Hd) as (D & HD & HD0 & HG).
  assert (X : N.lxor (GCM.ghash (GCM.hash_subkey K2) c)
                     (GCM.ghash (GCM.hash_subkey K2) c')
              = N.lxor (GCM.ghash (GCM.hash_subkey K1) c)
                       (GCM.ghash (GCM.hash_subkey K1) c')).
  { set (e2 := AES.encrypt_block K2 (GCM.J0 K2 iv)) in *.
    set (e1 := AES.encrypt_block K1 (GCM.J0 K1 iv)) in *.
    set (a := GCM.ghash (GCM.hash_subkey K2) c) in *.
    set (a' := GCM.ghash (GCM.hash_subkey K2) c') in *.
    set (b := GCM.ghash (GCM.hash_subkey K1) c) in *.
    set (b' := GCM.ghash (GCM.hash_subkey K1) c') in *.
    transitivity (N.lxor (N.lxor a e2) (N.lxor a' e2)); [lxor_bits|].
    rewrite E, E'. lxor_bits. }
  rewrite !HG in X.
  rewrite !gmul_assoc in X by assumption.
  fold (gsq (GCM.hash_subkey K2)) in X. fold (gsq (GCM.hash_subkey K1)) in X.
  rewrite (gmul_comm D), (gmul_comm D (gsq (GCM.hash_subkey K1))) in X
    by auto using block_gsq.
  apply gmul_cancel_r in X; auto using block_gsq.
  apply gsq_inj in X; auto.
Qed.

(** When one key accepts an envelope made under another, the two keys give
    its nonce and ciphertext the same tag; and conversely. *)
Lemma accepted_envelope_iff (K1 K2 n : Buffer) (s : jsstring) :
  length K2 = 32%nat -> length n = 16%nat ->
  let env := envelope K1 n s in
  let c := GCM.encrypt_data K1 n (Utf8.encode s) in
  accepted K2 (EncryptionService.encryptedContent env)
           (EncryptionService.iv env) (EncryptionService.authTag env) = true
  <-> GCM.tag K2 n c = GCM.tag K1 n c.
Proof.
  intros Hk Hn env c. subst env c. unfold envelope, accepted.
  cbn [EncryptionService.encryptedContent EncryptionService.iv
       EncryptionService.authTag].
  rewrite !hex_decode_encode, Hk, Hn, gcm_tag_length, hex_encode_length.
  change ((16 =? 0)%nat || (128 <? 16)%nat) with false.
  cbn [Nat.eqb negb andb NodeCrypto.valid_gcm_tag_length Nat.leb orb].
  replace (Nat.even (2 * _)) with true
    by (symmetry; apply Nat.even_spec; now eexists).
  cbn [andb].
  rewrite <- (gcm_tag_length K2 n (GCM.encrypt_data K1 n (Utf8.encode s))) at 1.
  rewrite firstn_all. apply buffer_eqb_eq.
Qed.

(** * The claims *)

(** C1.  Round trip: with the service constructed from any configuration it
    accepts (hence any 32-octet key), for every well-formed plaintext [s] of
    any length, the empty string and the lengths up to 10,000 included,
    [encrypt(s)] returns an envelope, and [decrypt] of that envelope with the
    same service, whenever it is called later, returns exactly [s]. *)
Theorem C1_round_trip (w0 w1 : World) (svc : EncryptionService.t)
    (s : jsstring) (w : World) :
  EncryptionService.constructor w0 = (inr svc, w1) ->
  well_formed s = true ->
  exists env w',
    EncryptionService.encrypt svc s w = (inr env, w') /\
    forall w2, exists w3,
      EncryptionService.decrypt svc (EncryptionService.encryptedContent env)
        (EncryptionService.iv env) (EncryptionService.authTag env) w2
      = (inr s, w3).
Proof.
  intros Hc Hwf. apply constructor_key in Hc as [Hk _].
  do 2 eexists. split; [now apply encrypt_run|].
  intros w2. eexists.
  apply decrypt_envelope; auto using next_nonce_length.
Qed.

Lemma C1_round_trip_witness :
  EncryptionService.constructor sample_world = (inr sample_service, sample_world) /\
  well_formed (js "s3cr3t") = true /\
  exists env w',
    EncryptionService.encrypt sample_service (js "s3cr3t") sample_world = (inr env, w') /\
    forall w2, exists w3,
      EncryptionService.decrypt sample_service (EncryptionService.encryptedContent env)
        (EncryptionService.iv env) (EncryptionService.authTag env) w2
      = (inr (js "s3cr3t"), w3).
Proof.
  split; [reflexivity|]. split; [reflexivity|].
  apply (C1_round_trip sample_world sample_world); reflexivity.
Defined.

(** Towards C2.  Tamper detection, for every key whose hash subkey is not
    zero: after one bit of the ciphertext, of the nonce or of the tag of an
    envelope is flipped, [decrypt] with the same key raises DecryptionError
    and returns no text.  (Under a key whose hash subkey is zero GHASH is
    constantly zero and every ciphertext and nonce carries the same tag;
    see [zero_subkey_accepts_tampering] below.) *)
Theorem tamper_detected_unless_zero_subkey (svc : EncryptionService.t)
    (s : jsstring) (w w' w2 : World) (env : EncryptionService.EncryptionResult)
    (f : EnvelopeField) (i : nat) :
  length (EncryptionService.encryptionKey svc) = 32%nat ->
  GCM.hash_subkey (EncryptionService.encryptionKey svc) <> 0 ->
  EncryptionService.encrypt svc s w = (inr env, w') ->
  (i < 8 * length (field_octets f env))%nat ->
  let env' := flip_field f i env in
  fst (EncryptionService.decrypt svc (EncryptionService.encryptedContent env')
         (EncryptionService.iv env') (EncryptionService.authTag env') w2)
  = inl DecryptionError.
Proof.
  intros Hk Hne Henc Hi env'.
  rewrite encrypt_run in Henc by exact Hk. injection Henc as <- _.
  rewrite decrypt_outcome.
  set (key := EncryptionService.encryptionKey svc) in *.
  set (n := next_nonce w) in *.
  set (c := GCM.encrypt_data key n (Utf8.encode s)) in *.
  assert (Hn : length n = 16%nat) by apply next_nonce_length.
  assert (Hrej : accepted key (EncryptionService.encryptedContent env')
                   (EncryptionService.iv env') (EncryptionService.authTag env')
                 = false).
  { apply accepted_false_iff; [exact Hk|].
    right. right. right. right.
    subst env'. unfold envelope in *. fold c in Hi |- *.
    destruct f; cbn [flip_field field_octets EncryptionService.encryptedContent
                     EncryptionService.iv EncryptionService.authTag] in *;
      rewrite !hex_decode_encode in *;
      apply flip_bit_one_octet in Hi.
    - rewrite gcm_tag_length.
      rewrite <- (gcm_tag_length key n (flip_bit i c)) at 1. rewrite firstn_all.
      now apply tag_ciphertext_sensitive.
    - rewrite gcm_tag_length.
      rewrite <- (gcm_tag_length key (flip_bit i n) c) at 1. rewrite firstn_all.
      now apply tag_nonce_sensitive.
    - rewrite flip_bit_length, firstn_all.
      now apply one_octet_apart_neq. }
  destruct (decrypt_core_rejected _ _ _ _ Hrej) as [e ->]. reflexivity.
Qed.

Lemma ghash_blocks_zero_subkey (Y : N) (Xs : list N) :
  Xs <> [] -> GCM.ghash_blocks 0 Y Xs = 0.
Proof.
  intros Hne. destruct Xs as [|X Xs]; [contradiction|]. clear Hne.
  rewrite ghash_blocks_cons, gmul_0_r.
  induction Xs as [|X' Xs IH]; [reflexivity|].
  now rewrite ghash_blocks_cons, gmul_0_r.
Qed.

(** Under a key whose hash subkey is zero the tag no longer depends on the
    ciphertext or on a 16-octet nonce. *)
Lemma tag_zero_subkey (key iv c : Buffer) :
  GCM.hash_subkey key = 0 -> length iv = 16%nat ->
  GCM.tag key iv c = be_bytes 16 0.
Proof.
  intros H0 Hl.
  assert (HJ : GCM.J0 key iv = 0).
  { unfold GCM.J0. rewrite Hl, H0. cbn [Nat.eqb].
    apply ghash_blocks_zero_subkey. intros E. now apply app_eq_nil in E as [_ E]. }
  assert (HG : GCM.ghash (GCM.hash_subkey key) c = 0).
  { rewrite H0. unfold GCM.ghash.
    apply ghash_blocks_zero_subkey. intros E. now apply app_eq_nil in E as [_ E]. }
  unfold GCM.tag. rewrite HG, HJ, <- hash_subkey_unfold, H0. reflexivity.
Qed.

(** The converse of tamper detection: if some 32-octet key had a zero hash
    subkey, then under that key a flipped bit of the ciphertext or of the
    nonce would go unnoticed, and [decrypt] would return a text. *)
Lemma zero_subkey_accepts_tampering (svc : EncryptionService.t)
    (s : jsstring) (w w' w2 : World) (env : EncryptionService.EncryptionResult)
    (f : EnvelopeField) (i : nat) :
  length (EncryptionService.encryptionKey svc) = 32%nat ->
  GCM.hash_subkey (EncryptionService.encryptionKey svc) = 0 ->
  EncryptionService.encrypt svc s w = (inr env, w') ->
  f <> AuthTag ->
  let env' := flip_field f i env in
  exists text,
    fst (EncryptionService.decrypt svc (EncryptionService.encryptedContent env')
           (EncryptionService.iv env') (EncryptionService.authTag env') w2)
    = inr text.
Proof.
  intros Hk H0 Henc Hf env'.
  rewrite encrypt_run in Henc by exact Hk. injection Henc as <- _.
  rewrite decrypt_outcome.
  set (key := EncryptionService.encryptionKey svc) in *.
  set (n := next_nonce w) in *.
  assert (Hn : length n = 16%nat) by apply next_nonce_length.
  assert (Hacc : accepted key (EncryptionService.encryptedContent env')
                   (EncryptionService.iv env') (EncryptionService.authTag env')
                 = true).
  { subst env'. unfold envelope, accepted.
    destruct f; [| |contradiction];
      cbn [flip_field field_octets EncryptionService.encryptedContent
           EncryptionService.iv EncryptionService.authTag];
      rewrite !hex_decode_encode, Hk, ?flip_bit_length, Hn, gcm_tag_length,
        hex_encode_length;
      rewrite !tag_zero_subkey by (rewrite ?flip_bit_length; assumption);
      cbn [Nat.eqb negb andb NodeCrypto.valid_gcm_tag_length Nat.leb orb];
      (replace (Nat.even (2 * _)) with true
         by (symmetry; apply Nat.even_spec; now eexists));
      cbn [andb]; apply buffer_eqb_eq; reflexivity. }
  rewrite decrypt_core_accepted by exact Hacc. eauto.
Qed.

Transparent AES.encrypt_block GCM.gmul GCM.hash_subkey.

(** The all-zero key is one of the keys the statement covers; here the
    lowest bit of the first ciphertext octet is flipped. *)
Example tamper_detected_zero_key :
  GCM.hash_subkey (Hex.decode zero_key_hex) = 0xdc95c078a2408989ad48a21492842087 /\
  fst (EncryptionService.decrypt sample_service
         (js "d740ff38d0d9") (js "000102030405060708090a0b0c0d0e0f")
         (js "b1cc078832927be782d133648c866a33") sample_world)
  = inl DecryptionError.
Proof.
  split; [vm_compute; reflexivity|].
  assert (Henc :
    EncryptionService.encrypt sample_service (js "s3cr3t") sample_world
    = (inr (EncryptionService.mkResult (js "d640ff38d0d9")
              (js "000102030405060708090a0b0c0d0e0f")
              (js "b1cc078832927be782d133648c866a33")),
       snd (EncryptionService.encrypt sample_service (js "s3cr3t") sample_world)))
    by (vm_compute; reflexivity).
  refine (tamper_detected_unless_zero_subkey sample_service (js "s3cr3t")
            sample_world _ sample_world _ Ciphertext 0 eq_refl _ Henc _).
  - vm_compute. discriminate.
  - vm_compute. lia.
Qed.


(** The decoder looks only at the low octet of each code unit: 64 times
    U+0130, none of them a hexadecimal digit, are read like 64 zero digits
    and give the all-zero key. *)
Example low_octets_are_read_as_digits :
  Hex.valid (repeat 0x130 64) = false /\
  EncryptionService.constructor
    (mkWorld (Some (repeat 0x130 64)) false [] (fun _ => x00))
  = (inr sample_service,
     mkWorld (Some (repeat 0x130 64)) false [] (fun _ => x00)).
Proof. split; reflexivity. Qed.

(** C3, where the code departs from the claim.  The message with which
    [getEncryptionKey] refuses a key asks for 32 bytes written as 64
    hexadecimal characters, and the claim says that a key string that is not
    valid hexadecimal is refused.  The code checks only the number of octets
    decoded: the string of 66 characters made of 64 zero digits followed by
    "zz" is not valid hexadecimal, and initialization accepts it, with the
    same key as for the 64 zero digits alone, because [Buffer.from(key,
    'hex')] stops at the first pair it cannot decode. *)
Theorem C3_non_hex_key_accepted :
  EncryptionService.key_wrong_length
  = js "Encryption key must be 32 bytes (64 hex characters)" /\
  length padded_key_hex = 66%nat /\
  Hex.valid padded_key_hex = false /\
  EncryptionService.constructor
    (mkWorld (Some padded_key_hex) false [] (fun _ => x00))
  = (inr sample_service, mkWorld (Some padded_key_hex) false [] (fun _ => x00)) /\
  EncryptionService.constructor
    (mkWorld (Some zero_key_hex) false [] (fun _ => x00))
  = (inr sample_service, mkWorld (Some zero_key_hex) false [] (fun _ => x00)).
Proof. repeat split; reflexivity. Qed.




(** C5, where the code departs from the claim.  For the damaged record the
    listing catches the failure and reports the record as unreadable, while
    the read of that single record does not: the DecryptionError reaches the
    outer handler and the request is answered 500 "Internal server error". *)
Theorem C5_single_read_aborts :
  fst (EncryptionService.decrypt sample_service
         (SecretsController.encrypted_content damaged_record)
         (SecretsController.iv damaged_record)
         (SecretsController.auth_tag damaged_record) sample_world)
    = inl DecryptionError /\
  fst (SecretsController.getAllSecrets sample_service (js "u1")
         (SecretsController.mkQuery (Some [damaged_record]) None) sample_world)
    = inr (SecretsController.mkResponse 200
             (SecretsController.SuccessList
                [SecretsController.mkSecret (js "7") (js "wifi")
                   (js "[Decryption Error]") (js "2024-01-01") (js "2024-01-02")])) /\
  fst (SecretsController.getSecretById sample_service (js "u1") (js "7")
         (SecretsController.mkQuery (Some damaged_record) None) sample_world)
    = inr (SecretsController.mkResponse 500
             (SecretsController.Failure (js "Internal server error"))).
Proof. vm_compute. repeat split; reflexivity. Qed.

(** C6, as stated, fails: GCM does not commit to its key.  The envelope
    that [encrypt] produces for the 16-character secret below under the
    all-zero key K1, with the nonce drawn here, carries a tag that is also
    the tag of the same nonce and ciphertext under the key K2 that differs
    from K1 in its last bit; [decrypt] under K2 raises no error and returns
    a string, which is not the secret. *)
Lemma C6_counterexample :
  EncryptionService.constructor world_K1 = (inr sample_service, world_K1) /\
  EncryptionService.constructor world_K2 = (inr service_K2, world_K2) /\
  EncryptionService.encryptionKey sample_service
    <> EncryptionService.encryptionKey service_K2 /\
  length (EncryptionService.encryptionKey service_K2) = 32%nat /\
  exists env w',
    EncryptionService.encrypt sample_service (js "E_l]MI)D[{MqR.Wh") world_K1
      = (inr env, w') /\
    env = EncryptionService.mkResult (js "212a2bc597735ce458fe2fd6cc8462bc")
            (js "000000000000000000000100001574ae")
            (js "4532e5f5ba023ed97e594138d31fd9f5") /\
    exists garbled,
      fst (EncryptionService.decrypt service_K2
             (EncryptionService.encryptedContent env) (EncryptionService.iv env)
             (EncryptionService.authTag env) world_K2) = inr garbled /\
      garbled <> js "E_l]MI)D[{MqR.Wh".
Proof.
  split; [reflexivity|]. split; [reflexivity|].
  split; [vm_compute; discriminate|]. split; [reflexivity|].
  do 2 eexists. split; [vm_compute; reflexivity|]. split; [reflexivity|].
  eexists. split; [vm_compute; reflexivity|]. vm_compute. discriminate.
Qed.

(** C6, amended.  An envelope produced under K1 fails to decrypt under a
    32-octet key K2, with a DecryptionError, unless the GCM tag of its nonce
    and ciphertext under K2 coincides with its tag under K1; in that case,
    and only then, [decrypt] under K2 returns the text its own keystream
    yields.  When the hash subkeys of K1 and K2 differ (so K2 is not K1),
    such a coincidence is isolated: of the envelopes that [encrypt] produces
    under K1, from one state of the entropy source, for this secret and for
    another whose UTF-8 encoding has the same length and differs from it
    only within the last 16-octet block, at most one decrypts under K2. *)
Theorem C6_key_isolation (svc1 svc2 : EncryptionService.t) (s : jsstring)
    (w w' w2 : World) (env : EncryptionService.EncryptionResult) :
  length (EncryptionService.encryptionKey svc1) = 32%nat ->
  length (EncryptionService.encryptionKey svc2) = 32%nat ->
  EncryptionService.encrypt svc1 s w = (inr env, w') ->
  let K1 := EncryptionService.encryptionKey svc1 in
  let K2 := EncryptionService.encryptionKey svc2 in
  let nonce := Hex.decode (EncryptionService.iv env) in
  let c := Hex.decode (EncryptionService.encryptedContent env) in
  let outcome e :=
    fst (EncryptionService.decrypt svc2 (EncryptionService.encryptedContent e)
           (EncryptionService.iv e) (EncryptionService.authTag e) w2) in
  (GCM.tag K2 nonce c <> GCM.tag K1 nonce c ->
   outcome env = inl DecryptionError) /\
  (GCM.tag K2 nonce c = GCM.tag K1 nonce c ->
   outcome env = inr (Utf8.decode (GCM.decrypt_data K2 nonce c))) /\
  (GCM.hash_subkey K1 <> GCM.hash_subkey K2 ->
   forall (s' : jsstring) (env' : EncryptionService.EncryptionResult)
          (w'' : World),
     EncryptionService.encrypt svc1 s' w = (inr env', w'') ->
     differ_in_last_block (Utf8.encode s) (Utf8.encode s') ->
     outcome env = inl DecryptionError \/ outcome env' = inl DecryptionError).
Proof.
  intros Hk1 Hk2 Henc K1 K2 nonce c outcome.
  rewrite encrypt_run in Henc by exact Hk1. injection Henc as <- _.
  pose proof (next_nonce_length w) as Hn.
  assert (Hout : forall p,
    (accepted K2 (EncryptionService.encryptedContent (envelope K1 (next_nonce w) p))
       (EncryptionService.iv (envelope K1 (next_nonce w) p))
       (EncryptionService.authTag (envelope K1 (next_nonce w) p)) = false ->
     outcome (envelope K1 (next_nonce w) p) = inl DecryptionError) /\
    (accepted K2 (EncryptionService.encryptedContent (envelope K1 (next_nonce w) p))
       (EncryptionService.iv (envelope K1 (next_nonce w) p))
       (EncryptionService.authTag (envelope K1 (next_nonce w) p)) = true ->
     outcome (envelope K1 (next_nonce w) p)
     = inr (Utf8.decode
              (GCM.decrypt_data K2 (next_nonce w)
                 (GCM.encrypt_data K1 (next_nonce w) (Utf8.encode p)))))).
  { intros p. subst outcome. cbv beta. rewrite decrypt_outcome. fold K2. split; intros Ha.
    - destruct (decrypt_core_rejected _ _ _ _ Ha) as [e ->]. reflexivity.
    - rewrite decrypt_core_accepted by exact Ha.
      unfold envelope.
      cbn [EncryptionService.encryptedContent EncryptionService.iv].
      now rewrite !hex_decode_encode. }
  assert (Hnc : nonce = next_nonce w /\
                c = GCM.encrypt_data K1 (next_nonce w) (Utf8.encode s)).
  { subst nonce c. unfold envelope.
    cbn [EncryptionService.encryptedContent EncryptionService.iv].
    now rewrite !hex_decode_encode. }
  destruct Hnc as [-> ->].
  pose proof (accepted_envelope_iff K1 K2 (next_nonce w) s Hk2 Hn) as Hacc.
  cbv zeta in Hacc.
  split; [|split].
  - intros Hne. apply Hout.
    destruct (accepted K2 _ _ _) eqn:Ha; [|reflexivity].
    exfalso. apply Hne. now apply Hacc.
  - intros Heq. apply Hout. now apply Hacc.
  - intros HH s' env' w'' Henc' Hd.
    rewrite encrypt_run in Henc' by exact Hk1. injection Henc' as <- _.
    pose proof (accepted_envelope_iff K1 K2 (next_nonce w) s' Hk2 Hn) as Hacc'.
    cbv zeta in Hacc'.
    destruct (accepted K2
                (EncryptionService.encryptedContent (envelope K1 (next_nonce w) s))
                (EncryptionService.iv (envelope K1 (next_nonce w) s))
                (EncryptionService.authTag (envelope K1 (next_nonce w) s))) eqn:Ha;
      [|left; now apply Hout].
    destruct (accepted K2
                (EncryptionService.encryptedContent (envelope K1 (next_nonce w) s'))
                (EncryptionService.iv (envelope K1 (next_nonce w) s'))
                (EncryptionService.authTag (envelope K1 (next_nonce w) s'))) eqn:Ha';
      [|right; now apply Hout].
    exfalso.
    apply (tags_collide_at_most_once K1 K2 (next_nonce w) _ _ HH
             (gctr_differ_in_last_block K1 _ _ _ Hd)
             (proj1 Hacc eq_refl) (proj1 Hacc' eq_refl)).
Qed.

Lemma C6_key_isolation_witness :
  length (EncryptionService.encryptionKey sample_service) = 32%nat /\
  length (EncryptionService.encryptionKey service_K2) = 32%nat /\
  GCM.hash_subkey (EncryptionService.encryptionKey sample_service)
    <> GCM.hash_subkey (EncryptionService.encryptionKey service_K2) /\
  differ_in_last_block (Utf8.encode (js "E_l]MI)D[{MqR.Wh"))
                       (Utf8.encode (js "correct horse 16")) /\
  EncryptionService.encrypt sample_service (js "correct horse 16") world_K1
  = (inr (EncryptionService.mkResult (js "071a35eabf5901806bea10d4fb8a04e2")
            (js "000000000000000000000100001574ae")
            (js "165c1aa5e1031fadefec85e3e263c1c7")),
     snd (EncryptionService.encrypt sample_service (js "correct horse 16") world_K1)) /\
  fst (EncryptionService.decrypt service_K2
         (js "071a35eabf5901806bea10d4fb8a04e2")
         (js "000000000000000000000100001574ae")
         (js "165c1aa5e1031fadefec85e3e263c1c7") world_K2)
  = inl DecryptionError.
Proof.
  split; [reflexivity|]. split; [reflexivity|].
  assert (HH : GCM.hash_subkey (EncryptionService.encryptionKey sample_service)
               <> GCM.hash_subkey (EncryptionService.encryptionKey service_K2))
    by (vm_compute; discriminate).
  assert (Hd : differ_in_last_block (Utf8.encode (js "E_l]MI)D[{MqR.Wh"))
                                    (Utf8.encode (js "correct horse 16"))).
  { exists [], (Utf8.encode (js "E_l]MI)D[{MqR.Wh")),
      (Utf8.encode (js "correct horse 16")).
    split; [vm_compute; reflexivity|]. split; [vm_compute; reflexivity|].
    split; [reflexivity|].
    split; [vm_compute; reflexivity|]. split; [vm_compute; lia|].
    vm_compute. discriminate. }
  assert (Henc :
    EncryptionService.encrypt sample_service (js "E_l]MI)D[{MqR.Wh") world_K1
    = (inr (EncryptionService.mkResult (js "212a2bc597735ce458fe2fd6cc8462bc")
              (js "000000000000000000000100001574ae")
              (js "4532e5f5ba023ed97e594138d31fd9f5")),
       snd (EncryptionService.encrypt sample_service (js "E_l]MI)D[{MqR.Wh")
              world_K1)))
    by (vm_compute; reflexivity).
  assert (Henc' :
    EncryptionService.encrypt sample_service (js "correct horse 16") world_K1
    = (inr (EncryptionService.mkResult (js "071a35eabf5901806bea10d4fb8a04e2")
              (js "000000000000000000000100001574ae")
              (js "165c1aa5e1031fadefec85e3e263c1c7")),
       snd (EncryptionService.encrypt sample_service (js "correct horse 16")
              world_K1)))
    by (vm_compute; reflexivity).
  split; [exact HH|]. split; [exact Hd|]. split; [exact Henc'|].
  destruct (proj2 (proj2 (C6_key_isolation sample_service service_K2 _ world_K1 _
                            world_K2 _ eq_refl eq_refl Henc))
              HH _ _ _ Henc' Hd) as [H|H].
  - vm_compute in H. discriminate.
  - exact H.
Defined.

(** C7.  Shape of the envelope: for every plaintext, the decoded ciphertext
    is as long as the UTF-8 encoding of the plaintext, the decoded nonce and
    the decoded tag are 16 octets each, and the three fields are strings of
    hexadecimal digits (those [toString('hex')] writes). *)
Theorem C7_envelope_shape (w0 w1 : World) (svc : EncryptionService.t)
    (s : jsstring) (w : World) :
  EncryptionService.constructor w0 = (inr svc, w1) ->
  exists env w',
    EncryptionService.encrypt svc s w = (inr env, w') /\
    length (Hex.decode (EncryptionService.encryptedContent env))
      = length (Utf8.encode s) /\
    length (Hex.decode (EncryptionService.iv env)) = 16%nat /\
    length (Hex.decode (EncryptionService.authTag env)) = 16%nat /\
    Hex.valid (EncryptionService.encryptedContent env) = true /\
    Hex.valid (EncryptionService.iv env) = true /\
    Hex.valid (EncryptionService.authTag env) = true /\
    Hex.encode (Hex.decode (EncryptionService.encryptedContent env))
      = EncryptionService.encryptedContent env /\
    Hex.encode (Hex.decode (EncryptionService.iv env)) = EncryptionService.iv env /\
    Hex.encode (Hex.decode (EncryptionService.authTag env))
      = EncryptionService.authTag env.
Proof.
  intros Hc. apply constructor_key in Hc as [Hk _].
  do 2 eexists. split; [now apply encrypt_run|].
  unfold envelope.
  cbn [EncryptionService.encryptedContent EncryptionService.iv
       EncryptionService.authTag].
  rewrite !hex_decode_encode, !hex_encode_valid, gcm_encrypt_length,
    gcm_tag_length, next_nonce_length.
  repeat split; reflexivity.
Qed.

Lemma C7_envelope_shape_witness :
  EncryptionService.constructor sample_world = (inr sample_service, sample_world) /\
  exists env w',
    EncryptionService.encrypt sample_service (js "s3cr3t") sample_world = (inr env, w') /\
    length (Hex.decode (EncryptionService.encryptedContent env))
      = length (Utf8.encode (js "s3cr3t")) /\
    length (Hex.decode (EncryptionService.iv env)) = 16%nat /\
    length (Hex.decode (EncryptionService.authTag env)) = 16%nat /\
    Hex.valid (EncryptionService.encryptedContent env) = true /\
    Hex.valid (EncryptionService.iv env) = true /\
    Hex.valid (EncryptionService.authTag env) = true /\
    Hex.encode (Hex.decode (EncryptionService.encryptedContent env))
      = EncryptionService.encryptedContent env /\
    Hex.encode (Hex.decode (EncryptionService.iv env)) = EncryptionService.iv env /\
    Hex.encode (Hex.decode (EncryptionService.authTag env))
      = EncryptionService.authTag env.
Proof.
  split; [reflexivity|].
  apply (C7_envelope_shape sample_world sample_world). reflexivity.
Defined.

(** C8.  [decrypt] is deterministic: with the same cached key and the same
    three arguments, two runs give the same outcome (the same plaintext, or
    the same error) whatever the state of the process they start from, a
    second run after the first one included; a run changes nothing but the
    console. *)
Theorem C8_decrypt_deterministic (svc : EncryptionService.t)
    (c n t : jsstring) (w1 w2 : World) :
  fst (EncryptionService.decrypt svc c n t w1)
    = fst (EncryptionService.decrypt svc c n t w2) /\
  fst (EncryptionService.decrypt svc c n t
         (snd (EncryptionService.decrypt svc c n t w1)))
    = fst (EncryptionService.decrypt svc c n t w1) /\
  ENCRYPTION_KEY (snd (EncryptionService.decrypt svc c n t w1)) = ENCRYPTION_KEY w1 /\
  entropy (snd (EncryptionService.decrypt svc c n t w1)) = entropy w1.
Proof.
  rewrite !decrypt_run.
  destruct (decrypt_core (EncryptionService.encryptionKey svc) c n t);
    repeat split; reflexivity.
Qed.

(** C9.  With the service constructed, [encrypt] never throws: for every
    string the [try] block itself returns an [EncryptionResult], so the
    [catch] clause that rethrows "Failed to encrypt data" is never entered
    and [encrypt] returns that same result. *)
Theorem C9_encrypt_never_throws (w0 w1 : World) (svc : EncryptionService.t)
    (s : jsstring) (w : World) :
  EncryptionService.constructor w0 = (inr svc, w1) ->
  exists env w',
    EncryptionService.encrypt_try svc s w = (inr env, w') /\
    EncryptionService.encrypt svc s w = (inr env, w') /\
    fst (EncryptionService.encrypt svc s w) <> inl EncryptionError.
Proof.
  intros Hc. apply constructor_key in Hc as [Hk _].
  do 2 eexists. rewrite encrypt_run, encrypt_try_run by exact Hk.
  repeat split. cbn [fst]. discriminate.
Qed.

Lemma C9_encrypt_never_throws_witness :
  EncryptionService.constructor sample_world = (inr sample_service, sample_world) /\
  exists env w',
    EncryptionService.encrypt_try sample_service [0xD800] sample_world = (inr env, w') /\
    EncryptionService.encrypt sample_service [0xD800] sample_world = (inr env, w') /\
    fst (EncryptionService.encrypt sample_service [0xD800] sample_world)
      <> inl EncryptionError.
Proof.
  split; [reflexivity|].
  apply (C9_encrypt_never_throws sample_world sample_world). reflexivity.
Defined.

(** C10.  In the listing, a record whose decryption fails is returned with
    the content "[Decryption Error]"; and there is a plaintext, that very
    string, whose correctly stored and correctly decrypted record gets the
    same response as an undecryptable record with the same identifier, name
    and dates. *)
Theorem C10_marker_is_ambiguous (w0 w1 : World) (svc : EncryptionService.t) :
  EncryptionService.constructor w0 = (inr svc, w1) ->
  (forall userId before secret after w,
      fst (EncryptionService.decrypt svc
             (SecretsController.encrypted_content secret)
             (SecretsController.iv secret)
             (SecretsController.auth_tag secret) w) = inl DecryptionError ->
      exists items,
        fst (SecretsController.getAllSecrets svc userId
               (SecretsController.mkQuery (Some (before ++ secret :: after)) None) w)
        = inr (SecretsController.mkResponse 200 (SecretsController.SuccessList items)) /\
        nth_error items (length before)
        = Some (SecretsController.mkSecret (SecretsController.id secret)
                  (SecretsController.name_or_default (SecretsController.name secret))
                  (js "[Decryption Error]")
                  (SecretsController.created_at secret)
                  (SecretsController.updated_at secret))) /\
  (exists plaintext,
      forall userId id name created updated env w_enc w_enc' bad w w',
        EncryptionService.encrypt svc plaintext w_enc = (inr env, w_enc') ->
        SecretsController.id bad = id ->
        SecretsController.name bad = name ->
        SecretsController.created_at bad = created ->
        SecretsController.updated_at bad = updated ->
        fst (EncryptionService.decrypt svc
               (SecretsController.encrypted_content bad)
               (SecretsController.iv bad)
               (SecretsController.auth_tag bad) w') = inl DecryptionError ->
        fst (EncryptionService.decrypt svc (EncryptionService.encryptedContent env)
               (EncryptionService.iv env) (EncryptionService.authTag env) w)
          = inr plaintext /\
        fst (SecretsController.getAllSecrets svc userId
               (SecretsController.mkQuery
                  (Some [stored id name env created updated]) None) w)
        = fst (SecretsController.getAllSecrets svc userId
                 (SecretsController.mkQuery (Some [bad]) None) w')).
Proof.
  intros Hc. apply constructor_key in Hc as [Hk _]. split.
  - intros userId before secret after w Hfail.
    rewrite decrypt_outcome in Hfail.
    eexists. split; [apply getAllSecrets_items|].
    rewrite map_app, nth_error_app2 by (rewrite length_map; lia).
    rewrite length_map, Nat.sub_diag. cbn [map nth_error].
    unfold list_item.
    destruct (decrypt_core _ _ _ _); [reflexivity|discriminate].
  - exists (js "[Decryption Error]").
    intros userId id name created updated env w_enc w_enc' bad w w'
      Henc Hid Hname Hcr Hup Hfail.
    rewrite encrypt_run in Henc by exact Hk. injection Henc as <- _.
    pose proof (decrypt_envelope svc (next_nonce w_enc) (js "[Decryption Error]") w
                  Hk (next_nonce_length w_enc) eq_refl) as Hgood.
    cbv zeta in Hgood.
    split; [now rewrite Hgood|].
    rewrite !getAllSecrets_items. do 3 f_equal. cbn [map]. f_equal.
    unfold list_item, stored.
    cbn [SecretsController.id SecretsController.name
         SecretsController.encrypted_content SecretsController.iv
         SecretsController.auth_tag SecretsController.created_at
         SecretsController.updated_at].
    rewrite decrypt_outcome in Hfail.
    pose proof (f_equal fst Hgood) as Hg. rewrite decrypt_outcome in Hg.
    cbn [fst] in Hg.
    destruct (decrypt_core _ (EncryptionService.encryptedContent _) _ _);
      [discriminate|].
    injection Hg as ->.
    destruct (decrypt_core _ (SecretsController.encrypted_content bad) _ _);
      [|discriminate].
    subst. reflexivity.
Qed.

Lemma C10_marker_is_ambiguous_witness :
  EncryptionService.constructor sample_world = (inr sample_service, sample_world) /\
  exists items,
    fst (SecretsController.getAllSecrets sample_service (js "u1")
           (SecretsController.mkQuery (Some ([] ++ damaged_record :: [])) None)
           sample_world)
    = inr (SecretsController.mkResponse 200 (SecretsController.SuccessList items)) /\
    nth_error items 0
    = Some (SecretsController.mkSecret (js "7") (js "wifi")
              (js "[Decryption Error]") (js "2024-01-01") (js "2024-01-02")).
Proof.
  split; [reflexivity|].
  apply (proj1 (C10_marker_is_ambiguous sample_world sample_world sample_service
                  eq_refl) (js "u1") [] damaged_record [] sample_world).
  vm_compute. reflexivity.
Defined.

(** * Further properties of the code *)

(** ** The service: key generation, nonces, ill-formed text, the console *)

Lemma constructor_accepts_hex (k : jsstring) (w : World) :
  ENCRYPTION_KEY w = Some k -> length (Hex.decode k) = 32%nat ->
  EncryptionService.constructor w = (inr (EncryptionService.mk (Hex.decode k)), w).
Proof.
  intros Hk Hl. rewrite constructor_run, getEncryptionKey_run, Hk.
  destruct k as [|c k]; [discriminate|].
  rewrite Hl. reflexivity.
Qed.

(** X1.  The key that [generateEncryptionKey] returns is always one the
    service accepts: 64 lowercase hexadecimal digits that spell the 32
    octets drawn from the random source, and a process started with it as
    ENCRYPTION_KEY constructs the service with exactly those octets. *)
Theorem generated_key_is_accepted (w : World) :
  exists k w1,
    EncryptionService.generateEncryptionKey w = (inr k, w1) /\
    length k = 64%nat /\
    Hex.valid k = true /\
    Hex.encode (Hex.decode k) = k /\
    Hex.decode k = map (entropy w) (seq 0 32) /\
    forall dev lines ent,
      EncryptionService.constructor (mkWorld (Some k) dev lines ent)
      = (inr (EncryptionService.mk (map (entropy w) (seq 0 32))),
         mkWorld (Some k) dev lines ent).
Proof.
  do 2 eexists. split; [reflexivity|].
  rewrite hex_decode_encode, hex_encode_valid, hex_encode_length, length_map, length_seq.
  repeat split.
  intros dev lines ent.
  rewrite <- (hex_decode_encode (map (entropy w) (seq 0 32))) at 2.
  apply constructor_accepts_hex; [reflexivity|].
  now rewrite hex_decode_encode, length_map, length_seq.
Qed.

Lemma map_seq_shift {A} (f : nat -> A) (n a m : nat) :
  map (fun i => f (i + n)%nat) (seq a m) = map f (seq (a + n) m).
Proof.
  revert a. induction m as [|m IH]; intros a; [reflexivity|].
  cbn [seq map]. f_equal. apply (IH (S a)).
Qed.

(** X2.  The nonce of an envelope is the next 16 octets of the random
    source and nothing else: it does not depend on the key or on the
    plaintext, and two calls in a row take the octets 0..15 and 16..31, so
    no octet of the source is used twice. *)
Theorem nonces_are_successive_entropy (svc1 svc2 : EncryptionService.t)
    (s1 s2 : jsstring) (w : World) :
  length (EncryptionService.encryptionKey svc1) = 32%nat ->
  length (EncryptionService.encryptionKey svc2) = 32%nat ->
  exists env1 w1 env2 w2,
    EncryptionService.encrypt svc1 s1 w = (inr env1, w1) /\
    EncryptionService.encrypt svc2 s2 w1 = (inr env2, w2) /\
    Hex.decode (EncryptionService.iv env1) = map (entropy w) (seq 0 16) /\
    Hex.decode (EncryptionService.iv env2) = map (entropy w) (seq 16 16) /\
    forall i, entropy w2 i = entropy w (i + 32)%nat.
Proof.
  intros H1 H2. do 4 eexists.
  split; [now apply encrypt_run|]. split; [now apply encrypt_run|].
  unfold envelope. cbn [EncryptionService.iv].
  rewrite !hex_decode_encode. split; [reflexivity|]. split.
  - unfold next_nonce, EncryptionService.ivLength.
    cbn [write_log consume_entropy entropy].
    apply (map_seq_shift (entropy w) 16 0 16).
  - intros i. cbn [write_log consume_entropy entropy]. f_equal. lia.
Qed.

Lemma nonces_are_successive_entropy_witness :
  exists env1 w1 env2 w2,
    EncryptionService.encrypt sample_service (js "s3cr3t") sample_world = (inr env1, w1) /\
    EncryptionService.encrypt service_K2 (js "other") w1 = (inr env2, w2) /\
    Hex.decode (EncryptionService.iv env1) = map (entropy sample_world) (seq 0 16) /\
    Hex.decode (EncryptionService.iv env2) = map (entropy sample_world) (seq 16 16) /\
    forall i, entropy w2 i = entropy sample_world (i + 32)%nat.
Proof.
  apply (nonces_are_successive_entropy sample_service service_K2); reflexivity.
Defined.

Lemma utf8_write_replacement (rest : Buffer) :
  Utf8.write Utf8.initial (Utf8.replacement ++ rest) =
  let '(o, st) := Utf8.write Utf8.initial rest in (0xFFFD :: o, st).
Proof.
  change Utf8.replacement with (Utf8.encode_code_point 0xFFFD).
  rewrite utf8_write_code_point by (unfold scalar_value; lia).
  now destruct (Utf8.write Utf8.initial rest).
Qed.

Lemma utf8_write_encode_any_bounded (n : nat) (s : jsstring) (rest : Buffer) :
  (length s <= n)%nat -> code_units s = true ->
  Utf8.write Utf8.initial (Utf8.encode s ++ rest) =
  let '(o, st) := Utf8.write Utf8.initial rest in (toWellFormed s ++ o, st).
Proof.
  revert s rest. induction n as [|n IH]; intros s rest Hlen Hcu.
  - destruct s; [|cbn in Hlen; lia].
    cbn. now destruct (Utf8.write Utf8.initial rest).
  - destruct s as [|c r].
    { cbn. now destruct (Utf8.write Utf8.initial rest). }
    cbn [code_units forallb] in Hcu. apply andb_true_iff in Hcu as [Hc Hr].
    fold (code_units r) in Hr. apply N.ltb_lt in Hc.
    cbn [length] in Hlen.
    cbn [Utf8.encode toWellFormed].
    destruct (is_high_surrogate c) eqn:Hhi.
    + destruct r as [|d r'].
      * rewrite utf8_write_replacement.
        now destruct (Utf8.write Utf8.initial rest).
      * destruct (is_low_surrogate d) eqn:Hlo.
        -- destruct (emit_pair c d Hhi Hlo) as [Hsv Hemit].
           cbn [code_units forallb] in Hr. apply andb_true_iff in Hr as [_ Hr'].
           fold (code_units r') in Hr'.
           rewrite <- app_assoc, utf8_write_code_point by exact Hsv.
           rewrite IH by (cbn [length] in Hlen; auto; lia).
           destruct (Utf8.write Utf8.initial rest). now rewrite Hemit.
        -- rewrite <- app_assoc, utf8_write_replacement.
           rewrite IH by (auto; lia).
           now destruct (Utf8.write Utf8.initial rest).
    + destruct (is_low_surrogate c) eqn:Hlo.
      * rewrite <- app_assoc, utf8_write_replacement.
        rewrite IH by (auto; lia).
        now destruct (Utf8.write Utf8.initial rest).
      * destruct (emit_unit c Hhi Hlo Hc) as [Hsv Hemit].
        rewrite <- app_assoc, utf8_write_code_point by exact Hsv.
        rewrite IH by (auto; lia).
        destruct (Utf8.write Utf8.initial rest). now rewrite Hemit.
Qed.

Lemma utf8_decode_encode_any (s : jsstring) :
  code_units s = true -> Utf8.decode (Utf8.encode s) = toWellFormed s.
Proof.
  intros Hcu. unfold Utf8.decode.
  rewrite <- (app_nil_r (Utf8.encode s)).
  rewrite (utf8_write_encode_any_bounded (length s)) by auto.
  cbn. now rewrite !app_nil_r.
Qed.

Lemma toWellFormed_fixed_bounded (n : nat) (s : jsstring) :
  (length s <= n)%nat -> code_units s = true ->
  (toWellFormed s = s <-> well_formed s = true).
Proof.
  revert s. induction n as [|n IH]; intros s Hlen Hcu.
  - destruct s; [|cbn in Hlen; lia]. cbn. tauto.
  - destruct s as [|c r]; [cbn; tauto|].
    cbn [code_units forallb] in Hcu. apply andb_true_iff in Hcu as [Hc Hr].
    fold (code_units r) in Hr.
    cbn [length] in Hlen.
    cbn [toWellFormed well_formed].
    destruct (is_high_surrogate c) eqn:Hhi.
    + assert (Hne : 0xFFFD <> c).
      { unfold is_high_surrogate in Hhi. apply andb_true_iff in Hhi as [_ H2].
        apply N.leb_le in H2. lia. }
      destruct r as [|d r'].
      * split; [intros [= ?]; contradiction|discriminate].
      * cbn [code_units forallb] in Hr. apply andb_true_iff in Hr as [_ Hr'].
        fold (code_units r') in Hr'. cbn [length] in Hlen.
        destruct (is_low_surrogate d) eqn:Hlo; cbn [andb].
        -- rewrite <- (IH r') by (auto; lia).
           split; [intros [= ->]; reflexivity|intros ->; reflexivity].
        -- split; [intros [= ? _]; contradiction|discriminate].
    + destruct (is_low_surrogate c) eqn:Hlo.
      * assert (Hne : 0xFFFD <> c).
        { unfold is_low_surrogate in Hlo. apply andb_true_iff in Hlo as [_ H2].
          apply N.leb_le in H2. lia. }
        split; [intros [= ? _]; contradiction|discriminate].
      * rewrite Hc. cbn [andb]. rewrite <- (IH r) by (auto; lia).
        split; [intros [= ->]; reflexivity|intros ->; reflexivity].
Qed.

(** X3.  The round trip on every JavaScript string, ill-formed ones
    included: decrypting the envelope of [s] returns [s.toWellFormed()],
    that is [s] with every unpaired surrogate replaced by U+FFFD; this is
    [s] itself exactly when [s] is well-formed Unicode text. *)
Theorem round_trip_any_string (svc : EncryptionService.t) (s : jsstring)
    (w w' : World) :
  length (EncryptionService.encryptionKey svc) = 32%nat ->
  code_units s = true ->
  exists env w1,
    EncryptionService.encrypt svc s w = (inr env, w1) /\
    fst (EncryptionService.decrypt svc (EncryptionService.encryptedContent env)
           (EncryptionService.iv env) (EncryptionService.authTag env) w')
    = inr (toWellFormed s) /\
    (toWellFormed s = s <-> well_formed s = true).
Proof.
  intros Hk Hcu. do 2 eexists. split; [now apply encrypt_run|].
  split; [|now apply (toWellFormed_fixed_bounded (length s))].
  rewrite decrypt_outcome, decrypt_core_accepted
    by (apply envelope_accepted; [exact Hk|apply next_nonce_length]).
  unfold envelope.
  cbn [EncryptionService.encryptedContent EncryptionService.iv
       EncryptionService.authTag].
  rewrite !hex_decode_encode, gcm_decrypt_encrypt, utf8_decode_encode_any by exact Hcu.
  reflexivity.
Qed.

Lemma round_trip_any_string_witness :
  exists env w1,
    EncryptionService.encrypt sample_service [0x61; 0xD83D; 0x62; 0xDE00] sample_world
      = (inr env, w1) /\
    fst (EncryptionService.decrypt sample_service
           (EncryptionService.encryptedContent env)
           (EncryptionService.iv env) (EncryptionService.authTag env) sample_world)
    = inr (toWellFormed [0x61; 0xD83D; 0x62; 0xDE00]) /\
    (toWellFormed [0x61; 0xD83D; 0x62; 0xDE00] = [0x61; 0xD83D; 0x62; 0xDE00]
     <-> well_formed [0x61; 0xD83D; 0x62; 0xDE00] = true).
Proof.
  apply (round_trip_any_string sample_service [0x61; 0xD83D; 0x62; 0xDE00]
           sample_world sample_world); reflexivity.
Defined.

Lemma decrypt_core_error (key : Buffer) (c n t : jsstring) (e : exn) :
  length key = 32%nat ->
  decrypt_core key c n t = inl e ->
  message e = js "Invalid initialization vector" \/
  message e = js "Invalid authentication tag length: "
              ++ NodeCrypto.decimal (length (Hex.decode t)) \/
  message e = js "The argument 'encoding' is invalid for data of length "
              ++ NodeCrypto.decimal (length c) ++ js ". Received 'hex'" \/
  message e = js "Unsupported state or unable to authenticate data".
Proof.
  intros Hk.
  unfold decrypt_core, NodeCrypto.createDecipheriv, NodeCrypto.check_cipher_args.
  unfold EncryptionService.algorithm. rewrite js_eqb_refl. cbn [negb].
  rewrite Hk. cbn [Nat.eqb negb].
  destruct ((length (Hex.decode n) =? 0)%nat || (128 <? length (Hex.decode n))%nat);
    [intros [= <-]; auto|].
  unfold NodeCrypto.setAuthTag. cbn [NodeCrypto.d_tag NodeCrypto.d_final].
  destruct (NodeCrypto.valid_gcm_tag_length _); [|intros [= <-]; auto].
  unfold NodeCrypto.decipher_update.
  cbn [NodeCrypto.d_final NodeCrypto.d_input NodeCrypto.d_key NodeCrypto.d_iv
       NodeCrypto.d_utf8 NodeCrypto.d_tag length app skipn].
  destruct (Nat.odd (length c)); [intros [= <-]; auto|].
  destruct (Utf8.write Utf8.initial _) as [text st].
  unfold NodeCrypto.decipher_final.
  cbn [NodeCrypto.d_final NodeCrypto.d_input NodeCrypto.d_key NodeCrypto.d_iv
       NodeCrypto.d_utf8 NodeCrypto.d_tag].
  destruct (NodeCrypto.buffer_eqb _ _); [discriminate|intros [= <-]; auto 6].
Qed.

(** X4.  What the service writes to the console.  [encrypt] writes one
    line, the constant "Data encrypted successfully", whatever the key and
    the plaintext.  [decrypt] writes one line: the constant "Data decrypted
    successfully", or "Decryption failed: " followed by one of four runtime
    messages, which mention at most the length of the decoded tag or of the
    ciphertext string.  Neither the key, nor the plaintext, nor the content
    of an envelope field is ever logged. *)
Theorem service_console_lines (svc : EncryptionService.t) (s c n t : jsstring)
    (w : World) :
  length (EncryptionService.encryptionKey svc) = 32%nat ->
  console (snd (EncryptionService.encrypt svc s w))
  = console w ++ [mkLog INFO (js "EncryptionService") (js "Data encrypted successfully")] /\
  exists line,
    console (snd (EncryptionService.decrypt svc c n t w)) = console w ++ [line] /\
    (line = mkLog INFO (js "EncryptionService") (js "Data decrypted successfully") \/
     exists m,
       line = mkLog ERROR (js "EncryptionService") (js "Decryption failed: " ++ m) /\
       (m = js "Invalid initialization vector" \/
        m = js "Invalid authentication tag length: "
            ++ NodeCrypto.decimal (length (Hex.decode t)) \/
        m = js "The argument 'encoding' is invalid for data of length "
            ++ NodeCrypto.decimal (length c) ++ js ". Received 'hex'" \/
        m = js "Unsupported state or unable to authenticate data")).
Proof.
  intros Hk. split.
  - rewrite encrypt_run by exact Hk. reflexivity.
  - rewrite decrypt_run.
    destruct (decrypt_core _ c n t) as [e|text] eqn:E.
    + eexists. split; [reflexivity|]. right. eexists. split; [reflexivity|].
      exact (decrypt_core_error _ _ _ _ _ Hk E).
    + eexists. split; [reflexivity|]. now left.
Qed.

Lemma service_console_lines_witness :
  console (snd (EncryptionService.encrypt sample_service (js "s3cr3t") sample_world))
  = console sample_world
    ++ [mkLog INFO (js "EncryptionService") (js "Data encrypted successfully")] /\
  exists line,
    console (snd (EncryptionService.decrypt sample_service
                    (js "d640ff38d0d9") (js "000102030405060708090a0b0c0d0e0f")
                    (js "b1cc") sample_world))
    = console sample_world ++ [line] /\
    (line = mkLog INFO (js "EncryptionService") (js "Data decrypted successfully") \/
     exists m,
       line = mkLog ERROR (js "EncryptionService") (js "Decryption failed: " ++ m) /\
       (m = js "Invalid initialization vector" \/
        m = js "Invalid authentication tag length: "
            ++ NodeCrypto.decimal (length (Hex.decode (js "b1cc"))) \/
        m = js "The argument 'encoding' is invalid for data of length "
            ++ NodeCrypto.decimal (length (js "d640ff38d0d9")) ++ js ". Received 'hex'" \/
        m = js "Unsupported state or unable to authenticate data")).
Proof.
  apply (service_console_lines sample_service (js "s3cr3t")). reflexivity.
Defined.

Lemma unhex_upper (c : N) : Hex.unhex (hex_upper c) = Hex.unhex c.
Proof.
  unfold hex_upper.
  destruct ((97 <=? c) && (c <=? 102)) eqn:E; [|reflexivity].
  apply andb_true_iff in E as [H1 H2]. apply N.leb_le in H1, H2.
  unfold Hex.unhex. rewrite !N.mod_small by lia.
  unfold Hex.digit_value. eval_cmp. f_equal. lia.
Qed.

Lemma hex_decode_upper_bounded (k : nat) (s : jsstring) :
  (length s <= k)%nat -> Hex.decode (map hex_upper s) = Hex.decode s.
Proof.
  revert s. induction k as [|k IH]; intros s Hlen.
  - destruct s; [reflexivity|cbn in Hlen; lia].
  - destruct s as [|a [|b r]]; [reflexivity|reflexivity|].
    cbn [map Hex.decode length] in *. rewrite !unhex_upper, IH by lia.
    reflexivity.
Qed.

Lemma hex_decode_upper (s : jsstring) :
  Hex.decode (map hex_upper s) = Hex.decode s.
Proof. apply (hex_decode_upper_bounded (length s)). lia. Qed.

(** X5.  [decrypt] reads the three fields without regard to the case of
    the hexadecimal digits: an envelope whose digits a..f are written A..F
    gets the same outcome, plaintext or error, and leaves the same trace in
    the process. *)
Theorem decrypt_ignores_hex_case (svc : EncryptionService.t) (c n t : jsstring)
    (w : World) :
  EncryptionService.decrypt svc (map hex_upper c) (map hex_upper n)
                            (map hex_upper t) w
  = EncryptionService.decrypt svc c n t w.
Proof.
  rewrite !decrypt_run. unfold decrypt_core, NodeCrypto.decipher_update.
  rewrite !hex_decode_upper, !length_map. reflexivity.
Qed.

(** ** The write handlers *)

Lemma createSecret_run (svc : EncryptionService.t) (userId : jsstring)
    (name : option jsstring) (content : jsstring)
    (insert : SecretsWrites.InsertRow
              -> SecretsController.QueryResult SecretsWrites.SavedRow)
    (w : World) :
  length (EncryptionService.encryptionKey svc) = 32%nat ->
  let env := envelope (EncryptionService.encryptionKey svc) (next_nonce w) content in
  fst (SecretsWrites.createSecret svc userId name content insert w) =
  inr (match insert (row_of userId name env) with
       | SecretsController.mkQuery _ (Some _) =>
           SecretsWrites.mkResponse 500
             (SecretsWrites.Failure (js "Failed to create secret"))
       | SecretsController.mkQuery (Some saved) None =>
           SecretsWrites.mkResponse 201
             (SecretsWrites.Saved
                (SecretsWrites.mkSavedSecret
                   (SecretsWrites.s_id saved) (SecretsWrites.s_name saved) content
                   (SecretsWrites.s_created_at saved)
                   (SecretsWrites.s_updated_at saved))
                (js "Secret created successfully"))
       | SecretsController.mkQuery None None =>
           SecretsWrites.mkResponse 500
             (SecretsWrites.Failure (js "Internal server error"))
       end).
Proof.
  intros Hk env.
  unfold SecretsWrites.createSecret, try_catch.
  unfold bind at 1. unfold logDebug at 1. unfold log at 1. cbv beta iota.
  unfold bind at 1. rewrite encrypt_run by exact Hk.
  change (next_nonce _) with (next_nonce w). fold env. cbv beta iota zeta.
  fold (row_of userId name env).
  destruct (insert (row_of userId name env)) as [[saved|] [msg|]]; reflexivity.
Qed.

Lemma name_or_default_idem (name : option jsstring) :
  SecretsController.name_or_default (Some (SecretsController.name_or_default name))
  = SecretsController.name_or_default name.
Proof. destruct name as [[|c n]|]; reflexivity. Qed.

Lemma read_envelope (svc : EncryptionService.t) (nonce : Buffer) (s : jsstring) :
  length (EncryptionService.encryptionKey svc) = 32%nat ->
  length nonce = 16%nat ->
  code_units s = true ->
  let env := envelope (EncryptionService.encryptionKey svc) nonce s in
  decrypt_core (EncryptionService.encryptionKey svc)
    (EncryptionService.encryptedContent env) (EncryptionService.iv env)
    (EncryptionService.authTag env)
  = inr (toWellFormed s).
Proof.
  intros Hk Hn Hcu env.
  rewrite decrypt_core_accepted by now apply envelope_accepted.
  unfold env, envelope.
  cbn [EncryptionService.encryptedContent EncryptionService.iv
       EncryptionService.authTag].
  now rewrite !hex_decode_encode, gcm_decrypt_encrypt, utf8_decode_encode_any.
Qed.

(** X6.  [createSecret] hands the database one row, and the row carries the
    envelope that [encrypt] returns for the content, the user id and the
    name (or "Untitled Secret"); the plaintext is only echoed in the 201
    answer.  The answer is decided by what the database returns for that
    row: an error gives 500 "Failed to create secret", a saved row gives
    201, and the text of a database error never reaches the client. *)
Theorem createSecret_stores_the_envelope (w0 w1 : World)
    (svc : EncryptionService.t) (userId : jsstring) (name : option jsstring)
    (content : jsstring) (w : World) :
  EncryptionService.constructor w0 = (inr svc, w1) ->
  exists env w',
    EncryptionService.encrypt svc content w = (inr env, w') /\
    forall insert,
      fst (SecretsWrites.createSecret svc userId name content insert w) =
      inr (match insert (SecretsWrites.mkInsert userId
                           (SecretsController.name_or_default name)
                           (EncryptionService.encryptedContent env)
                           (EncryptionService.iv env)
                           (EncryptionService.authTag env)) with
           | SecretsController.mkQuery _ (Some _) =>
               SecretsWrites.mkResponse 500
                 (SecretsWrites.Failure (js "Failed to create secret"))
           | SecretsController.mkQuery (Some saved) None =>
               SecretsWrites.mkResponse 201
                 (SecretsWrites.Saved
                    (SecretsWrites.mkSavedSecret
                       (SecretsWrites.s_id saved) (SecretsWrites.s_name saved) content
                       (SecretsWrites.s_created_at saved)
                       (SecretsWrites.s_updated_at saved))
                    (js "Secret created successfully"))
           | SecretsController.mkQuery None None =>
               SecretsWrites.mkResponse 500
                 (SecretsWrites.Failure (js "Internal server error"))
           end).
Proof.
  intros Hc. apply constructor_key in Hc as [Hk _].
  do 2 eexists. split; [now apply encrypt_run|].
  intros insert. now apply createSecret_run.
Qed.

Lemma createSecret_stores_the_envelope_witness :
  exists env w',
    EncryptionService.encrypt sample_service (js "s3cr3t") sample_world = (inr env, w') /\
    forall insert,
      fst (SecretsWrites.createSecret sample_service (js "u1") None (js "s3cr3t")
             insert sample_world) =
      inr (match insert (SecretsWrites.mkInsert (js "u1")
                           (SecretsController.name_or_default None)
                           (EncryptionService.encryptedContent env)
                           (EncryptionService.iv env)
                           (EncryptionService.authTag env)) with
           | SecretsController.mkQuery _ (Some _) =>
               SecretsWrites.mkResponse 500
                 (SecretsWrites.Failure (js "Failed to create secret"))
           | SecretsController.mkQuery (Some saved) None =>
               SecretsWrites.mkResponse 201
                 (SecretsWrites.Saved
                    (SecretsWrites.mkSavedSecret
                       (SecretsWrites.s_id saved) (SecretsWrites.s_name saved)
                       (js "s3cr3t")
                       (SecretsWrites.s_created_at saved)
                       (SecretsWrites.s_updated_at saved))
                    (js "Secret created successfully"))
           | SecretsController.mkQuery None None =>
               SecretsWrites.mkResponse 500
                 (SecretsWrites.Failure (js "Internal server error"))
           end).
Proof.
  apply (createSecret_stores_the_envelope sample_world sample_world). reflexivity.
Defined.

(** X7.  Reading after creating.  [createSecret] encrypts the content it
    is given and hands the database one row, the same whatever the database
    answers.  Once the database holds that row, under whatever id and dates
    it assigned, both read handlers answer 200 with that id, those dates,
    the name that was stored, and the content [createSecret] was given,
    unpaired surrogates replaced by U+FFFD. *)
Theorem created_secret_reads_back (w0 w1 : World) (svc : EncryptionService.t)
    (userId : jsstring) (name : option jsstring) (content : jsstring) (w : World) :
  EncryptionService.constructor w0 = (inr svc, w1) ->
  exists env w',
    EncryptionService.encrypt svc content w = (inr env, w') /\
    let row :=
      SecretsWrites.mkInsert userId (SecretsController.name_or_default name)
        (EncryptionService.encryptedContent env) (EncryptionService.iv env)
        (EncryptionService.authTag env) in
    (forall insert,
       fst (SecretsWrites.createSecret svc userId name content insert w) =
       inr (match insert row with
            | SecretsController.mkQuery _ (Some _) =>
                SecretsWrites.mkResponse 500
                  (SecretsWrites.Failure (js "Failed to create secret"))
            | SecretsController.mkQuery (Some saved) None =>
                SecretsWrites.mkResponse 201
                  (SecretsWrites.Saved
                     (SecretsWrites.mkSavedSecret
                        (SecretsWrites.s_id saved) (SecretsWrites.s_name saved)
                        content
                        (SecretsWrites.s_created_at saved)
                        (SecretsWrites.s_updated_at saved))
                     (js "Secret created successfully"))
            | SecretsController.mkQuery None None =>
                SecretsWrites.mkResponse 500
                  (SecretsWrites.Failure (js "Internal server error"))
            end)) /\
    (code_units content = true ->
     forall id created updated reader w2,
       let record := inserted_record id created updated row in
       let item :=
         SecretsController.mkSecret id (SecretsController.name_or_default name)
           (toWellFormed content) created updated in
       fst (SecretsController.getSecretById svc reader id
              (SecretsController.mkQuery (Some record) None) w2)
       = inr (SecretsController.mkResponse 200 (SecretsController.SuccessItem item)) /\
       fst (SecretsController.getAllSecrets svc reader
              (SecretsController.mkQuery (Some [record]) None) w2)
       = inr (SecretsController.mkResponse 200 (SecretsController.SuccessList [item]))).
Proof.
  intros Hc. apply constructor_key in Hc as [Hk _].
  do 2 eexists. split; [now apply encrypt_run|].
  intros row. split.
  - intros insert. now apply createSecret_run.
  - intros Hcu id created updated reader w2 record item.
    pose proof (read_envelope svc (next_nonce w) content Hk (next_nonce_length w) Hcu)
      as Hread. cbv zeta in Hread.
    rewrite getSecretById_outcome, getAllSecrets_items. cbn [map].
    unfold list_item, record, inserted_record, row.
    cbn [SecretsController.id SecretsController.name
         SecretsController.encrypted_content SecretsController.iv
         SecretsController.auth_tag SecretsController.created_at
         SecretsController.updated_at
         SecretsWrites.name SecretsWrites.encrypted_content SecretsWrites.iv
         SecretsWrites.auth_tag].
    rewrite Hread, name_or_default_idem. split; reflexivity.
Qed.

Lemma created_secret_reads_back_witness :
  exists env w',
    EncryptionService.encrypt sample_service [0x61; 0xD83D] sample_world = (inr env, w') /\
    let row :=
      SecretsWrites.mkInsert (js "u1") (SecretsController.name_or_default (Some (js "wifi")))
        (EncryptionService.encryptedContent env) (EncryptionService.iv env)
        (EncryptionService.authTag env) in
    (forall insert,
       fst (SecretsWrites.createSecret sample_service (js "u1") (Some (js "wifi")) [0x61; 0xD83D] insert sample_world) =
       inr (match insert row with
            | SecretsController.mkQuery _ (Some _) =>
                SecretsWrites.mkResponse 500
                  (SecretsWrites.Failure (js "Failed to create secret"))
            | SecretsController.mkQuery (Some saved) None =>
                SecretsWrites.mkResponse 201
                  (SecretsWrites.Saved
                     (SecretsWrites.mkSavedSecret
                        (SecretsWrites.s_id saved) (SecretsWrites.s_name saved)
                        [0x61; 0xD83D]
                        (SecretsWrites.s_created_at saved)
                        (SecretsWrites.s_updated_at saved))
                     (js "Secret created successfully"))
            | SecretsController.mkQuery None None =>
                SecretsWrites.mkResponse 500
                  (SecretsWrites.Failure (js "Internal server error"))
            end)) /\
    (code_units [0x61; 0xD83D] = true ->
     forall id created updated reader w2,
       let record := inserted_record id created updated row in
       let item :=
         SecretsController.mkSecret id (SecretsController.name_or_default (Some (js "wifi")))
           (toWellFormed [0x61; 0xD83D]) created updated in
       fst (SecretsController.getSecretById sample_service reader id
              (SecretsController.mkQuery (Some record) None) w2)
       = inr (SecretsController.mkResponse 200 (SecretsController.SuccessItem item)) /\
       fst (SecretsController.getAllSecrets sample_service reader
              (SecretsController.mkQuery (Some [record]) None) w2)
       = inr (SecretsController.mkResponse 200 (SecretsController.SuccessList [item]))).
Proof.
  apply (created_secret_reads_back sample_world sample_world sample_service
           (js "u1") (Some (js "wifi")) [0x61; 0xD83D] sample_world).
  reflexivity.
Defined.

(** X8.  [updateSecret] on a secret the lookup does not find (the query
    reports an error or returns no row) answers 404 "Secret not found"
    before anything else happens: nothing is encrypted, no octet is drawn
    from the random source, and the outcome is the same whatever the
    service, the name, the content, the clock and the update query are. *)
Theorem updateSecret_missing_secret (svc : EncryptionService.t)
    (userId secretId : jsstring) (name : option jsstring) (content : jsstring)
    (existing : SecretsController.QueryResult jsstring) (now : jsstring)
    (update : SecretsWrites.UpdateData
              -> SecretsController.QueryResult SecretsWrites.SavedRow)
    (w : World) :
  SecretsController.error existing <> None \/ SecretsController.data existing = None ->
  fst (SecretsWrites.updateSecret svc userId secretId name content existing now update w)
  = inr (SecretsWrites.mkResponse 404 (SecretsWrites.Failure (js "Secret not found"))) /\
  entropy (snd (SecretsWrites.updateSecret svc userId secretId name content
                  existing now update w)) = entropy w /\
  forall svc' name' content' now' update',
    SecretsWrites.updateSecret svc' userId secretId name' content' existing now' update' w
    = SecretsWrites.updateSecret svc userId secretId name content existing now update w.
Proof.
  intros H. unfold SecretsWrites.updateSecret, try_catch.
  destruct existing as [[e|] [msg|]];
    cbn [SecretsController.error SecretsController.data] in *;
    try (repeat split; reflexivity).
  destruct H as [H|H]; [now contradiction H|discriminate].
Qed.

Lemma updateSecret_missing_secret_witness :
  fst (SecretsWrites.updateSecret sample_service (js "u1") (js "7") None (js "new")
         (SecretsController.mkQuery None (Some (js "no rows"))) (js "2024-01-03")
         (fun _ => SecretsController.mkQuery None None) sample_world)
  = inr (SecretsWrites.mkResponse 404 (SecretsWrites.Failure (js "Secret not found"))).
Proof.
  apply (updateSecret_missing_secret sample_service (js "u1") (js "7") None (js "new")
           (SecretsController.mkQuery None (Some (js "no rows")))).
  left. cbn. discriminate.
Defined.

Lemma updateSecret_run (svc : EncryptionService.t) (userId secretId : jsstring)
    (name : option jsstring) (content e now : jsstring)
    (update : SecretsWrites.UpdateData
              -> SecretsController.QueryResult SecretsWrites.SavedRow)
    (w : World) :
  length (EncryptionService.encryptionKey svc) = 32%nat ->
  let env := envelope (EncryptionService.encryptionKey svc) (next_nonce w) content in
  fst (SecretsWrites.updateSecret svc userId secretId name content
         (SecretsController.mkQuery (Some e) None) now update w) =
  inr (match update (update_of name env now) with
       | SecretsController.mkQuery _ (Some _) =>
           SecretsWrites.mkResponse 500
             (SecretsWrites.Failure (js "Failed to update secret"))
       | SecretsController.mkQuery (Some saved) None =>
           SecretsWrites.mkResponse 200
             (SecretsWrites.Saved
                (SecretsWrites.mkSavedSecret
                   (SecretsWrites.s_id saved) (SecretsWrites.s_name saved) content
                   (SecretsWrites.s_created_at saved)
                   (SecretsWrites.s_updated_at saved))
                (js "Secret updated successfully"))
       | SecretsController.mkQuery None None =>
           SecretsWrites.mkResponse 500
             (SecretsWrites.Failure (js "Internal server error"))
       end).
Proof.
  intros Hk env.
  unfold SecretsWrites.updateSecret, try_catch.
  cbn [SecretsController.error SecretsController.data].
  unfold bind at 1. unfold logDebug at 1. unfold log at 1. cbv beta iota.
  unfold bind at 1. rewrite encrypt_run by exact Hk.
  change (next_nonce _) with (next_nonce w). fold env. cbv beta iota zeta.
  fold (update_of name env now).
  destruct (update (update_of name env now)) as [[saved|] [msg|]]; reflexivity.
Qed.

(** X9.  [updateSecret] on a secret that exists encrypts the new content
    afresh and hands the database all three envelope fields together with
    the time of the update; the name is part of the update only when the
    request carried one (an empty one becomes "Untitled Secret").  Once
    those columns are written over the old record, a read returns the new
    content under the old id and creation date, and the old name when none
    was sent. *)
Theorem updateSecret_replaces_the_envelope (w0 w1 : World)
    (svc : EncryptionService.t) (userId secretId : jsstring)
    (name : option jsstring) (content e now : jsstring) (w : World) :
  EncryptionService.constructor w0 = (inr svc, w1) ->
  exists env w',
    EncryptionService.encrypt svc content w = (inr env, w') /\
    let updateData :=
      SecretsWrites.mkUpdate
        (EncryptionService.encryptedContent env) (EncryptionService.iv env)
        (EncryptionService.authTag env) now
        (match name with
         | Some _ => Some (SecretsController.name_or_default name)
         | None => None
         end) in
    (forall update,
       fst (SecretsWrites.updateSecret svc userId secretId name content
              (SecretsController.mkQuery (Some e) None) now update w) =
       inr (match update updateData with
            | SecretsController.mkQuery _ (Some _) =>
                SecretsWrites.mkResponse 500
                  (SecretsWrites.Failure (js "Failed to update secret"))
            | SecretsController.mkQuery (Some saved) None =>
                SecretsWrites.mkResponse 200
                  (SecretsWrites.Saved
                     (SecretsWrites.mkSavedSecret
                        (SecretsWrites.s_id saved) (SecretsWrites.s_name saved) content
                        (SecretsWrites.s_created_at saved)
                        (SecretsWrites.s_updated_at saved))
                     (js "Secret updated successfully"))
            | SecretsController.mkQuery None None =>
                SecretsWrites.mkResponse 500
                  (SecretsWrites.Failure (js "Internal server error"))
            end)) /\
    (code_units content = true ->
     forall old reader w2,
       fst (SecretsController.getSecretById svc reader (SecretsController.id old)
              (SecretsController.mkQuery (Some (updated_record updateData old)) None) w2)
       = inr (SecretsController.mkResponse 200
                (SecretsController.SuccessItem
                   (SecretsController.mkSecret (SecretsController.id old)
                      (SecretsController.name_or_default
                         (match name with
                          | Some _ => name
                          | None => SecretsController.name old
                          end))
                      (toWellFormed content)
                      (SecretsController.created_at old) now)))).
Proof.
  intros Hc. apply constructor_key in Hc as [Hk _].
  do 2 eexists. split; [now apply encrypt_run|].
  intros updateData. split.
  - intros update. now apply updateSecret_run.
  - intros Hcu old reader w2.
    pose proof (read_envelope svc (next_nonce w) content Hk (next_nonce_length w) Hcu)
      as Hread. cbv zeta in Hread.
    rewrite getSecretById_outcome.
    unfold updateData, updated_record.
    cbn [SecretsController.id SecretsController.name
         SecretsController.encrypted_content SecretsController.iv
         SecretsController.auth_tag SecretsController.created_at
         SecretsController.updated_at
         SecretsWrites.u_name SecretsWrites.u_encrypted_content SecretsWrites.u_iv
         SecretsWrites.u_auth_tag SecretsWrites.u_updated_at].
    rewrite Hread.
    destruct name as [n|]; [rewrite name_or_default_idem|]; reflexivity.
Qed.

Lemma updateSecret_replaces_the_envelope_witness :
  exists env w',
    EncryptionService.encrypt sample_service (js "new") sample_world = (inr env, w') /\
    let updateData :=
      SecretsWrites.mkUpdate
        (EncryptionService.encryptedContent env) (EncryptionService.iv env)
        (EncryptionService.authTag env) (js "2024-01-03") None in
    (forall update,
       fst (SecretsWrites.updateSecret sample_service (js "u1") (js "7") None (js "new")
              (SecretsController.mkQuery (Some (js "7")) None) (js "2024-01-03")
              update sample_world) =
       inr (match update updateData with
            | SecretsController.mkQuery _ (Some _) =>
                SecretsWrites.mkResponse 500
                  (SecretsWrites.Failure (js "Failed to update secret"))
            | SecretsController.mkQuery (Some saved) None =>
                SecretsWrites.mkResponse 200
                  (SecretsWrites.Saved
                     (SecretsWrites.mkSavedSecret
                        (SecretsWrites.s_id saved) (SecretsWrites.s_name saved)
                        (js "new")
                        (SecretsWrites.s_created_at saved)
                        (SecretsWrites.s_updated_at saved))
                     (js "Secret updated successfully"))
            | SecretsController.mkQuery None None =>
                SecretsWrites.mkResponse 500
                  (SecretsWrites.Failure (js "Internal server error"))
            end)) /\
    forall reader w2,
      fst (SecretsController.getSecretById sample_service reader (js "7")
             (SecretsController.mkQuery
                (Some (updated_record updateData damaged_record)) None) w2)
      = inr (SecretsController.mkResponse 200
               (SecretsController.SuccessItem
                  (SecretsController.mkSecret (js "7") (js "wifi") (js "new")
                     (js "2024-01-01") (js "2024-01-03")))).
Proof.
  destruct (updateSecret_replaces_the_envelope sample_world sample_world
              sample_service (js "u1") (js "7") None (js "new") (js "7")
              (js "2024-01-03") sample_world eq_refl)
    as (env & w' & Henc & Hupd & Hread).
  exists env, w'. split; [exact Henc|]. split; [exact Hupd|].
  intros reader w2. exact (Hread eq_refl damaged_record reader w2).
Defined.

(** ** The read handlers, branch by branch *)

(** X10.  [getAllSecrets] answers with one item per stored record, in the
    order of the query result, and each item is decided by its own record
    alone: it is the item the listing of that record on its own would give,
    for any user and in any state of the process.  A record that cannot be
    decrypted therefore never affects the items of the others. *)
Theorem listing_items_are_independent (svc : EncryptionService.t)
    (userId : jsstring) (secrets : list SecretsController.SecretRecord) (w : World) :
  exists items,
    fst (SecretsController.getAllSecrets svc userId
           (SecretsController.mkQuery (Some secrets) None) w)
    = inr (SecretsController.mkResponse 200 (SecretsController.SuccessList items)) /\
    length items = length secrets /\
    forall i secret,
      nth_error secrets i = Some secret ->
      exists item,
        nth_error items i = Some item /\
        SecretsController.r_id item = SecretsController.id secret /\
        forall userId' w',
          fst (SecretsController.getAllSecrets svc userId'
                 (SecretsController.mkQuery (Some [secret]) None) w')
          = inr (SecretsController.mkResponse 200
                   (SecretsController.SuccessList [item])).
Proof.
  eexists. split; [apply getAllSecrets_items|].
  split; [apply length_map|].
  intros i secret Hi. exists (list_item svc secret).
  split; [now apply map_nth_error|]. split; [reflexivity|].
  intros userId' w'. apply getAllSecrets_items.
Qed.

Lemma listing_items_are_independent_witness :
  exists items,
    fst (SecretsController.getAllSecrets sample_service (js "u1")
           (SecretsController.mkQuery (Some [damaged_record]) None) sample_world)
    = inr (SecretsController.mkResponse 200 (SecretsController.SuccessList items)) /\
    exists item,
      nth_error items 0 = Some item /\
      SecretsController.r_id item = js "7".
Proof.
  destruct (listing_items_are_independent sample_service (js "u1") [damaged_record]
              sample_world) as (items & Hrun & _ & Hitems).
  exists items. split; [exact Hrun|].
  destruct (Hitems 0%nat damaged_record eq_refl) as (item & Hnth & Hid & _).
  exists item. split; [exact Hnth|exact Hid].
Defined.

Lemma getAllSecrets_no_error (svc : EncryptionService.t) (userId : jsstring)
    (d : option (list SecretsController.SecretRecord)) (w : World) :
  fst (SecretsController.getAllSecrets svc userId (SecretsController.mkQuery d None) w)
  = inr (SecretsController.mkResponse 200
           (SecretsController.SuccessList
              (map (list_item svc) (match d with Some l => l | None => [] end)))).
Proof.
  destruct d as [l|]; [apply getAllSecrets_items|reflexivity].
Qed.

(** X11.  [getAllSecrets] when the query comes back without rows.  When
    the result of the query reports an error the answer is 500 "Failed to
    fetch secrets" and no record is touched: the run is the same whatever
    data came with the error and whatever the service is.  When the result
    reports neither an error nor data the answer is 200 with the empty
    list. *)
Theorem getAllSecrets_failure_modes (svc : EncryptionService.t)
    (userId : jsstring)
    (query : SecretsController.QueryResult (list SecretsController.SecretRecord))
    (w : World) :
  (forall msg, SecretsController.error query = Some msg ->
     fst (SecretsController.getAllSecrets svc userId query w)
     = inr (SecretsController.mkResponse 500
              (SecretsController.Failure (js "Failed to fetch secrets"))) /\
     forall svc' data',
       SecretsController.getAllSecrets svc' userId
         (SecretsController.mkQuery data' (Some msg)) w
       = SecretsController.getAllSecrets svc userId query w) /\
  (query = SecretsController.mkQuery None None ->
     fst (SecretsController.getAllSecrets svc userId query w)
     = inr (SecretsController.mkResponse 200 (SecretsController.SuccessList []))).
Proof.
  destruct query as [d [msg|]].
  - split.
    + intros msg' [= <-]. split; reflexivity.
    + intros [=].
  - rewrite getAllSecrets_no_error. split.
    + intros msg [=].
    + now intros [= ->].
Qed.

Lemma getAllSecrets_failure_modes_witness :
  fst (SecretsController.getAllSecrets sample_service (js "u1")
         (SecretsController.mkQuery (Some [damaged_record]) (Some (js "timeout")))
         sample_world)
  = inr (SecretsController.mkResponse 500
           (SecretsController.Failure (js "Failed to fetch secrets"))) /\
  fst (SecretsController.getAllSecrets sample_service (js "u1")
         (SecretsController.mkQuery None None) sample_world)
  = inr (SecretsController.mkResponse 200 (SecretsController.SuccessList [])).
Proof.
  split.
  - apply (proj1 (getAllSecrets_failure_modes sample_service (js "u1")
                    (SecretsController.mkQuery (Some [damaged_record])
                                               (Some (js "timeout")))
                    sample_world) (js "timeout") eq_refl).
  - apply (proj2 (getAllSecrets_failure_modes sample_service (js "u1")
                    (SecretsController.mkQuery None None) sample_world)).
    reflexivity.
Defined.

(** X12.  [getSecretById], branch by branch.  When the query reports an
    error or no row, the answer is 404 "Secret not found" and the service
    is not used.  When it returns a row, the answer follows [decrypt]: if
    the envelope decrypts, 200 with the very item the listing gives for
    that record; if it does not, 500 "Internal server error", where the
    listing answers 200 and marks the item "[Decryption Error]". *)
Theorem getSecretById_branches (svc : EncryptionService.t)
    (userId secretId : jsstring)
    (query : SecretsController.QueryResult SecretsController.SecretRecord)
    (w : World) :
  (SecretsController.error query <> None \/ SecretsController.data query = None ->
     fst (SecretsController.getSecretById svc userId secretId query w)
     = inr (SecretsController.mkResponse 404
              (SecretsController.Failure (js "Secret not found"))) /\
     forall svc',
       SecretsController.getSecretById svc' userId secretId query w
       = SecretsController.getSecretById svc userId secretId query w) /\
  (forall secret, query = SecretsController.mkQuery (Some secret) None ->
     let item content :=
       SecretsController.mkSecret (SecretsController.id secret)
         (SecretsController.name_or_default (SecretsController.name secret))
         content
         (SecretsController.created_at secret) (SecretsController.updated_at secret) in
     (forall text w',
        fst (EncryptionService.decrypt svc
               (SecretsController.encrypted_content secret)
               (SecretsController.iv secret)
               (SecretsController.auth_tag secret) w') = inr text ->
        fst (SecretsController.getSecretById svc userId secretId query w)
        = inr (SecretsController.mkResponse 200
                 (SecretsController.SuccessItem (item text))) /\
        fst (SecretsController.getAllSecrets svc userId
               (SecretsController.mkQuery (Some [secret]) None) w)
        = inr (SecretsController.mkResponse 200
                 (SecretsController.SuccessList [item text]))) /\
     (forall e w',
        fst (EncryptionService.decrypt svc
               (SecretsController.encrypted_content secret)
               (SecretsController.iv secret)
               (SecretsController.auth_tag secret) w') = inl e ->
        fst (SecretsController.getSecretById svc userId secretId query w)
        = inr (SecretsController.mkResponse 500
                 (SecretsController.Failure (js "Internal server error"))) /\
        fst (SecretsController.getAllSecrets svc userId
               (SecretsController.mkQuery (Some [secret]) None) w)
        = inr (SecretsController.mkResponse 200
                 (SecretsController.SuccessList [item (js "[Decryption Error]")])))).
Proof.
  split.
  - intros H. unfold SecretsController.getSecretById, try_catch.
    destruct query as [[secret|] [msg|]];
      cbn [SecretsController.error SecretsController.data] in *;
      try (split; reflexivity).
    destruct H as [H|H]; [now contradiction H|discriminate].
  - intros secret -> item. split.
    + intros text w' Hd. rewrite decrypt_outcome in Hd.
      rewrite getSecretById_outcome, getAllSecrets_items. cbn [map].
      unfold list_item.
      destruct (decrypt_core _ _ _ _); [discriminate|].
      injection Hd as ->. split; reflexivity.
    + intros e w' Hd. rewrite decrypt_outcome in Hd.
      rewrite getSecretById_outcome, getAllSecrets_items. cbn [map].
      unfold list_item.
      destruct (decrypt_core _ _ _ _); [|discriminate].
      split; reflexivity.
Qed.

Lemma getSecretById_branches_witness :
  fst (SecretsController.getSecretById sample_service (js "u1") (js "7")
         (SecretsController.mkQuery None None) sample_world)
  = inr (SecretsController.mkResponse 404
           (SecretsController.Failure (js "Secret not found"))) /\
  fst (SecretsController.getSecretById sample_service (js "u1") (js "7")
         (SecretsController.mkQuery (Some damaged_record) None) sample_world)
  = inr (SecretsController.mkResponse 500
           (SecretsController.Failure (js "Internal server error"))).
Proof.
  split.
  - apply (proj1 (getSecretById_branches sample_service (js "u1") (js "7")
                    (SecretsController.mkQuery None None) sample_world)).
    right. reflexivity.
  - apply (proj2 (getSecretById_branches sample_service (js "u1") (js "7")
                    (SecretsController.mkQuery (Some damaged_record) None)
                    sample_world) damaged_record eq_refl) with (w' := sample_world)
            (e := DecryptionError).
    vm_compute. reflexivity.
Defined.

(** X13.  No handler throws, and no handler passes the text of an internal
    error on to the client: whatever the service, the request and the
    answers of the database are, a failure body carries one of six
    constant messages, never the message of a database error or of an
    exception. *)
Theorem handlers_never_throw_nor_leak (svc : EncryptionService.t)
    (userId secretId : jsstring) (name : option jsstring) (content now : jsstring)
    (listed : SecretsController.QueryResult (list SecretsController.SecretRecord))
    (found : SecretsController.QueryResult SecretsController.SecretRecord)
    (insert : SecretsWrites.InsertRow
              -> SecretsController.QueryResult SecretsWrites.SavedRow)
    (existing : SecretsController.QueryResult jsstring)
    (update : SecretsWrites.UpdateData
              -> SecretsController.QueryResult SecretsWrites.SavedRow)
    (deleted : option jsstring) (w : World) :
  let constant m :=
    In m [js "Failed to fetch secrets"; js "Secret not found";
          js "Failed to create secret"; js "Failed to update secret";
          js "Failed to delete secret"; js "Internal server error"] in
  let reads (r : exn + SecretsController.Response) :=
    exists response, r = inr response /\
      forall m, SecretsController.body response = SecretsController.Failure m ->
                constant m in
  let writes (r : exn + SecretsWrites.Response) :=
    exists response, r = inr response /\
      forall m, SecretsWrites.body response = SecretsWrites.Failure m ->
                constant m in
  reads (fst (SecretsController.getAllSecrets svc userId listed w)) /\
  reads (fst (SecretsController.getSecretById svc userId secretId found w)) /\
  writes (fst (SecretsWrites.createSecret svc userId name content insert w)) /\
  writes (fst (SecretsWrites.updateSecret svc userId secretId name content
                 existing now update w)) /\
  writes (fst (SecretsWrites.deleteSecret userId secretId deleted w)).
Proof.
  intros constant reads writes.
  assert (C1 : constant (js "Failed to fetch secrets")) by (cbn; auto).
  assert (C2 : constant (js "Secret not found")) by (cbn; auto).
  assert (C3 : constant (js "Failed to create secret")) by (cbn; auto).
  assert (C4 : constant (js "Failed to update secret")) by (cbn; auto).
  assert (C5 : constant (js "Failed to delete secret")) by (cbn; auto 6).
  assert (C6 : constant (js "Internal server error")) by (cbn; auto 7).
  repeat split.
  - destruct listed as [d [msg|]].
    + eexists. split; [reflexivity|]. now intros m [= <-].
    + rewrite getAllSecrets_no_error. eexists. split; [reflexivity|]. intros m [=].
  - destruct found as [[secret|] [msg|]];
      try (eexists; split; [reflexivity|]; now intros m [= <-]).
    rewrite getSecretById_outcome.
    destruct (decrypt_core _ _ _ _);
      eexists; (split; [reflexivity|]); [now intros m [= <-]|intros m [=]].
  - unfold SecretsWrites.createSecret, try_catch.
    unfold bind at 1. unfold logDebug at 1. unfold log at 1. cbv beta iota.
    unfold bind at 1.
    destruct (EncryptionService.encrypt svc content _) as [[e|env] w1].
    + eexists. split; [reflexivity|]. now intros m [= <-].
    + cbv beta iota zeta.
      destruct (insert _) as [[saved|] [msg|]];
        eexists; (split; [reflexivity|]);
        try (now intros m [= <-]); intros m [=].
  - unfold SecretsWrites.updateSecret, try_catch.
    destruct existing as [[e|] [msg|]];
      cbn [SecretsController.error SecretsController.data];
      try (eexists; split; [reflexivity|]; now intros m [= <-]).
    unfold bind at 1. unfold logDebug at 1. unfold log at 1. cbv beta iota.
    unfold bind at 1.
    destruct (EncryptionService.encrypt svc content _) as [[e'|env] w1].
    + eexists. split; [reflexivity|]. now intros m [= <-].
    + cbv beta iota zeta.
      destruct (update _) as [[saved|] [msg|]];
        eexists; (split; [reflexivity|]);
        try (now intros m [= <-]); intros m [=].
  - destruct deleted as [msg|];
      eexists; (split; [reflexivity|]); [now intros m [= <-]|intros m [=]].
Qed.

(** ** The authentication middleware *)

Lemma js_eqb_eq (a b : jsstring) : js_eqb a b = true <-> a = b.
Proof.
  revert b. induction a as [|x a IH]; intros [|y b]; cbn; split;
    try discriminate; auto.
  - intros [Hxy Hab]%andb_true_iff.
    apply N.eqb_eq in Hxy. apply IH in Hab. congruence.
  - intros [= -> ->]. apply andb_true_iff. split.
    + apply N.eqb_refl.
    + now apply IH.
Qed.

Lemma split_space_cons (s : jsstring) :
  exists p ps, AuthMiddleware.split_space s = p :: ps.
Proof.
  destruct s as [|c r]; cbn; [eauto|].
  destruct (c =? 32); [eauto|].
  destruct (AuthMiddleware.split_space r); eauto.
Qed.

(** A string without a space is a single piece. *)
Lemma split_space_word (t : jsstring) :
  ~ In 32 t -> AuthMiddleware.split_space t = [t].
Proof.
  induction t as [|c t IH]; intros Hn; [reflexivity|].
  cbn [AuthMiddleware.split_space].
  destruct (N.eqb_spec c 32) as [->|Hc]; [exfalso; apply Hn; now left|].
  rewrite IH; [reflexivity|]. intros H. apply Hn. now right.
Qed.

Lemma split_space_app (a b : jsstring) :
  ~ In 32 a ->
  AuthMiddleware.split_space (a ++ 32 :: b) = a :: AuthMiddleware.split_space b.
Proof.
  induction a as [|c a IH]; intros Hn; [reflexivity|].
  cbn [app AuthMiddleware.split_space].
  destruct (N.eqb_spec c 32) as [->|Hc]; [exfalso; apply Hn; now left|].
  rewrite IH; [reflexivity|]. intros H. apply Hn. now right.
Qed.

(** One piece: the string holds no space. *)
Lemma split_space_one (s b : jsstring) :
  AuthMiddleware.split_space s = [b] -> s = b /\ ~ In 32 b.
Proof.
  revert b. induction s as [|c r IH]; intros b.
  - intros [= <-]. split; [reflexivity|intros []].
  - cbn [AuthMiddleware.split_space].
    destruct (split_space_cons r) as (p & ps & E). rewrite E.
    destruct (N.eqb_spec c 32) as [->|Hc]; [discriminate|].
    intros [= <- ->]. destruct (IH p E) as (-> & Hp).
    split; [reflexivity|]. intros [H|H]; [congruence|contradiction].
Qed.

(** Two pieces: the string is the first, a space, the second, and neither
    holds a space. *)
Lemma split_space_two (s a b : jsstring) :
  AuthMiddleware.split_space s = [a; b] ->
  s = a ++ 32 :: b /\ ~ In 32 a /\ ~ In 32 b.
Proof.
  revert a. induction s as [|c r IH]; intros a; [discriminate|].
  cbn [AuthMiddleware.split_space].
  destruct (N.eqb_spec c 32) as [->|Hc].
  - intros [= <- Hr]. apply split_space_one in Hr as (-> & Hb).
    split; [reflexivity|]. split; [intros []|exact Hb].
  - destruct (split_space_cons r) as (p & ps & E). rewrite E.
    intros [= <- ->]. destruct (IH p E) as (-> & Ha & Hb).
    split; [reflexivity|]. split; [|exact Hb].
    intros [H|H]; [congruence|contradiction].
Qed.

Lemma bearer_token_iff (h t : jsstring) :
  AuthMiddleware.extractBearerToken (Some h) = Some t
  <-> h = js "Bearer " ++ t /\ ~ In 32 t.
Proof.
  split.
  - unfold AuthMiddleware.extractBearerToken.
    destruct h as [|c h']; [discriminate|].
    destruct (AuthMiddleware.split_space (c :: h')) as [|a [|b [|x l]]] eqn:E;
      try discriminate.
    destruct (js_eqb a (js "Bearer")) eqn:Ea; [|discriminate].
    intros [= ->]. apply js_eqb_eq in Ea. subst a.
    apply split_space_two in E as (-> & _ & Ht).
    split; [reflexivity|exact Ht].
  - intros [-> Ht]. unfold AuthMiddleware.extractBearerToken.
    change (js "Bearer " ++ t) with (js "Bearer" ++ 32 :: t).
    rewrite split_space_app, (split_space_word t Ht)
      by (cbn; intros H; repeat (destruct H as [H|H]; [discriminate|]); exact H).
    reflexivity.
Qed.

(** X14.  [extractBearerToken] returns a token exactly for the headers that
    are the word "Bearer", one space, and a token without a space; the
    token may be empty.  Any other header (another scheme, "bearer" in
    lower case, two spaces, a token with a space in it) and a missing
    header give null. *)
Theorem extractBearerToken_spec (h t : jsstring) :
  AuthMiddleware.extractBearerToken None = None /\
  (AuthMiddleware.extractBearerToken (Some h) = Some t
   <-> h = js "Bearer " ++ t /\ ~ In 32 t) /\
  (AuthMiddleware.extractBearerToken (Some h) = None
   <-> forall t', ~ In 32 t' -> h <> js "Bearer " ++ t').
Proof.
  split; [reflexivity|]. split; [apply bearer_token_iff|].
  split.
  - intros Hn t' Ht' ->.
    rewrite (proj2 (bearer_token_iff _ t') (conj eq_refl Ht')) in Hn. discriminate.
  - intros Hall.
    destruct (AuthMiddleware.extractBearerToken (Some h)) as [t'|] eqn:E;
      [|reflexivity].
    apply bearer_token_iff in E as [-> Ht']. now contradiction (Hall t' Ht').
Qed.

Lemma authenticate_next_iff (authHeader : option jsstring)
    (createClient : exn + (jsstring -> exn + AuthMiddleware.UserResponse))
    (w : World) (attached : AuthMiddleware.AuthUser) :
  fst (AuthMiddleware.authenticate authHeader createClient w)
    = inr (AuthMiddleware.Next attached)
  <-> exists token getUser user,
        authHeader = Some (js "Bearer " ++ token) /\
        token <> [] /\ ~ In 32 token /\
        createClient = inr getUser /\
        getUser token = inr (AuthMiddleware.mkUserResponse (Some user) None) /\
        attached = AuthMiddleware.mkAuthUser
                     (AuthMiddleware.id user)
                     (match AuthMiddleware.email user with
                      | Some e => e
                      | None => []
                      end)
                     (AuthMiddleware.role user).
Proof.
  assert (Hor : forall x, AuthMiddleware.or_else x []
                          = match x with Some e => e | None => [] end).
  { intros [[|c e]|]; reflexivity. }
  unfold AuthMiddleware.authenticate, try_catch.
  destruct (AuthMiddleware.extractBearerToken authHeader) as [[|c token]|] eqn:Et.
  - (* the empty token *)
    split; [discriminate|].
    intros (token & getUser & user & -> & Hne & Hsp & _).
    pose proof (proj2 (bearer_token_iff (js "Bearer " ++ token) token)
                      (conj eq_refl Hsp)) as E.
    pose proof (eq_trans (eq_sym E) Et) as X. injection X as ->. contradiction.
  - (* a token *)
    unfold bind at 1, lift at 1.
    destruct createClient as [e|getUser].
    { split; [discriminate|]. intros (? & ? & ? & _ & _ & _ & [=] & _). }
    unfold bind at 1, lift at 1.
    destruct (getUser (c :: token)) as [e|[[user|] [msg|]]] eqn:Eg;
      cbn [AuthMiddleware.error AuthMiddleware.user].
    + split; [discriminate|].
      intros (token' & getUser' & user' & -> & _ & Hsp & [= <-] & Hg & _).
      pose proof (proj2 (bearer_token_iff (js "Bearer " ++ token') token')
                        (conj eq_refl Hsp)) as E.
      pose proof (eq_trans (eq_sym E) Et) as X. injection X as ->. congruence.
    + split; [discriminate|].
      intros (token' & getUser' & user' & -> & _ & Hsp & [= <-] & Hg & _).
      pose proof (proj2 (bearer_token_iff (js "Bearer " ++ token') token')
                        (conj eq_refl Hsp)) as E.
      pose proof (eq_trans (eq_sym E) Et) as X. injection X as ->. congruence.
    + split.
      * intros [= <-].
        destruct authHeader as [h|]; [|discriminate].
        apply (bearer_token_iff h (c :: token)) in Et as [-> Hsp].
        exists (c :: token), getUser, user.
        repeat split; auto; try discriminate.
        now rewrite Hor.
      * intros (token' & getUser' & user' & -> & _ & Hsp & [= <-] & Hg & ->).
        pose proof (proj2 (bearer_token_iff (js "Bearer " ++ token') token')
                          (conj eq_refl Hsp)) as E.
        pose proof (eq_trans (eq_sym E) Et) as X. injection X as ->.
        rewrite Eg in Hg. injection Hg as <-.
        now rewrite Hor.
    + split; [discriminate|].
      intros (token' & getUser' & user' & -> & _ & Hsp & [= <-] & Hg & _).
      pose proof (proj2 (bearer_token_iff (js "Bearer " ++ token') token')
                        (conj eq_refl Hsp)) as E.
      pose proof (eq_trans (eq_sym E) Et) as X. injection X as ->. congruence.
    + split; [discriminate|].
      intros (token' & getUser' & user' & -> & _ & Hsp & [= <-] & Hg & _).
      pose proof (proj2 (bearer_token_iff (js "Bearer " ++ token') token')
                        (conj eq_refl Hsp)) as E.
      pose proof (eq_trans (eq_sym E) Et) as X. injection X as ->. congruence.
  - (* no token *)
    split; [discriminate|].
    intros (token & getUser & user & -> & Hne & Hsp & _).
    pose proof (proj2 (bearer_token_iff (js "Bearer " ++ token) token)
                      (conj eq_refl Hsp)) as E.
    pose proof (eq_trans (eq_sym E) Et) as X. discriminate.
Qed.

(** X15.  [authenticate] lets a request through only after Supabase has
    vouched for the token: [next()] is called exactly when the header is
    "Bearer", one space and a non-empty token without a space, the client
    could be created, and [getUser] of that very token returned a user and
    no error; the user attached to the request has that user's id and role
    and its e-mail address, or the empty string.  In every other case the
    middleware answers itself; it never throws, and a header that yields no
    token is answered 401 without Supabase being consulted. *)
Theorem authenticate_gate (authHeader : option jsstring)
    (createClient : exn + (jsstring -> exn + AuthMiddleware.UserResponse))
    (w : World) (attached : AuthMiddleware.AuthUser) :
  (fst (AuthMiddleware.authenticate authHeader createClient w)
     = inr (AuthMiddleware.Next attached)
   <-> exists token getUser user,
         authHeader = Some (js "Bearer " ++ token) /\
         token <> [] /\ ~ In 32 token /\
         createClient = inr getUser /\
         getUser token = inr (AuthMiddleware.mkUserResponse (Some user) None) /\
         attached = AuthMiddleware.mkAuthUser
                      (AuthMiddleware.id user)
                      (match AuthMiddleware.email user with
                       | Some e => e
                       | None => []
                       end)
                      (AuthMiddleware.role user)) /\
  (forall e, fst (AuthMiddleware.authenticate authHeader createClient w) <> inl e) /\
  (AuthMiddleware.extractBearerToken authHeader = None \/
   AuthMiddleware.extractBearerToken authHeader = Some [] ->
   forall createClient',
     AuthMiddleware.authenticate authHeader createClient' w
     = AuthMiddleware.authenticate authHeader createClient w /\
     fst (AuthMiddleware.authenticate authHeader createClient w)
     = inr (AuthMiddleware.Respond 401
              (js "Authentication required. Please provide a valid access token."))).
Proof.
  split; [apply authenticate_next_iff|].
  unfold AuthMiddleware.authenticate, try_catch.
  destruct (AuthMiddleware.extractBearerToken authHeader) as [[|c token]|] eqn:Et.
  - split; [intros e; discriminate|].
    intros _ createClient'. split; reflexivity.
  - split; [|intros [[=]|[=]]].
    intros e. unfold bind at 1, lift at 1.
    destruct createClient as [e'|getUser]; [discriminate|].
    unfold bind at 1, lift at 1.
    destruct (getUser (c :: token)) as [e'|[[user|] [msg|]]]; discriminate.
  - split; [intros e; discriminate|].
    intros _ createClient'. split; reflexivity.
Qed.

Lemma authenticate_gate_witness :
  fst (AuthMiddleware.authenticate (Some (js "Bearer abc.def.ghi"))
         (inr (fun token =>
                 inr (AuthMiddleware.mkUserResponse
                        (Some (AuthMiddleware.mkUser (js "u1") None
                                                     (Some (js "authenticated"))))
                        None)))
         sample_world)
  = inr (AuthMiddleware.Next
           (AuthMiddleware.mkAuthUser (js "u1") [] (Some (js "authenticated")))).
Proof.
  apply (proj1 (authenticate_gate _ _ _ _)).
  exists (js "abc.def.ghi"). do 2 eexists.
  split; [reflexivity|]. split; [discriminate|]. split.
  - cbn. intros H. repeat (destruct H as [H|H]; [discriminate|]). exact H.
  - split; [reflexivity|]. split; reflexivity.
Defined.

Lemma requireAdmin_next_iff (u : AuthMiddleware.AuthUser) (w : World) :
  fst (AuthMiddleware.requireAdmin (Some u) w) = inr (AuthMiddleware.Next tt)
  <-> AuthMiddleware.a_role u = Some (js "admin").
Proof.
  unfold AuthMiddleware.requireAdmin.
  destruct (AuthMiddleware.a_role u) as [r|].
  - destruct (js_eqb r (js "admin")) eqn:E.
    + apply js_eqb_eq in E. subst r. split; reflexivity.
    + split; [discriminate|]. intros [= ->]. discriminate.
  - split; discriminate.
Qed.

(** X16.  The two middlewares in a row.  A request passes [authenticate]
    and then [requireAdmin] exactly when its header carries a well-formed
    bearer token and Supabase returns, for that token, a user whose role is
    the string "admin"; a user without a role, or with any other role, is
    stopped, and so is a request on which [authenticate] did not run. *)
Theorem admin_gate (authHeader : option jsstring)
    (createClient : exn + (jsstring -> exn + AuthMiddleware.UserResponse))
    (w : World) :
  ((exists attached w1,
      AuthMiddleware.authenticate authHeader createClient w
      = (inr (AuthMiddleware.Next attached), w1) /\
      fst (AuthMiddleware.requireAdmin (Some attached) w1)
      = inr (AuthMiddleware.Next tt))
   <-> exists token getUser user,
         authHeader = Some (js "Bearer " ++ token) /\
         token <> [] /\ ~ In 32 token /\
         createClient = inr getUser /\
         getUser token = inr (AuthMiddleware.mkUserResponse (Some user) None) /\
         AuthMiddleware.role user = Some (js "admin")) /\
  fst (AuthMiddleware.requireAdmin None w)
  = inr (AuthMiddleware.Respond 500 (js "Internal server error.")).
Proof.
  split; [|reflexivity]. split.
  - intros (attached & w1 & Ha & Hr).
    apply requireAdmin_next_iff in Hr.
    pose proof (f_equal fst Ha) as Ha'. cbn [fst] in Ha'.
    apply authenticate_next_iff in Ha'
      as (token & getUser & user & Hh & Hne & Hsp & Hc & Hg & ->).
    exists token, getUser, user. repeat split; auto.
  - intros (token & getUser & user & Hh & Hne & Hsp & Hc & Hg & Hrole).
    destruct (AuthMiddleware.authenticate authHeader createClient w)
      as [r w1] eqn:Ea.
    pose proof (proj2 (authenticate_next_iff authHeader createClient w
                         (AuthMiddleware.mkAuthUser
                            (AuthMiddleware.id user)
                            (match AuthMiddleware.email user with
                             | Some e => e
                             | None => []
                             end)
                            (AuthMiddleware.role user)))) as Hn.
    rewrite Ea in Hn. cbn [fst] in Hn.
    rewrite Hn by (exists token, getUser, user; repeat split; auto).
    do 2 eexists. split; [reflexivity|].
    now apply requireAdmin_next_iff.
Qed.

(** ** The start of the server *)

Lemma startServer_run (url key : option jsstring) (w : World) :
  Server.startServer url key w =
  match
    (if EncryptionService.falsy url then [js "SUPABASE_URL"] else [])
    ++ (if EncryptionService.falsy key then [js "SUPABASE_SERVICE_KEY"] else [])
    ++ (if EncryptionService.falsy (ENCRYPTION_KEY w) then [js "ENCRYPTION_KEY"] else [])
  with
  | [] => (inr Server.Listening, w)
  | missing =>
      (inr (Server.Exited 1),
       write_log (mkLog ERROR (js "Server")
                    (js "Failed to start server: Missing required environment variables: "
                     ++ Server.join (js ", ") missing)) w)
  end.
Proof.
  unfold Server.startServer, try_catch, Server.requiredEnvVars.
  cbn [Server.filterM]. unfold bind, ret, Server.getenv. cbn [js_eqb].
  change (js_eqb (js "SUPABASE_URL") (js "SUPABASE_URL")) with true.
  change (js_eqb (js "SUPABASE_SERVICE_KEY") (js "SUPABASE_URL")) with false.
  change (js_eqb (js "SUPABASE_SERVICE_KEY") (js "SUPABASE_SERVICE_KEY")) with true.
  change (js_eqb (js "ENCRYPTION_KEY") (js "SUPABASE_URL")) with false.
  change (js_eqb (js "ENCRYPTION_KEY") (js "SUPABASE_SERVICE_KEY")) with false.
  change (js_eqb (js "ENCRYPTION_KEY") (js "ENCRYPTION_KEY")) with true.
  cbv beta iota.
  destruct (EncryptionService.falsy url), (EncryptionService.falsy key),
    (EncryptionService.falsy (ENCRYPTION_KEY w)); reflexivity.
Qed.

(** X17.  [startServer] starts to listen exactly when SUPABASE_URL,
    SUPABASE_SERVICE_KEY and ENCRYPTION_KEY are all set and not empty.
    Otherwise it does not throw: it writes one line to the console, which
    names the missing variables, and only those, in that order, separated
    by ", ", and the process exits with code 1.  An environment whose key
    the encryption service accepts always passes the check of
    ENCRYPTION_KEY here. *)
Theorem startServer_outcome (url key : option jsstring) (w : World) :
  let missing :=
    (if EncryptionService.falsy url then [js "SUPABASE_URL"] else [])
    ++ (if EncryptionService.falsy key then [js "SUPABASE_SERVICE_KEY"] else [])
    ++ (if EncryptionService.falsy (ENCRYPTION_KEY w) then [js "ENCRYPTION_KEY"] else []) in
  (fst (Server.startServer url key w) = inr Server.Listening
   <-> (url <> None /\ url <> Some []) /\
       (key <> None /\ key <> Some []) /\
       (ENCRYPTION_KEY w <> None /\ ENCRYPTION_KEY w <> Some [])) /\
  (fst (Server.startServer url key w) <> inr Server.Listening ->
   fst (Server.startServer url key w) = inr (Server.Exited 1) /\
   console (snd (Server.startServer url key w))
   = console w
     ++ [mkLog ERROR (js "Server")
           (js "Failed to start server: Missing required environment variables: "
            ++ Server.join (js ", ") missing)]) /\
  (forall svc w',
     EncryptionService.constructor w = (inr svc, w') ->
     url <> None -> url <> Some [] -> key <> None -> key <> Some [] ->
     Server.startServer url key w = (inr Server.Listening, w)).
Proof.
  intros missing. rewrite startServer_run. fold missing.
  assert (Hf : forall x, EncryptionService.falsy x = false
                         <-> x <> None /\ x <> Some []).
  { intros [[|c x]|]; cbn [EncryptionService.falsy]; split.
    - discriminate.
    - intros [_ H]. now contradiction H.
    - intros _. split; discriminate.
    - reflexivity.
    - discriminate.
    - intros [H _]. now contradiction H. }
  split; [|split].
  - rewrite <- !Hf. subst missing.
    destruct (EncryptionService.falsy url), (EncryptionService.falsy key),
      (EncryptionService.falsy (ENCRYPTION_KEY w)); cbn [app fst];
      split; try discriminate; try tauto;
      intros (H1 & H2 & H3); discriminate.
  - subst missing.
    destruct (EncryptionService.falsy url), (EncryptionService.falsy key),
      (EncryptionService.falsy (ENCRYPTION_KEY w)); cbn [app fst snd];
      intros H; try (split; reflexivity).
    now contradiction H.
  - intros svc w' Hc Hu1 Hu2 Hk1 Hk2.
    apply constructor_key in Hc as (Hl & k & Hk & Hlen).
    subst missing.
    assert (Eu : EncryptionService.falsy url = false) by (apply Hf; auto).
    assert (Ek : EncryptionService.falsy key = false) by (apply Hf; auto).
    rewrite Eu, Ek, Hk.
    destruct k as [|c k]; [|reflexivity].
    rewrite Hlen in Hl. discriminate.
Qed.

(** ** Shortened tags, and what the write handlers log *)

Lemma hex_decode_firstn (n : nat) (bs : Buffer) :
  Hex.decode (firstn (2 * n) (Hex.encode bs)) = firstn n bs.
Proof.
  revert bs. induction n as [|n IH]; intros bs; [reflexivity|].
  replace (2 * S n)%nat with (S (S (2 * n))) by lia.
  destruct bs as [|b bs]; [reflexivity|].
  cbn [Hex.encode Hex.encode_byte app firstn].
  change (Hex.digit (Byte.to_N b / 16) :: Hex.digit (Byte.to_N b mod 16)
          :: firstn (2 * n) (Hex.encode bs))
    with (Hex.encode [b] ++ firstn (2 * n) (Hex.encode bs)).
  now rewrite hex_decode_encode_app, IH.
Qed.

(** X18.  [decrypt] does not insist on the full tag.  The envelope of any
    string is still accepted, and decrypts to the same text, when its tag
    field is cut down to its first 4, 8, 12, 13, 14 or 15 octets: only as
    many octets of the recomputed tag are compared as the field supplies,
    so a forger has to match 32 bits, not 128. *)
Theorem truncated_tag_is_accepted (svc : EncryptionService.t) (s : jsstring)
    (w w' : World) (n : nat) :
  length (EncryptionService.encryptionKey svc) = 32%nat ->
  code_units s = true ->
  NodeCrypto.valid_gcm_tag_length n = true ->
  exists env w1,
    EncryptionService.encrypt svc s w = (inr env, w1) /\
    length (Hex.decode (firstn (2 * n) (EncryptionService.authTag env))) = n /\
    fst (EncryptionService.decrypt svc (EncryptionService.encryptedContent env)
           (EncryptionService.iv env)
           (firstn (2 * n) (EncryptionService.authTag env)) w')
    = inr (toWellFormed s).
Proof.
  intros Hk Hcu Hn. do 2 eexists. split; [now apply encrypt_run|].
  unfold envelope.
  cbn [EncryptionService.encryptedContent EncryptionService.iv
       EncryptionService.authTag].
  set (nonce := next_nonce w).
  set (c := GCM.encrypt_data (EncryptionService.encryptionKey svc) nonce
                             (Utf8.encode s)).
  set (t := GCM.tag (EncryptionService.encryptionKey svc) nonce c).
  assert (Hle : (n <= 16)%nat).
  { unfold NodeCrypto.valid_gcm_tag_length in Hn.
    apply orb_true_iff in Hn as [Hn|Hn].
    - apply orb_true_iff in Hn as [Hn|Hn]; apply Nat.eqb_eq in Hn; lia.
    - apply andb_true_iff in Hn as [_ Hn]. now apply Nat.leb_le in Hn. }
  assert (Hlen : length (firstn n t) = n).
  { rewrite length_firstn. unfold t. rewrite gcm_tag_length. lia. }
  rewrite hex_decode_firstn. split; [exact Hlen|].
  rewrite decrypt_outcome, decrypt_core_accepted.
  - rewrite !hex_decode_encode. fold c. unfold c.
    now rewrite gcm_decrypt_encrypt, utf8_decode_encode_any.
  - unfold accepted.
    rewrite hex_decode_firstn, !hex_decode_encode, Hk, Hlen, Hn, hex_encode_length.
    unfold nonce. rewrite next_nonce_length.
    cbn [Nat.eqb negb andb].
    replace (Nat.even (2 * _)) with true
      by (symmetry; apply Nat.even_spec; now eexists).
    cbn [andb]. apply buffer_eqb_eq. reflexivity.
Qed.

Lemma truncated_tag_is_accepted_witness :
  exists env w1,
    EncryptionService.encrypt sample_service (js "s3cr3t") sample_world = (inr env, w1) /\
    length (Hex.decode (firstn (2 * 4) (EncryptionService.authTag env))) = 4%nat /\
    fst (EncryptionService.decrypt sample_service
           (EncryptionService.encryptedContent env) (EncryptionService.iv env)
           (firstn (2 * 4) (EncryptionService.authTag env)) sample_world)
    = inr (toWellFormed (js "s3cr3t")).
Proof.
  apply (truncated_tag_is_accepted sample_service (js "s3cr3t") sample_world
           sample_world 4); reflexivity.
Defined.

Lemma createSecret_console (svc svc' : EncryptionService.t) (userId : jsstring)
    (name name' : option jsstring) (content content' : jsstring)
    (result : SecretsController.QueryResult SecretsWrites.SavedRow) (w : World) :
  length (EncryptionService.encryptionKey svc) = 32%nat ->
  length (EncryptionService.encryptionKey svc') = 32%nat ->
  console (snd (SecretsWrites.createSecret svc userId name content
                  (fun _ => result) w))
  = console (snd (SecretsWrites.createSecret svc' userId name' content'
                    (fun _ => result) w)).
Proof.
  intros Hk Hk'. unfold SecretsWrites.createSecret, try_catch, bind.
  unfold logDebug, log. cbv beta iota.
  rewrite (encrypt_run svc), (encrypt_run svc') by assumption.
  cbv beta iota zeta.
  destruct result as [[saved|] [msg|]]; reflexivity.
Qed.

Lemma updateSecret_console (svc svc' : EncryptionService.t)
    (userId secretId : jsstring) (name name' : option jsstring)
    (content content' now now' : jsstring)
    (existing : SecretsController.QueryResult jsstring)
    (result : SecretsController.QueryResult SecretsWrites.SavedRow) (w : World) :
  length (EncryptionService.encryptionKey svc) = 32%nat ->
  length (EncryptionService.encryptionKey svc') = 32%nat ->
  console (snd (SecretsWrites.updateSecret svc userId secretId name content
                  existing now (fun _ => result) w))
  = console (snd (SecretsWrites.updateSecret svc' userId secretId name' content'
                    existing now' (fun _ => result) w)).
Proof.
  intros Hk Hk'. unfold SecretsWrites.updateSecret, try_catch.
  destruct existing as [[e|] [msg|]];
    cbn [SecretsController.error SecretsController.data]; try reflexivity.
  unfold bind.
  unfold logDebug, log. cbv beta iota.
  rewrite (encrypt_run svc), (encrypt_run svc') by assumption.
  cbv beta iota zeta.
  destruct result as [[saved|] [msg|]]; reflexivity.
Qed.

(** X19.  What the write handlers log does not depend on the secret.  For
    a given answer of the database, the lines that [createSecret] and
    [updateSecret] write to the console are the same whatever the content,
    the name and the key are: they are made of the user id, the secret id
    and the message of a database error. *)
Theorem write_handlers_log_no_content (svc svc' : EncryptionService.t)
    (userId secretId : jsstring) (name name' : option jsstring)
    (content content' now now' : jsstring)
    (existing : SecretsController.QueryResult jsstring)
    (result : SecretsController.QueryResult SecretsWrites.SavedRow) (w : World) :
  length (EncryptionService.encryptionKey svc) = 32%nat ->
  length (EncryptionService.encryptionKey svc') = 32%nat ->
  console (snd (SecretsWrites.createSecret svc userId name content
                  (fun _ => result) w))
  = console (snd (SecretsWrites.createSecret svc' userId name' content'
                    (fun _ => result) w)) /\
  console (snd (SecretsWrites.updateSecret svc userId secretId name content
                  existing now (fun _ => result) w))
  = console (snd (SecretsWrites.updateSecret svc' userId secretId name' content'
                    existing now' (fun _ => result) w)).
Proof.
  intros Hk Hk'. split.
  - now apply createSecret_console.
  - now apply updateSecret_console.
Qed.

Lemma write_handlers_log_no_content_witness :
  console (snd (SecretsWrites.createSecret sample_service (js "u1")
                  (Some (js "wifi")) (js "s3cr3t")
                  (fun _ => SecretsController.mkQuery None (Some (js "down")))
                  sample_world))
  = console (snd (SecretsWrites.createSecret service_K2 (js "u1")
                    None (js "another one")
                    (fun _ => SecretsController.mkQuery None (Some (js "down")))
                    sample_world)).
Proof.
  apply (proj1 (write_handlers_log_no_content sample_service service_K2
                  (js "u1") (js "7") (Some (js "wifi")) None
                  (js "s3cr3t") (js "another one") [] []
                  (SecretsController.mkQuery None None)
                  (SecretsController.mkQuery None (Some (js "down")))
                  sample_world eq_refl eq_refl)).
Defined.

(** ** The size of an envelope *)

Lemma encode_code_point_length (cp : N) :
  (1 <= length (Utf8.encode_code_point cp) <= 4)%nat /\
  (cp < 0x10000 -> (length (Utf8.encode_code_point cp) <= 3)%nat) /\
  (0x10000 <= cp -> length (Utf8.encode_code_point cp) = 4%nat).
Proof.
  unfold Utf8.encode_code_point.
  destruct (N.ltb_spec cp 0x80); [|destruct (N.ltb_spec cp 0x800);
    [|destruct (N.ltb_spec cp 0x10000)]]; cbn [length]; repeat split; lia.
Qed.

Lemma utf8_encode_length_bounded (n : nat) (s : jsstring) :
  (length s <= n)%nat -> code_units s = true ->
  (length s <= length (Utf8.encode s) <= 3 * length s)%nat.
Proof.
  revert s. induction n as [|n IH]; intros s Hlen Hcu.
  - destruct s; [cbn; lia|cbn in Hlen; lia].
  - destruct s as [|c r]; [cbn; lia|].
    cbn [code_units forallb] in Hcu. apply andb_true_iff in Hcu as [Hc Hr].
    fold (code_units r) in Hr. apply N.ltb_lt in Hc.
    cbn [length] in Hlen. cbn [Utf8.encode].
    destruct (is_high_surrogate c) eqn:Hhi.
    + destruct r as [|d r']; [cbn; lia|].
      cbn [code_units forallb] in Hr. apply andb_true_iff in Hr as [Hd Hr'].
      fold (code_units r') in Hr'. cbn [length] in Hlen.
      destruct (is_low_surrogate d) eqn:Hlo.
      * rewrite length_app.
        destruct (encode_code_point_length (Utf8.pair_code_point c d))
          as (_ & _ & H4).
        rewrite H4 by (unfold Utf8.pair_code_point; lia).
        specialize (IH r' ltac:(lia) Hr'). cbn [length]. lia.
      * rewrite length_app. change (length Utf8.replacement) with 3%nat.
        specialize (IH (d :: r') ltac:(cbn [length]; lia)).
        cbn [code_units forallb] in IH. rewrite Hd in IH.
        specialize (IH Hr'). cbn [length] in *. lia.
    + destruct (is_low_surrogate c).
      * rewrite length_app. change (length Utf8.replacement) with 3%nat.
        specialize (IH r ltac:(lia) Hr). cbn [length] in *. lia.
      * rewrite length_app. specialize (IH r ltac:(lia) Hr).
        destruct (encode_code_point_length c) as (H1 & H3 & _).
        specialize (H3 Hc). cbn [length]. lia.
Qed.

(** X20.  The size of what is stored.  For a string of [n] UTF-16 code
    units the ciphertext field has between [2 n] and [6 n] hexadecimal
    digits, and the nonce and tag fields have 32 digits each; the 10 000
    characters the request validation admits thus never need more than
    60 000 characters of ciphertext. *)
Theorem envelope_size_bounds (svc : EncryptionService.t) (s : jsstring) (w : World) :
  length (EncryptionService.encryptionKey svc) = 32%nat ->
  code_units s = true ->
  exists env w1,
    EncryptionService.encrypt svc s w = (inr env, w1) /\
    (2 * length s <= length (EncryptionService.encryptedContent env) <= 6 * length s)%nat /\
    length (EncryptionService.iv env) = 32%nat /\
    length (EncryptionService.authTag env) = 32%nat /\
    (N.of_nat (length s) <= 10000 ->
     N.of_nat (length (EncryptionService.encryptedContent env)) <= 60000).
Proof.
  intros Hk Hcu. do 2 eexists. split; [now apply encrypt_run|].
  unfold envelope.
  cbn [EncryptionService.encryptedContent EncryptionService.iv
       EncryptionService.authTag].
  rewrite !hex_encode_length, gcm_encrypt_length, gcm_tag_length, next_nonce_length.
  pose proof (utf8_encode_length_bounded (length s) s (le_n _) Hcu).
  repeat split; lia.
Qed.

Lemma envelope_size_bounds_witness :
  exists env w1,
    EncryptionService.encrypt sample_service (js "s3cr3t") sample_world = (inr env, w1) /\
    (2 * length (js "s3cr3t") <= length (EncryptionService.encryptedContent env)
       <= 6 * length (js "s3cr3t"))%nat /\
    length (EncryptionService.iv env) = 32%nat /\
    length (EncryptionService.authTag env) = 32%nat /\
    (N.of_nat (length (js "s3cr3t")) <= 10000 ->
     N.of_nat (length (EncryptionService.encryptedContent env)) <= 60000).
Proof.
  apply (envelope_size_bounds sample_service (js "s3cr3t") sample_world);
    reflexivity.
Defined.

(** ** Decrypted text is well formed *)

Lemma well_formed_app_bounded (n : nat) (a b : jsstring) :
  (length a <= n)%nat ->
  well_formed a = true -> well_formed b = true -> well_formed (a ++ b) = true.
Proof.
  revert a. induction n as [|n IH]; intros a Hlen Ha Hb.
  - destruct a; [exact Hb|cbn in Hlen; lia].
  - destruct a as [|c r]; [exact Hb|].
    cbn [length] in Hlen. cbn [app well_formed] in *.
    destruct (is_high_surrogate c).
    + destruct r as [|d r']; [discriminate|].
      cbn [app]. apply andb_true_iff in Ha as [Hd Hr'].
      rewrite Hd. cbn [andb]. apply IH; auto. cbn [length] in Hlen. lia.
    + destruct (is_low_surrogate c); [discriminate|].
      apply andb_true_iff in Ha as [Hc Hr]. rewrite Hc. cbn [andb].
      apply IH; auto. lia.
Qed.

Lemma well_formed_app (a b : jsstring) :
  well_formed a = true -> well_formed b = true -> well_formed (a ++ b) = true.
Proof. apply (well_formed_app_bounded (length a)). lia. Qed.

Lemma well_formed_emit (cp : N) :
  completes 0 cp 0 0 -> well_formed (Utf8.emit cp) = true.
Proof.
  cbn [completes]. intros H. unfold Utf8.emit.
  destruct (N.ltb_spec cp 0x10000).
  - cbn [well_formed]. unfold is_high_surrogate, is_low_surrogate.
    destruct H as [H|H]; eval_cmp; reflexivity.
  - cbn [well_formed]. unfold is_high_surrogate, is_low_surrogate.
    destruct H as [H|H]; [lia|]. eval_cmp. reflexivity.
Qed.

Lemma start_ok (b : N) :
  well_formed (fst (Utf8.start b)) = true /\ state_ok (snd (Utf8.start b)).
Proof.
  unfold Utf8.start.
  destruct (N.ltb_spec b 0x80).
  { cbn [fst snd]. split; [|exact I]. cbn [well_formed].
    unfold is_high_surrogate, is_low_surrogate. eval_cmp. reflexivity. }
  destruct ((0xC2 <=? b) && (b <=? 0xDF)) eqn:E2.
  { apply andb_true_iff in E2 as [H1 H2]. apply N.leb_le in H1, H2.
    cbn [fst snd]. split; [reflexivity|].
    unfold state_ok. cbn [Utf8.bytes_left Utf8.code_point Utf8.lower Utf8.upper
                            completes].
    intros b2 Hl Hu. lia. }
  destruct ((0xE0 <=? b) && (b <=? 0xEF)) eqn:E3.
  { apply andb_true_iff in E3 as [H1 H2]. apply N.leb_le in H1, H2.
    cbn [fst snd]. split; [reflexivity|].
    unfold state_ok. cbn [Utf8.bytes_left Utf8.code_point Utf8.lower Utf8.upper
                            completes].
    intros b2 Hl Hu b3 Hl3 Hu3.
    destruct (N.eqb_spec b 0xE0), (N.eqb_spec b 0xED); lia. }
  destruct ((0xF0 <=? b) && (b <=? 0xF4)) eqn:E4.
  { apply andb_true_iff in E4 as [H1 H2]. apply N.leb_le in H1, H2.
    cbn [fst snd]. split; [reflexivity|].
    unfold state_ok. cbn [Utf8.bytes_left Utf8.code_point Utf8.lower Utf8.upper
                            completes].
    intros b2 Hl Hu b3 Hl3 Hu3 b4 Hl4 Hu4.
    destruct (N.eqb_spec b 0xF0), (N.eqb_spec b 0xF4); lia. }
  cbn [fst snd]. split; [reflexivity|exact I].
Qed.

Lemma step_ok (st : Utf8.state) (b : N) :
  state_ok st ->
  well_formed (fst (Utf8.step st b)) = true /\ state_ok (snd (Utf8.step st b)).
Proof.
  intros Hst. unfold Utf8.step. unfold state_ok in Hst.
  destruct (Utf8.bytes_left st) as [|k] eqn:Ek; [apply start_ok|].
  destruct ((Utf8.lower st <=? b) && (b <=? Utf8.upper st)) eqn:Er.
  - apply andb_true_iff in Er as [H1 H2]. apply N.leb_le in H1, H2.
    cbn [completes] in Hst. specialize (Hst b H1 H2).
    destruct k as [|k'].
    + cbn [fst snd]. split; [|exact I].
      apply well_formed_emit. exact Hst.
    + cbn [fst snd]. split; [reflexivity|].
      unfold state_ok.
      cbn [Utf8.bytes_left Utf8.code_point Utf8.lower Utf8.upper]. exact Hst.
  - destruct (start_ok b) as [Ho Hs].
    destruct (Utf8.start b) as [out st']. cbn [fst snd] in *.
    split; [|exact Hs].
    cbn [well_formed]. unfold is_high_surrogate, is_low_surrogate.
    eval_cmp. exact Ho.
Qed.

Lemma write_ok (bs : Buffer) (st : Utf8.state) :
  state_ok st ->
  well_formed (fst (Utf8.write st bs)) = true /\ state_ok (snd (Utf8.write st bs)).
Proof.
  revert st. induction bs as [|b r IH]; intros st Hst.
  - cbn. split; [reflexivity|exact Hst].
  - cbn [Utf8.write].
    destruct (step_ok st (Byte.to_N b) Hst) as [Ho1 Hs1].
    destruct (Utf8.step st (Byte.to_N b)) as [o1 st1]. cbn [fst snd] in *.
    destruct (IH st1 Hs1) as [Ho2 Hs2].
    destruct (Utf8.write st1 r) as [o2 st2]. cbn [fst snd] in *.
    split; [now apply well_formed_app|exact Hs2].
Qed.

Lemma utf8_decode_well_formed (bs : Buffer) :
  well_formed (Utf8.decode bs) = true.
Proof.
  unfold Utf8.decode.
  destruct (write_ok bs Utf8.initial I) as [Ho _].
  destruct (Utf8.write Utf8.initial bs) as [o st]. cbn [fst] in Ho.
  apply well_formed_app; [exact Ho|].
  unfold Utf8.finish. destruct (Utf8.bytes_left st); reflexivity.
Qed.

(** X21.  Whatever [decrypt] returns is well-formed Unicode text: no
    string it yields holds an unpaired surrogate, whichever octets the
    envelope decrypts to (the text of a forged or foreign envelope
    included); octets that are not UTF-8 come out as U+FFFD. *)
Theorem decrypted_text_is_well_formed (svc : EncryptionService.t)
    (c n t : jsstring) (w : World) (text : jsstring) :
  fst (EncryptionService.decrypt svc c n t w) = inr text ->
  well_formed text = true /\ toWellFormed text = text.
Proof.
  intros Hd. rewrite decrypt_outcome in Hd.
  assert (Hwf : well_formed text = true).
  { destruct (accepted (EncryptionService.encryptionKey svc) c n t) eqn:Ha.
    - rewrite decrypt_core_accepted in Hd by exact Ha.
      injection Hd as <-. apply utf8_decode_well_formed.
    - destruct (decrypt_core_rejected _ _ _ _ Ha) as [e He].
      rewrite He in Hd. discriminate. }
  split; [exact Hwf|].
  assert (Hcu : forall n s, (length s <= n)%nat -> well_formed s = true ->
                            code_units s = true).
  { clear. induction n as [|n IH]; intros s Hlen Hs.
    - destruct s; [reflexivity|cbn in Hlen; lia].
    - destruct s as [|c r]; [reflexivity|].
      cbn [length] in Hlen. cbn [well_formed code_units forallb] in *.
      destruct (is_high_surrogate c) eqn:Hhi.
      + destruct r as [|d r']; [discriminate|].
        apply andb_true_iff in Hs as [Hd Hr']. cbn [forallb length] in *.
        unfold is_high_surrogate in Hhi. unfold is_low_surrogate in Hd.
        apply andb_true_iff in Hhi as [_ H1]. apply andb_true_iff in Hd as [_ H2].
        apply N.leb_le in H1, H2.
        replace (c <? 65536) with true by (symmetry; apply N.ltb_lt; lia).
        replace (d <? 65536) with true by (symmetry; apply N.ltb_lt; lia).
        cbn [andb]. apply (IH r'); [lia|exact Hr'].
      + destruct (is_low_surrogate c); [discriminate|].
        apply andb_true_iff in Hs as [Hc Hr]. rewrite Hc. cbn [andb].
        apply (IH r); [lia|exact Hr]. }
  apply (toWellFormed_fixed_bounded (length text)); auto.
  now apply (Hcu (length text)).
Qed.

Lemma decrypted_text_is_well_formed_witness :
  well_formed (js "s3cr3t") = true /\ toWellFormed (js "s3cr3t") = js "s3cr3t".
Proof.
  apply (decrypted_text_is_well_formed sample_service
           (js "d640ff38d0d9") (js "000102030405060708090a0b0c0d0e0f")
           (js "b1cc078832927be782d133648c866a33") sample_world (js "s3cr3t")).
  vm_compute. reflexivity.
Defined.

(** ** From the client to the middleware *)

(** X22.  The header the client builds and the token the middleware reads.
    For a session with a non-empty access token [getAuthenticatedClient]
    sets the Authorization header to "Bearer " and the token.  If the token
    holds no space, [authenticate] hands exactly that token to Supabase and
    lets the request through exactly when [getUser] of it returns a user
    and no error; if the token holds a space, the request is answered 401
    without Supabase being consulted.  Without a session, or with an empty
    token, the client throws before any request is made. *)
Theorem client_token_reaches_getUser (API_URL token : jsstring)
    (getUser : jsstring -> exn + AuthMiddleware.UserResponse) (w : World) :
  Api.getAuthenticatedClient API_URL None
    = inl (Error (js "No active session. Please log in.")) /\
  Api.getAuthenticatedClient API_URL (Some [])
    = inl (Error (js "No active session. Please log in.")) /\
  (token <> [] ->
   exists client,
     Api.getAuthenticatedClient API_URL (Some token) = inr client /\
     (~ In 32 token ->
      AuthMiddleware.extractBearerToken (Some (Api.authorization client)) = Some token /\
      forall attached,
        fst (AuthMiddleware.authenticate (Some (Api.authorization client))
               (inr getUser) w) = inr (AuthMiddleware.Next attached)
        <-> exists user,
              getUser token = inr (AuthMiddleware.mkUserResponse (Some user) None) /\
              attached = AuthMiddleware.mkAuthUser (AuthMiddleware.id user)
                           (match AuthMiddleware.email user with
                            | Some e => e
                            | None => []
                            end)
                           (AuthMiddleware.role user)) /\
     (In 32 token ->
      AuthMiddleware.extractBearerToken (Some (Api.authorization client)) = None /\
      fst (AuthMiddleware.authenticate (Some (Api.authorization client))
             (inr getUser) w)
      = inr (AuthMiddleware.Respond 401
               (js "Authentication required. Please provide a valid access token.")))).
Proof.
  split; [reflexivity|]. split; [reflexivity|].
  intros Hne. destruct token as [|c token]; [contradiction|].
  eexists. split; [reflexivity|]. cbn [Api.authorization]. split.
  - intros Hsp.
    pose proof (proj2 (bearer_token_iff (js "Bearer " ++ c :: token) (c :: token))
                      (conj eq_refl Hsp)) as E.
    split; [exact E|]. intros attached.
    rewrite authenticate_next_iff. split.
    + intros (token' & getUser' & user & Hh & _ & Hsp' & [= <-] & Hg & ->).
      injection Hh as Hh. subst token'.
      eauto.
    + intros (user & Hg & ->).
      exists (c :: token), getUser, user. repeat split; auto.
  - intros Hsp.
    assert (E : AuthMiddleware.extractBearerToken
                  (Some (js "Bearer " ++ c :: token)) = None).
    { destruct (AuthMiddleware.extractBearerToken
                  (Some (js "Bearer " ++ c :: token))) as [t|] eqn:Et; [|reflexivity].
      apply bearer_token_iff in Et as [Hh Ht].
      apply app_inv_head in Hh. subst t. contradiction. }
    split; [exact E|].
    unfold AuthMiddleware.authenticate, try_catch.
    change (AuthMiddleware.extractBearerToken (Some (js "Bearer " ++ c :: token)))
      with (AuthMiddleware.extractBearerToken (Some (js "Bearer " ++ c :: token))).
    rewrite E. reflexivity.
Qed.

Lemma client_token_reaches_getUser_witness :
  exists client,
    Api.getAuthenticatedClient (js "http://localhost:5000") (Some (js "abc.def.ghi"))
      = inr client /\
    AuthMiddleware.extractBearerToken (Some (Api.authorization client))
      = Some (js "abc.def.ghi").
Proof.
  destruct (proj2 (proj2 (client_token_reaches_getUser (js "http://localhost:5000")
                            (js "abc.def.ghi")
                            (fun _ => inl (Error [])) sample_world)))
    as (client & Hc & Hok & _).
  { discriminate. }
  exists client. split; [exact Hc|].
  apply Hok. cbn. intros H. repeat (destruct H as [H|H]; [discriminate|]). exact H.
Defined.

(** ** The form and the row of a secret *)

Lemma trimStart_nil (s : jsstring) :
  SecretModal.trimStart s = [] <-> forallb SecretModal.is_white_space s = true.
Proof.
  induction s as [|c r IH]; [cbn; tauto|].
  cbn [SecretModal.trimStart forallb].
  destruct (SecretModal.is_white_space c); cbn [andb]; [exact IH|].
  split; discriminate.
Qed.

Lemma trimStart_keeps (s : jsstring) :
  forallb SecretModal.is_white_space (SecretModal.trimStart s)
  = forallb SecretModal.is_white_space s.
Proof.
  induction s as [|c r IH]; [reflexivity|].
  cbn [SecretModal.trimStart].
  destruct (SecretModal.is_white_space c) eqn:E; [|reflexivity].
  cbn [forallb]. now rewrite E.
Qed.

Lemma forallb_rev {A} (p : A -> bool) (l : list A) :
  forallb p (rev l) = forallb p l.
Proof.
  induction l as [|x l IH]; [reflexivity|].
  cbn [rev forallb]. rewrite forallb_app, IH. cbn [forallb].
  rewrite andb_true_r. apply andb_comm.
Qed.

Lemma trim_nil (s : jsstring) :
  SecretModal.trim s = [] <-> forallb SecretModal.is_white_space s = true.
Proof.
  unfold SecretModal.trim, SecretModal.trimEnd.
  rewrite <- (trimStart_keeps s), <- (forallb_rev _ (SecretModal.trimStart s)).
  rewrite <- trimStart_nil. split.
  - intros H. apply (f_equal (@rev N)) in H. now rewrite rev_involutive in H.
  - intros ->. reflexivity.
Qed.

(** X23.  What the form lets through.  [handleSubmit] calls [onSave] with
    the content as typed (not trimmed) and the id of the secret being
    edited, and with nothing else, exactly when the content holds a code
    unit that is not white space and is at most 10 000 code units long; it
    then calls it once, right after clearing the error and raising the
    saving flag, and not again.  Content that is empty or all white space,
    and content that is longer, is turned down with an error message and
    nothing is sent. *)
Theorem form_validation (content : jsstring) (isSaving : bool)
    (secretId : option jsstring) (saved : exn + unit)
    (c : jsstring) (i : option jsstring) :
  let effects := SecretModal.handleSubmit content isSaving secretId saved in
  (In (SecretModal.OnSave c i) effects
   <-> c = content /\ i = secretId /\
       (exists u, In u content /\ SecretModal.is_white_space u = false) /\
       N.of_nat (length content) <= 10000) /\
  (forallb SecretModal.is_white_space content = true ->
   effects = [SecretModal.SetError None;
              SecretModal.SetError (Some (js "Secret content cannot be empty"))]) /\
  (forallb SecretModal.is_white_space content = false ->
   10000 < N.of_nat (length content) ->
   effects = [SecretModal.SetError None;
              SecretModal.SetError
                (Some (js "Secret content is too long (max 10,000 characters)"))]) /\
  (forallb SecretModal.is_white_space content = false ->
   N.of_nat (length content) <= 10000 ->
   exists rest,
     effects = SecretModal.SetError None :: SecretModal.SetIsSaving true
               :: SecretModal.OnSave content secretId :: rest /\
     forall c' i', ~ In (SecretModal.OnSave c' i') rest).
Proof.
  intros effects. subst effects. unfold SecretModal.handleSubmit.
  assert (Hex : forallb SecretModal.is_white_space content = false
                <-> exists u, In u content /\ SecretModal.is_white_space u = false).
  { split.
    - intros H. induction content as [|x r IH]; [discriminate|].
      cbn [forallb] in H. destruct (SecretModal.is_white_space x) eqn:E.
      + destruct (IH H) as (u & Hu & Hw). exists u. split; [now right|exact Hw].
      + exists x. split; [now left|exact E].
    - intros (u & Hu & Hw).
      destruct (forallb SecretModal.is_white_space content) eqn:E; [|reflexivity].
      rewrite forallb_forall in E. rewrite (E u Hu) in Hw. discriminate. }
  destruct (SecretModal.trim content) as [|t ts] eqn:Et.
  - assert (Hall : forallb SecretModal.is_white_space content = true)
      by now apply trim_nil.
    split; [|split; [|split]].
    + split.
      * intros [H|[H|[]]]; discriminate.
      * intros (_ & _ & Hu & _). apply Hex in Hu. congruence.
    + reflexivity.
    + intros H. congruence.
    + intros H. congruence.
  - assert (Hsome : forallb SecretModal.is_white_space content = false).
    { destruct (forallb SecretModal.is_white_space content) eqn:E; [|reflexivity].
      apply trim_nil in E. congruence. }
    destruct (N.ltb_spec 10000 (N.of_nat (length content))) as [Hlong|Hshort].
    + split; [|split; [|split]].
      * split.
        -- intros [H|[H|[]]]; discriminate.
        -- intros (_ & _ & _ & Hle). lia.
      * intros H. congruence.
      * reflexivity.
      * intros _ H. lia.
    + assert (Hrest : forall c' i',
                ~ In (SecretModal.OnSave c' i')
                    (match saved with
                     | inr _ => SecretModal.handleClose isSaving
                     | inl err =>
                         [SecretModal.SetError
                            (Some (match message err with
                                   | [] => js "Failed to save secret"
                                   | m => m
                                   end))]
                     end ++ [SecretModal.SetIsSaving false])).
      { intros c' i' H. apply in_app_or in H as [H|[H|[]]]; [|discriminate].
        destruct saved as [err|[]].
        - destruct H as [H|[]]. discriminate.
        - unfold SecretModal.handleClose in H.
          destruct isSaving; [destruct H|].
          destruct H as [H|[H|[H|[]]]]; discriminate. }
      split; [|split; [|split]].
      * split.
        -- intros [H|[H|[H|H]]]; try discriminate.
           ++ injection H as <- <-. repeat split; auto. now apply Hex.
           ++ exfalso. exact (Hrest _ _ H).
        -- intros (-> & -> & _ & _). right. right. now left.
      * intros H. congruence.
      * intros _ H. lia.
      * intros _ _. eexists. split; [reflexivity|exact Hrest].
Qed.

Lemma form_validation_witness :
  SecretModal.handleSubmit (js "   ") false None (inr tt)
  = [SecretModal.SetError None;
     SecretModal.SetError (Some (js "Secret content cannot be empty"))] /\
  exists rest,
    SecretModal.handleSubmit (js " s3cr3t ") false (Some (js "7")) (inr tt)
    = SecretModal.SetError None :: SecretModal.SetIsSaving true
      :: SecretModal.OnSave (js " s3cr3t ") (Some (js "7")) :: rest /\
    forall c' i', ~ In (SecretModal.OnSave c' i') rest.
Proof.
  split.
  - apply (proj1 (proj2 (form_validation (js "   ") false None (inr tt) [] None))).
    reflexivity.
  - apply (proj2 (proj2 (proj2 (form_validation (js " s3cr3t ") false
                                  (Some (js "7")) (inr tt) [] None)))).
    + reflexivity.
    + vm_compute. discriminate.
Defined.

(** X24.  The masked form of a secret shows nothing of its text: it is
    made of bullets only, as many as the secret has code units but never
    more than 40, so two secrets get the same mask exactly when they are
    equally long or both at least 40 units long. *)
Theorem mask_shows_only_length (s s' : jsstring) :
  Forall (fun u => u = 0x2022) (SecretRow.getMaskedContent s) /\
  length (SecretRow.getMaskedContent s) = Nat.min (length s) 40 /\
  (SecretRow.getMaskedContent s = SecretRow.getMaskedContent s'
   <-> Nat.min (length s) 40 = Nat.min (length s') 40).
Proof.
  unfold SecretRow.getMaskedContent. split; [|split].
  - apply Forall_forall. intros u Hu. now apply repeat_spec in Hu.
  - apply repeat_length.
  - split.
    + intros H. apply (f_equal (@length N)) in H. now rewrite !repeat_length in H.
    + intros ->. reflexivity.
Qed.
